(* Verification of the DAG ledger engine of SpectrumEncoder
   (shared/messageEncoding.ts: DAGUtils, VertexBuilder; shared/crypto.ts:
   NonceTracker; client/src/lib/dagStorage.ts: DAGStorage).

   Modelling conventions.
   - A JS number is modelled as a rational (Q) where the code computes
     with fractions (random walk, seeded generator) and as an integer (Z)
     where it only holds integers (depths, weights, millisecond times).
     Rounding of IEEE doubles is not modelled; `Math.exp` is left abstract.
   - `Math.random` is an external stream `ext : nat -> Q` read at a global
     position that every call advances.
   - A thrown TypeError (property read on `undefined`) is `None`.
   - `Map<string, _>` is stdpp's gmap, `Set<string>` is gset. *)

From Stdlib Require Import QArith Qround ZArith Ascii Lqa Sorted Permutation.
From stdpp Require Import base gmap strings list pretty.

Open Scope string_scope.

(* ------------------------------------------------------------------ *)
(** * Data model: the dag_vertices row (shared/schema.ts) *)

(** Columns that none of the modelled functions read (id, workProof) are
    left out.  [isAnchored] and the timestamps are optional: a vertex fresh
    from [VertexBuilder.build] has no [isAnchored], and the nullable
    columns may be absent. Timestamps are milliseconds since the epoch. *)
Record DagVertex := mkDagVertex {
  vertexHash : string;
  nodeId : string;
  tipReference1 : string;
  tipReference2 : string;
  depth : Z;
  cumulativeWeight : Z;
  payloadType : string;
  payloadHash : string;
  payloadData : option string;
  engagementProof : string;
  signature : string;
  isAnchored : option string;
  anchorTimestamp : option Z;
  createdAt : option Z
}.

Module TipSelection.
Record t := mk { tip1Hash : string; tip2Hash : string; depth : Z }.
End TipSelection.

Fixpoint str_repeat (n : nat) (s : string) : string :=
  match n with
  | O => ""
  | S n' => s ++ str_repeat n' s
  end.

(** [DAGUtils.GENESIS_HASH = '0'.repeat(64)] *)
Definition GENESIS_HASH : string := str_repeat 64 "0".

(** [!v.isAnchored || v.isAnchored === 'false'] *)
Definition is_unanchored (v : DagVertex) : bool :=
  match isAnchored v with
  | None => true
  | Some s => String.eqb s "" || String.eqb s "false"
  end.

(** [v.isAnchored === 'true'] *)
Definition anchored_true (v : DagVertex) : bool :=
  match isAnchored v with
  | Some s => String.eqb s "true"
  | None => false
  end.

(** JS array read [a[i]] at a numeric (integer) index: [undefined] outside
    the array. *)
Definition js_index {A} (l : list A) (i : Z) : option A :=
  if Z.ltb i 0 then None else nth_error l (Z.to_nat i).

(** [Math.trunc] and the JS remainder [a % b] (sign of the dividend). *)
Definition Qtrunc (q : Q) : Z :=
  if Qle_bool 0 q then Qfloor q else (- Qfloor (- q))%Z.

Definition js_mod (a b : Q) : Q := (a - b * inject_Z (Qtrunc (a / b)))%Q.

(** JS truthiness of a number (Q has no NaN). *)
Definition truthy (q : Q) : bool := negb (Qeq_bool q 0).

(* ------------------------------------------------------------------ *)
(** * Random sources *)

(** The generator a walk uses: [DAGUtils.seededRandom(seed)] (a closure
    over [state]) or [Math.random]. *)
Inductive Rng :=
| SeededRng (state : Q)
| MathRandom.

Section Randomness.
(** The values [Math.random()] returns, in call order. *)
Variable ext : nat -> Q.

(** One call [rng()]; [pos] is the global position in [Math.random]'s
    stream. Seeded: [state = (state * 9301 + 49297) % 233280;
    return state / 233280]. *)
Definition rng_next (g : Rng) (pos : nat) : Q * Rng * nat :=
  match g with
  | SeededRng st =>
      let st' := js_mod (st * inject_Z 9301 + inject_Z 49297) (inject_Z 233280) in
      ((st' / inject_Z 233280)%Q, SeededRng st', pos)
  | MathRandom => (ext pos, MathRandom, S pos)
  end.
End Randomness.

(* ------------------------------------------------------------------ *)
(** * Tip selection: DAGUtils.selectTips and DAGUtils.performRandomWalk *)

(** [approvers.get(h)!.push(v)] after creating the entry if missing. *)
Definition push_approver (h : string) (v : DagVertex)
    (m : gmap string (list DagVertex)) : gmap string (list DagVertex) :=
  <[h := (default [] (m !! h) ++ [v])%list]> m.

(** The approver index: every vertex is pushed under its first and under
    its second parent reference. *)
Definition build_approvers (vs : list DagVertex) : gmap string (list DagVertex) :=
  fold_left (fun m v => push_approver (tipReference2 v) v
                          (push_approver (tipReference1 v) v m)) vs ∅.

(** A [Map] filled by [vs.forEach(v => m.set(v.vertexHash, f(v)))]: the
    last vertex with a given hash wins. *)
Definition index_by {A} (f : DagVertex -> A) (vs : list DagVertex) : gmap string A :=
  fold_left (fun m v => <[vertexHash v := f v]> m) vs ∅.

Definition build_vertexMap (vs : list DagVertex) : gmap string DagVertex :=
  index_by (fun v => v) vs.

Definition maxSteps : nat := 100.

Section Walk.
Variable exp : Q -> Q.   (* Math.exp *)
Variable ext : nat -> Q. (* Math.random's values *)

Definition alpha : Q := 1 # 1000.

(** [v.cumulativeWeight > 0 ? v.cumulativeWeight : 1] *)
Definition walk_weight (v : DagVertex) : Q :=
  inject_Z (if Z.ltb 0 (cumulativeWeight v) then cumulativeWeight v else 1).

Definition ref_known (vertexMap : gmap string DagVertex) (h : string) : bool :=
  String.eqb h GENESIS_HASH || bool_decide (is_Some (vertexMap !! h)).

Definition valid_approver (vertexMap : gmap string DagVertex) (a : DagVertex) : bool :=
  ref_known vertexMap (tipReference1 a) && ref_known vertexMap (tipReference2 a).

(** [validApprovers.reduce((sum, v) => sum + Math.exp(alpha * weight), 0)] *)
Definition total_weight (l : list DagVertex) : Q :=
  fold_left (fun sum v => sum + exp (alpha * walk_weight v))%Q l 0%Q.

(** The [for ... of validApprovers] loop: subtract each weighted value,
    stop at the first approver that brings [random] to [<= 0]. *)
Fixpoint pick (random : Q) (l : list DagVertex) : option DagVertex :=
  match l with
  | [] => None
  | a :: r =>
      let random' := (random - exp (alpha * walk_weight a))%Q in
      if Qle_bool random' 0 then Some a else pick random' r
  end.

(** The [while (steps < maxSteps)] loop; [fuel] is [maxSteps - steps].
    Result: the tip, the number of iterations run, and the position in
    [Math.random]'s stream. [None]: [validApprovers[randomIndex]] was
    [undefined], so the next read of [current.vertexHash] (or of
    [tip.depth] in selectTips) throws. *)
Fixpoint walk_loop (vertexMap : gmap string DagVertex)
    (approvers : gmap string (list DagVertex))
    (fuel steps : nat) (current : DagVertex) (g : Rng) (pos : nat)
    : option (DagVertex * nat * nat) :=
  match fuel with
  | O => Some (current, steps, pos)
  | S fuel' =>
      let currentApprovers := default [] (approvers !! vertexHash current) in
      let validApprovers := filter (fun a => valid_approver vertexMap a = true)
                              currentApprovers in
      match validApprovers with
      | [] => Some (current, steps, pos)
      | a0 :: _ =>
          let totalWeight := total_weight validApprovers in
          let '(r, g', pos') := rng_next ext g pos in
          let next :=
            if Qeq_bool totalWeight 0 then
              js_index validApprovers
                (Qfloor (r * inject_Z (Z.of_nat (length validApprovers))))
            else Some (default a0 (pick (r * totalWeight)%Q validApprovers)) in
          match next with
          | None => None
          | Some nxt => walk_loop vertexMap approvers fuel' (S steps) nxt g' pos'
          end
      end
  end.

(** [performRandomWalk]: pick the entry point among the last
    [min(10, |vertices|)] vertices, then walk. *)
Definition performRandomWalk (vertices : list DagVertex)
    (vertexMap : gmap string DagVertex)
    (approvers : gmap string (list DagVertex)) (g : Rng) (pos : nat)
    : option (DagVertex * nat * nat) :=
  let '(r, g', pos') := rng_next ext g pos in
  let n := Z.of_nat (length vertices) in
  let entryIndex := Qfloor (r * inject_Z (Z.min 10 n)) in
  match js_index vertices (n - 1 - entryIndex)%Z with
  | None => None
  | Some current => walk_loop vertexMap approvers maxSteps 0 current g' pos'
  end.

Definition rng_of (randomSeed : option Q) : Rng :=
  match randomSeed with Some s => SeededRng s | None => MathRandom end.

(** [randomSeed ? randomSeed * 1.618 : undefined] *)
Definition second_seed (randomSeed : option Q) : option Q :=
  match randomSeed with
  | Some s => if truthy s then Some (s * (1618 # 1000))%Q else None
  | None => None
  end.

Definition genesis_selection : TipSelection.t :=
  TipSelection.mk GENESIS_HASH GENESIS_HASH 0.

(** [DAGUtils.selectTips(recentVertices, randomSeed)], full variant
    (messageEncoding.ts, lines 349-407). Returns the selection and the
    new position in [Math.random]'s stream. *)
Definition selectTips (recentVertices : list DagVertex) (randomSeed : option Q)
    (pos : nat) : option (TipSelection.t * nat) :=
  match recentVertices with
  | [] => Some (genesis_selection, pos)
  | v0 :: _ =>
      let unanchored := filter (fun v => is_unanchored v = true) recentVertices in
      match unanchored with
      | [] =>
          let latest := List.last recentVertices v0 in
          Some (TipSelection.mk (vertexHash latest) (vertexHash latest) (depth latest + 1), pos)
      | [u] =>
          Some (TipSelection.mk (vertexHash u) (vertexHash u) (depth u + 1), pos)
      | _ =>
          let vertexMap := build_vertexMap unanchored in
          let approvers := build_approvers unanchored in
          match performRandomWalk unanchored vertexMap approvers (rng_of randomSeed) pos with
          | None => None
          | Some (tip1, _, pos1) =>
              match performRandomWalk unanchored vertexMap approvers
                      (rng_of (second_seed randomSeed)) pos1 with
              | None => None
              | Some (tip2, _, pos2) =>
                  Some (TipSelection.mk (vertexHash tip1) (vertexHash tip2)
                          (Z.max (depth tip1) (depth tip2) + 1), pos2)
              end
          end
      end
  end.
End Walk.

(** [Array.prototype.sort] with a comparator [(a, b) => key(b) - key(a)]:
    a stable sort by descending key, written as an insertion sort (each
    vertex goes after the earlier ones of equal or higher key). *)
Fixpoint insert_desc_by (key : DagVertex -> Z) (v : DagVertex) (l : list DagVertex)
    : list DagVertex :=
  match l with
  | [] => [v]
  | x :: r =>
      if Z.ltb (key x) (key v) then v :: x :: r
      else x :: insert_desc_by key v r
  end.

Definition sort_desc_by (key : DagVertex -> Z) (l : list DagVertex) : list DagVertex :=
  fold_left (fun acc v => insert_desc_by key v acc) l [].

Section SimpleVariant.
Variable ext : nat -> Q.

(** [DAGUtils.selectTips], simplified variant (messageEncoding.ts, lines
    912-958): no walk, two indices derived from the seed. *)
Definition selectTips_simple (recentVertices : list DagVertex)
    (randomSeed : option Q) (pos : nat) : option (TipSelection.t * nat) :=
  match recentVertices with
  | [] => Some (genesis_selection, pos)
  | v0 :: _ =>
      let weightedSelection :=
        sort_desc_by cumulativeWeight (filter (fun v => is_unanchored v = true) recentVertices) in
      match weightedSelection with
      | [] =>
          let latest := List.last recentVertices v0 in
          Some (TipSelection.mk (vertexHash latest) (vertexHash latest) (depth latest + 1), pos)
      | [u] =>
          Some (TipSelection.mk (vertexHash u) (vertexHash u) (depth u + 1), pos)
      | _ =>
          (* const seed = randomSeed || Math.random(); *)
          let '(seed, pos') :=
            match randomSeed with
            | Some s => if truthy s then (s, pos) else (ext pos, S pos)
            | None => (ext pos, S pos)
            end in
          let m := Z.min 5 (Z.of_nat (length weightedSelection)) in
          let index1 := Qfloor (seed * inject_Z m) in
          let index2 := Qfloor (js_mod (seed * inject_Z 1000) (inject_Z m)) in
          let index2 := if Z.eqb index2 index1 then Z.rem (index2 + 1) m else index2 in
          match js_index weightedSelection index1, js_index weightedSelection index2 with
          | Some tip1, Some tip2 =>
              Some (TipSelection.mk (vertexHash tip1) (vertexHash tip2)
                      (Z.max (depth tip1) (depth tip2) + 1), pos')
          | _, _ => None
          end
      end
  end.
End SimpleVariant.

(** A vertex with the given hash, parents, depth, weight, anchoring flag
    and creation time; the other columns are fixed strings. *)
Definition mkV (h r1 r2 : string) (d cw : Z) (anch : option string)
    (created : option Z) : DagVertex :=
  mkDagVertex h "node" r1 r2 d cw "message" ("p" ++ h) None "proof" "sig"
    anch None created.

(** Sample vertices: [va] is anchored, [vb] and [vc] are unanchored; all
    three hang off genesis. *)
Definition va : DagVertex := mkV "a" GENESIS_HASH GENESIS_HASH 0 1 (Some "true") None.
Definition vb : DagVertex := mkV "b" GENESIS_HASH GENESIS_HASH 0 1 (Some "false") None.
Definition vc : DagVertex := mkV "c" GENESIS_HASH GENESIS_HASH 0 1 (Some "false") None.

(** A [Math.random] stream returning 0.25 first and 0.75 afterwards. *)
Definition ext_quarters (n : nat) : Q := if Nat.eqb n 0 then 1 # 4 else 3 # 4.

(** The generator yields numbers in [0, 1): a seeded generator with a
    non-negative state, or [Math.random] (whose values are in [0, 1)). *)
Definition good_rng (ext : nat -> Q) (g : Rng) : Prop :=
  match g with
  | SeededRng st => (0 <= st)%Q
  | MathRandom => forall n, (0 <= ext n < 1)%Q
  end.

(* ------------------------------------------------------------------ *)
(** * Replay guard: NonceTracker (shared/crypto.ts) *)

Record NonceTracker := mkNonceTracker {
  seenNonces : gmap string Z;
  maxAge : Z
}.

(** [new NonceTracker(maxAgeMs)] (the cleanup timer is [cleanup] below). *)
Definition newNonceTracker (maxAgeMs : Z) : NonceTracker :=
  mkNonceTracker ∅ maxAgeMs.

(** [hasSeenNonce(nonce, timestamp)] at clock value [now = Date.now()]:
    the answer and the tracker afterwards. *)
Definition hasSeenNonce (now : Z) (tr : NonceTracker) (nonce : string)
    (timestamp : Z) : bool * NonceTracker :=
  if bool_decide (is_Some (seenNonces tr !! nonce)) then (true, tr)
  else if Z.ltb timestamp (now - maxAge tr) || Z.ltb (now + 60000) timestamp
  then (true, tr)
  else (false, mkNonceTracker (<[nonce := timestamp]> (seenNonces tr)) (maxAge tr)).

(** One run of the [setInterval] body: delete the entries older than
    [now - maxAge]. *)
Definition cleanup (now : Z) (tr : NonceTracker) : NonceTracker :=
  mkNonceTracker
    (filter (fun kv => ~ (kv.2 < now - maxAge tr)%Z) (seenNonces tr))
    (maxAge tr).

(* ------------------------------------------------------------------ *)
(** * Retention pruner: DAGUtils.pruneOldVertices *)

(** The largest magnitude of a valid [Date] time value, 8.64e15 ms. *)
Definition date_max : Z := 8640000000000000.

(** The time value of [new Date(t)] for an integral number [t]
    ([TimeClip]): [None] is an Invalid Date, whose time value is [NaN]. *)
Definition time_clip (t : Z) : option Z :=
  if Z.leb (Z.abs t) date_max then Some t else None.

(** [new Date(a) > new Date(b)] compares the two time values; a
    comparison with [NaN] is [false]. *)
Definition date_gt (a b : Z) : bool :=
  match time_clip a, time_clip b with
  | Some ta, Some tb => Z.ltb tb ta
  | _, _ => false
  end.

(** [vertices.filter(v => v.isAnchored === 'true' ||
    (v.createdAt && new Date(v.createdAt) > cutoff))] with
    [cutoff = new Date(now - maxAge)]. *)
Definition prune_keep (now maxAge : Z) (v : DagVertex) : bool :=
  anchored_true v ||
  match createdAt v with
  | Some c => date_gt c (now - maxAge)
  | None => false
  end.

Definition pruneOldVertices (now : Z) (vertices : list DagVertex) (maxAge : Z)
    : list DagVertex :=
  filter (fun v => prune_keep now maxAge v = true) vertices.

(** The default retention window, 7 days. *)
Definition default_retention : Z := 7 * 24 * 60 * 60 * 1000.

(* ------------------------------------------------------------------ *)
(** * Weight propagation *)

(** [weights.get(h) || 1] *)
Definition weight_or_1 (weights : gmap string Z) (h : string) : Z :=
  match weights !! h with
  | Some w => if Z.eqb w 0 then 1%Z else w
  | None => 1%Z
  end.

(** [xs.reduce((sum, w) => sum + w, 0)] *)
Definition sum_Z (xs : list Z) : Z := fold_left Z.add xs 0%Z.

(** [DAGUtils.recalculateAllWeights(vertices)] (full variant): build the
    approver index, sort by descending depth, and set each weight to 1 plus
    the weights already computed for its approvers. *)
Definition recalculateAllWeights (vertices : list DagVertex) : gmap string Z :=
  let approvers := build_approvers vertices in
  let sorted := sort_desc_by depth vertices in
  fold_left
    (fun weights vertex =>
       match default [] (approvers !! vertexHash vertex) with
       | [] => <[vertexHash vertex := 1%Z]> weights
       | directApprovers =>
           <[vertexHash vertex :=
               (1 + sum_Z (map (fun v => weight_or_1 weights (vertexHash v)) directApprovers))%Z]>
             weights
       end)
    sorted ∅.

(** [DAGUtils.calculateCumulativeWeight(vertex, allVertices)] (simplified
    variant, the one [DAGStorage] imports): 1 plus the stored weights of
    the vertices that reference [vertex]. *)
Definition calculateCumulativeWeight (vertex : DagVertex) (allVertices : list DagVertex) : Z :=
  let referenced :=
    filter (fun v => String.eqb (tipReference1 v) (vertexHash vertex) = true \/
                     String.eqb (tipReference2 v) (vertexHash vertex) = true) allVertices in
  match referenced with
  | [] => 1%Z
  | _ => (1 + sum_Z (map cumulativeWeight referenced))%Z
  end.

Definition set_cumulativeWeight (v : DagVertex) (w : Z) : DagVertex :=
  mkDagVertex (vertexHash v) (nodeId v) (tipReference1 v) (tipReference2 v)
    (depth v) w (payloadType v) (payloadHash v) (payloadData v)
    (engagementProof v) (signature v) (isAnchored v) (anchorTimestamp v)
    (createdAt v).

(** The IndexedDB vertex store (keyPath [vertexHash]) as its records in
    key order, which is the order [getAll] returns; [store_put] is
    [store.put(record)]. *)
Fixpoint store_put (v : DagVertex) (store : list DagVertex) : list DagVertex :=
  match store with
  | [] => [v]
  | x :: r =>
      match String.compare (vertexHash v) (vertexHash x) with
      | Eq => v :: r
      | Lt => v :: x :: r
      | Gt => x :: store_put v r
      end
  end.

(** The [for (const vertex of allVertices)] loop of
    [DAGStorage.updateCumulativeWeights]. [allVertices] holds the very
    objects the loop mutates ([vertex.cumulativeWeight = newWeight]), so a
    later iteration sees the weights set by earlier ones: the array is
    updated in place at index [i]. *)
Fixpoint update_weights_loop (n i : nat) (allVertices store : list DagVertex)
    : list DagVertex * list DagVertex :=
  match n with
  | O => (allVertices, store)
  | S n' =>
      match allVertices !! i with
      | None => (allVertices, store)
      | Some vertex =>
          let newWeight := calculateCumulativeWeight vertex allVertices in
          if Z.eqb newWeight (cumulativeWeight vertex)
          then update_weights_loop n' (S i) allVertices store
          else
            let vertex' := set_cumulativeWeight vertex newWeight in
            update_weights_loop n' (S i) (<[i := vertex']> allVertices)
              (store_put vertex' store)
      end
  end.

(** [DAGStorage.updateCumulativeWeights()]: the store after the run. *)
Definition updateCumulativeWeights (store : list DagVertex) : list DagVertex :=
  (update_weights_loop (length store) 0 store store).2.

(** Sample lists: [vb2] references [va0] twice (as [selectTips] produces
    when one unanchored vertex exists); [wa], [wb], [wc] form a chain. *)
Definition va0 : DagVertex := mkV "a" GENESIS_HASH GENESIS_HASH 0 1 None None.
Definition vb2 : DagVertex := mkV "b" "a" "a" 1 1 None None.
Definition wa : DagVertex := mkV "a" GENESIS_HASH GENESIS_HASH 0 1 None None.
Definition wb : DagVertex := mkV "b" "a" GENESIS_HASH 1 1 None None.
Definition wc : DagVertex := mkV "c" "b" GENESIS_HASH 2 1 None None.

(* ------------------------------------------------------------------ *)
(** * DAG validation: DAGUtils.hasCycles and DAGUtils.isValidDAG *)

Section Validation.
Variable vertexMap : gmap string DagVertex.

(** The [dfs] closure of [hasCycles]. The state is the pair of sets
    [visited] and [recursionStack]. [fuel] bounds the recursion depth;
    [hasCycles] supplies more than the number of vertices, which is never
    exhausted (lemma [dfs_total]), so [None] is unreachable there. *)
Fixpoint dfs (fuel : nat) (hash : string) (visited recursionStack : gset string)
    : option (bool * gset string * gset string) :=
  match fuel with
  | O => None
  | S fuel' =>
      if bool_decide (hash ∈ recursionStack) then Some (true, visited, recursionStack)
      else if bool_decide (hash ∈ visited) then Some (false, visited, recursionStack)
      else
        let visited1 := {[hash]} ∪ visited in
        let stack1 := {[hash]} ∪ recursionStack in
        match vertexMap !! hash with
        | None => Some (false, visited1, stack1 ∖ {[hash]})
        | Some vertex =>
            let r1 :=
              if String.eqb (tipReference1 vertex) GENESIS_HASH
              then Some (false, visited1, stack1)
              else dfs fuel' (tipReference1 vertex) visited1 stack1 in
            match r1 with
            | None => None
            | Some (true, vis2, stk2) => Some (true, vis2, stk2)
            | Some (false, vis2, stk2) =>
                let r2 :=
                  if String.eqb (tipReference2 vertex) GENESIS_HASH
                  then Some (false, vis2, stk2)
                  else dfs fuel' (tipReference2 vertex) vis2 stk2 in
                match r2 with
                | None => None
                | Some (true, vis3, stk3) => Some (true, vis3, stk3)
                | Some (false, vis3, stk3) => Some (false, vis3, stk3 ∖ {[hash]})
                end
            end
        end
  end.

(** [for (const vertex of vertices) if (!visited.has(h)) if (dfs(h)) return true] *)
Fixpoint hasCycles_loop (fuel : nat) (vs : list DagVertex)
    (visited recursionStack : gset string) : option bool :=
  match vs with
  | [] => Some false
  | v :: rest =>
      if bool_decide (vertexHash v ∈ visited)
      then hasCycles_loop fuel rest visited recursionStack
      else
        match dfs fuel (vertexHash v) visited recursionStack with
        | None => None
        | Some (true, _, _) => Some true
        | Some (false, vis', stk') => hasCycles_loop fuel rest vis' stk'
        end
  end.
End Validation.

(** [DAGUtils.hasCycles(vertices)] *)
Definition hasCycles (vertices : list DagVertex) : option bool :=
  hasCycles_loop (build_vertexMap vertices) (S (length vertices)) vertices ∅ ∅.

(** Check 1 of [isValidDAG]: every non-genesis reference is a known hash. *)
Definition references_exist (vertices : list DagVertex) : bool :=
  let hashes : gset string := list_to_set (map vertexHash vertices) in
  forallb (fun v =>
    (String.eqb (tipReference1 v) GENESIS_HASH || bool_decide (tipReference1 v ∈ hashes)) &&
    (String.eqb (tipReference2 v) GENESIS_HASH || bool_decide (tipReference2 v ∈ hashes)))
    vertices.

(** [payloadMap]: payloadHash -> the vertexHashes carrying it, in order. *)
Definition build_payloadMap (vertices : list DagVertex) : gmap string (list string) :=
  fold_left (fun m v =>
    <[payloadHash v := (default [] (m !! payloadHash v) ++ [vertexHash v])%list]> m)
    vertices ∅.

(** Check 2: a payload carried by several vertices is approved with one
    parent pair only ([tipSets.size > 1] rejects); each hash is resolved
    with [vertices.find]. *)
Definition no_conflicts (vertices : list DagVertex) : bool :=
  forallb (fun kv =>
    let vertexHashes := kv.2 in
    if Nat.ltb 1 (length vertexHashes) then
      let tipSets : gset string :=
        list_to_set
          (omap (fun vHash =>
                   match List.find (fun v => String.eqb (vertexHash v) vHash) vertices with
                   | Some v => Some (tipReference1 v ++ "," ++ tipReference2 v)
                   | None => None
                   end) vertexHashes) in
      Nat.leb (size tipSets) 1
    else true)
    (map_to_list (build_payloadMap vertices)).

(** Check 3: [vertex.depth <= (depths.get(tip) || 0)] rejects. *)
Definition depth_ordered (vertices : list DagVertex) : bool :=
  let depths := index_by depth vertices in
  let ok (v : DagVertex) (tip : string) :=
    String.eqb tip GENESIS_HASH || Z.ltb (default 0%Z (depths !! tip)) (depth v) in
  forallb (fun v => ok v (tipReference1 v) && ok v (tipReference2 v)) vertices.

(** Check 4, for one vertex: an anchored vertex must not be anchored before
    it was created, and a non-genesis parent whose [anchoredStatus] entry is
    [false] rejects (a parent missing from the map passes). *)
Definition anchoring_ok (anchoredStatus : gmap string bool) (v : DagVertex) : bool :=
  if anchored_true v then
    let time_ok :=
      match anchorTimestamp v, createdAt v with
      | Some anchorTime, Some createTime => negb (Z.ltb anchorTime createTime)
      | _, _ => true
      end in
    let parent_ok (tip : string) :=
      String.eqb tip GENESIS_HASH ||
      match anchoredStatus !! tip with Some false => false | _ => true end in
    time_ok && parent_ok (tipReference1 v) && parent_ok (tipReference2 v)
  else true.

Definition anchoring_rules (vertices : list DagVertex) : bool :=
  forallb (anchoring_ok (index_by anchored_true vertices)) vertices.

(** [DAGUtils.isValidDAG(vertices)] (full variant). The checks return
    [false] early in the source; as they have no other effect than logging,
    their conjunction gives the same answer. *)
Definition isValidDAG (vertices : list DagVertex) : option bool :=
  match vertices with
  | [] => Some true
  | _ =>
      match hasCycles vertices with
      | None => None
      | Some true => Some false
      | Some false =>
          Some (references_exist vertices && no_conflicts vertices &&
                depth_ordered vertices && anchoring_rules vertices)
      end
  end.

(** The parent-reference relation among listed vertices: [x] references
    [y] through a non-genesis reference. *)
Definition parent_edge (vs : list DagVertex) (x y : DagVertex) : Prop :=
  In x vs /\ In y vs /\ vertexHash y <> GENESIS_HASH /\
  (tipReference1 x = vertexHash y \/ tipReference2 x = vertexHash y).

(** Two vertices sharing the hash "x": the first references itself. *)
Definition vx1 : DagVertex := mkV "x" "x" GENESIS_HASH 1 1 None None.
Definition vx2 : DagVertex := mkV "x" GENESIS_HASH GENESIS_HASH 0 1 None None.
(** A vertex whose own hash is the genesis sentinel, referencing itself. *)
Definition vgen : DagVertex := mkV GENESIS_HASH GENESIS_HASH GENESIS_HASH 0 1 None None.
(** An anchored vertex "y" whose parent "p" is listed twice: unanchored
    first, anchored last. *)
Definition vp1 : DagVertex := mkV "p" GENESIS_HASH GENESIS_HASH 0 1 (Some "false") None.
Definition vp2 : DagVertex := mkV "p" GENESIS_HASH GENESIS_HASH 0 1 (Some "true") None.
Definition vy : DagVertex := mkV "y" "p" GENESIS_HASH 1 1 (Some "true") None.

(** The edges the [dfs] of [hasCycles] follows: from a hash in the map
    to each of its vertex's non-genesis references. *)
Definition dfs_edge (vm : gmap string DagVertex) (x y : string) : Prop :=
  exists v, vm !! x = Some v /\ y <> GENESIS_HASH /\
            (tipReference1 v = y \/ tipReference2 v = y).

(** The invariant of a [dfs] that has not found a cycle: the finished
    hashes (visited, off the stack) are closed under [dfs_edge] and none of
    them lies on a cycle. *)
Definition dfs_inv (vm : gmap string DagVertex) (visited stack : gset string) : Prop :=
  stack ⊆ visited /\
  (forall x y, x ∈ visited ∖ stack -> dfs_edge vm x y -> y ∈ visited ∖ stack) /\
  (forall x, x ∈ visited ∖ stack -> ~ tc (dfs_edge vm) x x).

(** A two-vertex cycle: "s" references "t", which references "s". *)
Definition vs1 : DagVertex := mkV "s" "t" GENESIS_HASH 2 1 None None.
Definition vt1 : DagVertex := mkV "t" "s" GENESIS_HASH 1 1 None None.

(* ------------------------------------------------------------------ *)
(** ** JSON serialisation and the vertex hashes *)

(** A JSON value; an object is its property list in the engine's
    enumeration order (keys pairwise distinct). Numbers are integers here:
    payload timestamps and the values of the examples. *)
Inductive json : Type :=
| JNull
| JBool (b : bool)
| JNum (n : Z)
| JStr (s : string)
| JArr (l : list json)
| JObj (kvs : list (string * json)).

Definition dq : ascii := ascii_of_nat 34.   (* the double quote *)
Definition bs : ascii := ascii_of_nat 92.   (* the backslash *)

Definition hex_digit (n : nat) : ascii :=
  ascii_of_nat (if (n <? 10)%nat then 48 + n else 87 + n)%nat.

(** [QuoteJSONString], one code unit: the quote and the backslash are
    escaped with a backslash, backspace, tab, line feed, form feed and
    carriage return by their short escapes, other control characters by
    [\u00xx]. *)
Definition quote_char (c : ascii) : string :=
  let n := nat_of_ascii c in
  if (n =? 34)%nat then String bs (String dq EmptyString)
  else if (n =? 92)%nat then String bs (String bs EmptyString)
  else if (n =? 8)%nat then String bs "b"
  else if (n =? 9)%nat then String bs "t"
  else if (n =? 10)%nat then String bs "n"
  else if (n =? 12)%nat then String bs "f"
  else if (n =? 13)%nat then String bs "r"
  else if (n <? 32)%nat then
    String bs (String "u" (String "0" (String "0"
      (String (hex_digit (n / 16)) (String (hex_digit (n mod 16)) EmptyString)))))
  else String c EmptyString.

Fixpoint quote_body (s : string) : string :=
  match s with
  | EmptyString => EmptyString
  | String c rest => quote_char c ++ quote_body rest
  end.

Definition quote (s : string) : string :=
  String dq (quote_body s ++ String dq EmptyString).

(** The value of the first property named [k]. *)
Definition prop_value {A} (k : string) (kvs : list (string * A)) : option A :=
  match List.find (fun kv => String.eqb kv.1 k) kvs with
  | Some kv => Some kv.2
  | None => None
  end.

(** The replacer array becomes the [PropertyList]: its items in order, a
    repeated item kept once. *)
Fixpoint dedup_strings (seen : list string) (ks : list string) : list string :=
  match ks with
  | [] => []
  | k :: rest =>
      if existsb (String.eqb k) seen then dedup_strings seen rest
      else k :: dedup_strings (seen ++ [k])%list rest
  end.

(** With a [PropertyList], an object's properties are those of the list, in
    the list's order, that the object has. *)
Definition select_props {A} (ks : list string) (kvs : list (string * A)) : list (string * A) :=
  omap (fun k => option_map (pair k) (prop_value k kvs)) ks.

(** [JSON.stringify(value, replacer)]: [keys = None] without a replacer,
    [Some ks] with the array replacer [ks], which applies to objects at
    every nesting level. *)
Fixpoint stringify (keys : option (list string)) (j : json) : string :=
  match j with
  | JNull => "null"
  | JBool b => if b then "true" else "false"
  | JNum n => pretty n
  | JStr s => quote s
  | JArr l => "[" ++ String.concat "," (map (stringify keys) l) ++ "]"
  | JObj kvs =>
      let strs := map (fun kv => (kv.1, stringify keys kv.2)) kvs in
      let props := match keys with
                   | None => strs
                   | Some ks => select_props (dedup_strings [] ks) strs
                   end in
      "{" ++ String.concat "," (map (fun kv => quote kv.1 ++ ":" ++ kv.2) props) ++ "}"
  end.

(** Induction on [json] through the lists of arrays and objects. *)
Fixpoint json_ind' (P : json -> Prop)
    (HNull : P JNull) (HBool : forall b, P (JBool b)) (HNum : forall n, P (JNum n))
    (HStr : forall s, P (JStr s))
    (HArr : forall l, Forall P l -> P (JArr l))
    (HObj : forall kvs, Forall (fun kv => P kv.2) kvs -> P (JObj kvs))
    (j : json) : P j :=
  let IH := json_ind' P HNull HBool HNum HStr HArr HObj in
  match j with
  | JNull => HNull
  | JBool b => HBool b
  | JNum n => HNum n
  | JStr s => HStr s
  | JArr l =>
      HArr l ((fix go l : Forall P l :=
                 match l return Forall P l with
                 | [] => List.Forall_nil _
                 | x :: rest => @List.Forall_cons _ P x rest (IH x) (go rest)
                 end) l)
  | JObj kvs =>
      HObj kvs ((fix go kvs : Forall (fun kv => P kv.2) kvs :=
                   match kvs return Forall (fun kv => P kv.2) kvs with
                   | [] => List.Forall_nil _
                   | kv :: rest => @List.Forall_cons _ (fun kv => P kv.2) kv rest (IH kv.2) (go rest)
                   end) kvs)
  end.

(** The claim's reading of a replacer array: every property whose name is
    not in [ks] dropped, at every nesting level, the rest in [ks]'s order. *)
Fixpoint prune (ks : list string) (j : json) : json :=
  match j with
  | JArr l => JArr (map (prune ks) l)
  | JObj kvs =>
      JObj (select_props (dedup_strings [] ks) (map (fun kv => (kv.1, prune ks kv.2)) kvs))
  | _ => j
  end.

(** [Array.prototype.sort] without a comparator on strings (ASCII here):
    insertion of each key in order. *)
Fixpoint insert_string (s : string) (l : list string) : list string :=
  match l with
  | [] => [s]
  | x :: rest => if String.leb s x then s :: l else x :: insert_string s rest
  end.

Definition sort_strings (l : list string) : list string :=
  fold_right insert_string [] l.

(** [VertexPayload]; as a JS object its properties are [type], [data] and
    [timestamp], in the order of the builder's object literal. *)
Record VertexPayload := mkPayload {
  type : string;
  data : json;
  timestamp : Z;
}.

Definition payload_props (p : VertexPayload) : list (string * json) :=
  [("type", JStr (type p)); ("data", data p); ("timestamp", JNum (timestamp p))].

Section Hashes.
Variable digest : string -> string.   (* SHA-256, hex *)

(** [DAGUtils.calculatePayloadHash(payload)] (both variants):
    [JSON.stringify(payload, Object.keys(payload).sort())] digested. *)
Definition calculatePayloadHash (payload : VertexPayload) : string :=
  let canonical := stringify (Some (sort_strings (map fst (payload_props payload))))
                             (JObj (payload_props payload)) in
  digest canonical.

(** [DAGUtils.calculateVertexHash(vertex)]. *)
Definition calculateVertexHash (tipReference1 tipReference2 payloadHash nodeId : string)
    (ts : Z) : string :=
  digest (stringify None
    (JObj [("tip1", JStr tipReference1); ("tip2", JStr tipReference2);
           ("payload", JStr payloadHash); ("node", JStr nodeId); ("ts", JNum ts)])).
End Hashes.

(** The row [VertexBuilder.build] returns (schema's [InsertDagVertex]). *)
Module InsertDagVertex.
Record t := mk {
  vertexHash : string;
  nodeId : string;
  tipReference1 : string;
  tipReference2 : string;
  depth : Z;
  payloadType : string;
  payloadHash : string;
  payloadData : string;
  engagementProof : string;
  signature : string;
}.
End InsertDagVertex.

Module VertexBuilder.
Record t := mk {
  nodeId : string;
  payload : VertexPayload;
  tips : option TipSelection.t;
}.

Section Build.
Variable hashData : string -> string.   (* crypto.hashData: SHA-256 hex *)
Variable sha256 : string -> string.     (* createHash('sha256') hex *)
(* DAGUtils.generateEngagementProof(nodeId, eventType, timestamp, nonce) *)
Variable generateEngagementProof : string -> string -> Z -> string -> string.
Variable signVertex : string -> string.  (* DAGUtils.signVertex with the key *)

(** [VertexBuilder.build(privateKey, publicKeyHex)] (async variant);
    [nonce] is the value of [generateNonce()]. Missing tips throw
    ([None]). *)
Definition build (b : t) (nonce : string) : option InsertDagVertex.t :=
  match tips b with
  | None => None
  | Some tips =>
      let payloadHash := calculatePayloadHash hashData (payload b) in
      let vertexHash :=
        calculateVertexHash sha256 (TipSelection.tip1Hash tips)
          (TipSelection.tip2Hash tips) payloadHash (nodeId b)
          (timestamp (payload b)) in
      let eventType :=
        if String.eqb (type (payload b)) "message" then "message" else "verify" in
      let engagementProof :=
        generateEngagementProof (nodeId b) eventType (timestamp (payload b)) nonce in
      let signature := signVertex vertexHash in
      Some (InsertDagVertex.mk vertexHash (nodeId b) (TipSelection.tip1Hash tips)
              (TipSelection.tip2Hash tips) (TipSelection.depth tips)
              (type (payload b)) payloadHash
              (stringify None (JObj (payload_props (payload b))))
              engagementProof signature)
  end.
End Build.
End VertexBuilder.

(** The keys [Object.keys(payload).sort()] gives for a [VertexPayload]. *)
Definition payload_keys : list string := ["data"; "timestamp"; "type"].

(** Two message payloads of the same time: empty data, and [{foo: 1}]. *)
Definition p_empty : VertexPayload := mkPayload "message" (JObj []) 1700000000000.
Definition p_foo : VertexPayload := mkPayload "message" (JObj [("foo", JNum 1)]) 1700000000000.

(* ------------------------------------------------------------------ *)
(** ** The wavelength text format (shared/constants.ts and the two
    wavelength codecs at the top of shared/messageEncoding.ts) *)

(** A JS string here holds code points U+0000..U+00FF, one [ascii] each. *)
Definition chr (n : nat) : string := String (ascii_of_nat n) EmptyString.

(** [SPECTRUM_MAP] (constants.ts): letter -> colour. *)
Definition SPECTRUM_MAP : list (string * string) :=
  [("A", "#8B00FF"); ("B", "#7B00FF"); ("C", "#6B00FF"); ("D", "#0050FF");
   ("E", "#0066FF"); ("F", "#007BFF"); ("G", "#0099FF"); ("H", "#00B7FF");
   ("I", "#00D4FF"); ("J", "#00F0FF"); ("K", "#00FF66"); ("L", "#66FF00");
   ("M", "#99FF00"); ("N", "#CCFF00"); ("O", "#FFFF00"); ("P", "#FFD200");
   ("Q", "#FFAA00"); ("R", "#FF6600"); ("S", "#FF0000"); ("T", "#E00000");
   ("U", "#C00020"); ("V", "#A00040"); ("W", "#800060"); ("X", "#660080");
   ("Y", "#55008C"); ("Z", "#440099")].

Definition VISIBLE_MIN_NM : Z := 380.
Definition VISIBLE_MAX_NM : Z := 740.

(** [LETTERS = Object.keys(SPECTRUM_MAP).sort()]. *)
Definition LETTERS : list string := sort_strings (map fst SPECTRUM_MAP).

(** [STEP_NM = (VISIBLE_MAX_NM - VISIBLE_MIN_NM) / (LETTERS.length - 1)]. *)
Definition STEP_NM : Q :=
  (inject_Z (VISIBLE_MAX_NM - VISIBLE_MIN_NM) / inject_Z (Z.of_nat (length LETTERS) - 1))%Q.

(** [Math.round] (half up). The products [STEP_NM * idx] are computed
    exactly here; their fractional parts are multiples of 0.2, far from
    0.5, so the double rounding of the source gives the same integers. *)
Definition js_round (q : Q) : Z := Qfloor (q + (1 # 2))%Q.

(** The entries [LETTERS.forEach((ch, idx) => map[ch] = ...)] writes, in
    order. *)
Definition LETTER_WAVELENGTH_entries : list (string * Z) :=
  imap (fun idx ch =>
          (ch, js_round (inject_Z VISIBLE_MIN_NM + STEP_NM * inject_Z (Z.of_nat idx))%Q))
       LETTERS.

(** An object filled by [map[k] = v] over [entries]: the last write wins. *)
Definition record_of {K V} `{Countable K} (entries : list (K * V)) : gmap K V :=
  fold_left (fun m kv => <[kv.1 := kv.2]> m) entries ∅.

(** [LETTER_WAVELENGTH] (constants.ts). *)
Definition LETTER_WAVELENGTH : gmap string Z := record_of LETTER_WAVELENGTH_entries.

(** [EXTENDED_CHAR_WAVELENGTH], in the literal's order (which is also
    [Object.entries]'s: the digit keys come first in both). *)
Definition EXTENDED_CHAR_WAVELENGTH_entries : list (string * Z) :=
  [("0", 750); ("1", 755); ("2", 760); ("3", 765); ("4", 770);
   ("5", 775); ("6", 780); ("7", 785); ("8", 790); ("9", 795);
   (".", 800); (",", 805); ("!", 810); ("?", 815); ("-", 820);
   (":", 825); (";", 830); ("'", 835); (chr 34, 840); ("(", 845);
   (")", 850); ("@", 855); ("#", 860); ("$", 865); ("%", 870);
   ("&", 875); ("*", 880); ("+", 885); ("=", 890); ("/", 895)]%Z.

Definition EXTENDED_CHAR_WAVELENGTH : gmap string Z :=
  record_of EXTENDED_CHAR_WAVELENGTH_entries.

(** [WAVELENGTH_TO_CHAR]: the letters' entries, then the extended ones. *)
Definition WAVELENGTH_TO_CHAR : gmap Z string :=
  fold_left (fun m kv => <[kv.2 := kv.1]> m)
    (LETTER_WAVELENGTH_entries ++ EXTENDED_CHAR_WAVELENGTH_entries)%list ∅.

(** [String.prototype.toUpperCase] on one code point of U+0000..U+00FF:
    a-z and the Latin-1 lower-case letters map 32 down, [ß] becomes
    [SS]. The upper cases of [µ] and [ÿ] lie above U+00FF; as neither is a
    key of any table, a separator or a letter A-Z, the character itself
    stands in for it. *)
Definition to_upper_char (c : ascii) : string :=
  let n := nat_of_ascii c in
  if ((97 <=? n) && (n <=? 122))%nat then chr (n - 32)
  else if (n =? 223)%nat then "SS"
  else if ((224 <=? n) && (n <=? 254) && negb (n =? 247))%nat then chr (n - 32)
  else String c EmptyString.

Fixpoint toUpperCase (s : string) : string :=
  match s with
  | EmptyString => EmptyString
  | String c rest => to_upper_char c ++ toUpperCase rest
  end.

(** JS white space and line terminators in U+0000..U+00FF: what [trim]
    removes and what the regex class [\s] matches. *)
Definition is_js_space (c : ascii) : bool :=
  let n := nat_of_ascii c in
  ((9 <=? n) && (n <=? 13) || (n =? 32) || (n =? 160))%nat.

Fixpoint drop_spaces (l : list ascii) : list ascii :=
  match l with
  | [] => []
  | c :: rest => if is_js_space c then drop_spaces rest else l
  end.

(** [String.prototype.trim]. *)
Definition trim (s : string) : string :=
  String.string_of_list_ascii (rev (drop_spaces (rev (drop_spaces (String.list_ascii_of_string s))))).

(** [!text || text.trim() === '']. *)
Definition blank (s : string) : bool := String.eqb s "" || String.eqb (trim s) "".

Definition TAB : ascii := ascii_of_nat 9.
Definition SPACE : ascii := ascii_of_nat 32.
Definition WORD_SEPARATOR : string := String TAB EmptyString.
Definition WAVELENGTH_SEPARATOR : string := String SPACE EmptyString.

(** [char === ' ' || char === '\t' || char === '\n']. *)
Definition is_word_break (c : ascii) : bool :=
  let n := nat_of_ascii c in ((n =? 32) || (n =? 9) || (n =? 10))%nat.

(** [currentWord.join(WAVELENGTH_SEPARATOR)] on numbers. *)
Definition join_numbers (ns : list Z) : string :=
  String.concat WAVELENGTH_SEPARATOR (map pretty ns).

(** [LETTER_WAVELENGTH[char.toUpperCase()]], else
    [EXTENDED_CHAR_WAVELENGTH[char]]. *)
Definition char_wavelength (c : ascii) : option Z :=
  match LETTER_WAVELENGTH !! to_upper_char c with
  | Some w => Some w
  | None => EXTENDED_CHAR_WAVELENGTH !! String c EmptyString
  end.

(** One iteration of the loop of [textToWavelengthFormat]: the words so
    far and [currentWord]. *)
Definition encode_step (st : list string * list Z) (c : ascii) : list string * list Z :=
  let '(words, currentWord) := st in
  if is_word_break c then
    match currentWord with
    | [] => (words, currentWord)
    | _ => ((words ++ [join_numbers currentWord])%list, [])
    end
  else
    match char_wavelength c with
    | Some w => (words, (currentWord ++ [w])%list)
    | None => (words, currentWord)
    end.

(** [if (currentWord.length > 0) words.push(currentWord.join(...))]. *)
Definition flush_word (st : list string * list Z) : list string :=
  let '(words, currentWord) := st in
  match currentWord with
  | [] => words
  | _ => (words ++ [join_numbers currentWord])%list
  end.

(** [textToWavelengthFormat(text)] (extended codec; its [upperText] is
    unused). *)
Definition textToWavelengthFormat (text : string) : string :=
  if blank text then ""
  else String.concat WORD_SEPARATOR
         (flush_word (fold_left encode_step (String.list_ascii_of_string text) ([], []))).

(** [String.prototype.split] with a one-character separator. *)
Fixpoint split_on (sep : ascii) (s : string) : list string :=
  match s with
  | EmptyString => [EmptyString]
  | String c rest =>
      if Ascii.eqb c sep then EmptyString :: split_on sep rest
      else match split_on sep rest with
           | w :: ws => String c w :: ws
           | [] => [String c EmptyString]
           end
  end.

(** The value of a digit in radix [radix] (2..36). *)
Definition digit_of (radix : Z) (c : ascii) : option Z :=
  let n := Z.of_nat (nat_of_ascii c) in
  let d := if ((48 <=? n) && (n <=? 57))%Z then Some (n - 48)%Z
           else if ((97 <=? n) && (n <=? 122))%Z then Some (n - 87)%Z
           else if ((65 <=? n) && (n <=? 90))%Z then Some (n - 55)%Z
           else None in
  match d with Some v => if (v <? radix)%Z then Some v else None | None => None end.

Fixpoint read_digits (radix : Z) (l : list ascii) (acc : option Z) : option Z :=
  match l with
  | [] => acc
  | c :: rest =>
      match digit_of radix c with
      | Some d => read_digits radix rest (Some (default 0 acc * radix + d)%Z)
      | None => acc
      end
  end.

(** [parseInt(s, radix)]: leading white space skipped, an optional sign,
    for radix 16 an optional [0x]/[0X], then the longest run of digits;
    [None] is NaN. The value is exact (a digit run long enough to be
    rounded as a double is far from every key looked up with it). *)
Definition parseInt (s : string) (radix : Z) : option Z :=
  let l := drop_spaces (String.list_ascii_of_string s) in
  let '(sign, l) :=
    match l with
    | c :: rest =>
        if (nat_of_ascii c =? 45)%nat then ((-1)%Z, rest)
        else if (nat_of_ascii c =? 43)%nat then (1%Z, rest)
        else (1%Z, l)
    | [] => (1%Z, l)
    end in
  let l :=
    if Z.eqb radix 16 then
      match l with
      | c0 :: cx :: rest =>
          if (nat_of_ascii c0 =? 48)%nat &&
             ((nat_of_ascii cx =? 120) || (nat_of_ascii cx =? 88))%nat
          then rest else l
      | _ => l
      end
    else l in
  option_map (Z.mul sign) (read_digits radix l None).

(** The placeholder of the extended decoder: the three code points
    U+00EF U+00BF U+00BD of its literal. *)
Definition PLACEHOLDER : string :=
  String (ascii_of_nat 239) (String (ascii_of_nat 191) (String (ascii_of_nat 189) EmptyString)).

(** The decoding of one word: each space-separated number that parses is
    looked up in [table]; a missing (or empty) entry gives [unknown]. *)
Definition decode_word (table : gmap Z string) (unknown : string) (word : string) : string :=
  let wavelengths := map (fun w => parseInt (trim w) 10) (split_on SPACE word) in
  String.concat ""
    (omap (fun wl =>
             match wl with
             | None => None
             | Some wl =>
                 match table !! wl with
                 | Some ch => if String.eqb ch "" then Some unknown else Some ch
                 | None => Some unknown
                 end
             end) wavelengths).

Definition decode_text (table : gmap Z string) (unknown : string) (encoded : string) : string :=
  if blank encoded then ""
  else String.concat " "
         (omap (fun word => if String.eqb (trim word) "" then None
                            else Some (decode_word table unknown word))
               (split_on TAB encoded)).

(** [wavelengthFormatToText(encoded)] (extended codec). *)
Definition wavelengthFormatToText (encoded : string) : string :=
  decode_text WAVELENGTH_TO_CHAR PLACEHOLDER encoded.

(** [isWavelengthFormat(text)] (both codecs): not blank, and
    [/^[\d\s\t]+$/]. *)
Definition isWavelengthFormat (text : string) : bool :=
  if blank text then false
  else forallb (fun c => match digit_of 10 c with Some _ => true | None => false end || is_js_space c)
               (String.list_ascii_of_string text).

(** [textToWavelengthFormat(text)] (letters-only codec): the loop runs
    over [text.toUpperCase()] and keeps the characters matching [/[A-Z]/]. *)
Definition is_upper_AZ (c : ascii) : bool :=
  let n := nat_of_ascii c in ((65 <=? n) && (n <=? 90))%nat.

Definition encode_step_simple (st : list string * list Z) (c : ascii) : list string * list Z :=
  let '(words, currentWord) := st in
  if is_word_break c then
    match currentWord with
    | [] => (words, currentWord)
    | _ => ((words ++ [join_numbers currentWord])%list, [])
    end
  else if is_upper_AZ c then
    match LETTER_WAVELENGTH !! String c EmptyString with
    | Some w => (words, (currentWord ++ [w])%list)
    | None => (words, currentWord)
    end
  else (words, currentWord).

Definition textToWavelengthFormat_simple (text : string) : string :=
  let upperText := toUpperCase text in
  String.concat WORD_SEPARATOR
    (flush_word (fold_left encode_step_simple (String.list_ascii_of_string upperText) ([], []))).

(** [wavelengthToLetter] of the letters-only decoder, and the decoder. *)
Definition wavelengthToLetter : gmap Z string :=
  fold_left (fun m kv => <[kv.2 := kv.1]> m) LETTER_WAVELENGTH_entries ∅.

Definition wavelengthFormatToText_simple (encoded : string) : string :=
  decode_text wavelengthToLetter "?" encoded.

(* ---------------------- more of the code --------------------------- *)

Definition wl_check (c : ascii) : bool :=
  match char_wavelength c with
  | None => true
  | Some w =>
      negb (is_word_break c) && negb (is_js_space c) &&
      bool_decide (WAVELENGTH_TO_CHAR !! w = Some (to_upper_char c)) &&
      negb (String.eqb (to_upper_char c) "") &&
      bool_decide (parseInt (trim (pretty w)) 10 = Some w) &&
      negb (String.eqb (pretty w) "") &&
      forallb (fun ch => match digit_of 10 ch with Some _ => true | None => false end &&
                         negb (is_js_space ch)) (String.list_ascii_of_string (pretty w))
  end.

Definition digits_only (s : string) : Prop :=
  Forall (fun ch => is_Some (digit_of 10 ch) /\ is_js_space ch = false) (String.list_ascii_of_string s).

(** Words a codec with character table [wl] can encode, and the encoding
    of one word. *)
Definition fits (wl : ascii -> option Z) (w : string) : Prop :=
  w <> "" /\ forall c, In c (String.list_ascii_of_string w) -> wl c <> None.

Definition enc_word (wl : ascii -> option Z) (w : string) : string :=
  join_numbers (omap wl (String.list_ascii_of_string w)).

Definition values_P (P : DagVertex -> Prop) (m : gmap string (list DagVertex)) : Prop :=
  forall h l x, m !! h = Some l -> In x l -> P x.

Definition numeral_ok (n : Z) : Prop := pretty n <> "" /\ digits_only (pretty n).

Definition encoded_word_ok (x : string) : Prop :=
  exists n ns, numeral_ok n /\ Forall numeral_ok ns /\ x = join_numbers (n :: ns).

(** What one step of either encoder does to its state: nothing, push a
    numeral onto the current word, or close a non-empty current word. *)
Definition step_shape (step : list string * list Z -> ascii -> list string * list Z) : Prop :=
  forall words cur c,
    step (words, cur) c = (words, cur) \/
    (exists n, numeral_ok n /\ step (words, cur) c = (words, (cur ++ [n])%list)) \/
    (cur <> [] /\ step (words, cur) c = ((words ++ [join_numbers cur])%list, [])).

(* hex *)
Definition radix_digit_char (d : Z) : ascii :=
  if (d <? 10)%Z then ascii_of_nat (Z.to_nat (48 + d)) else ascii_of_nat (Z.to_nat (87 + d)).

Fixpoint radix_digits (fuel : nat) (radix n : Z) (acc : string) : string :=
  match fuel with
  | O => acc
  | S fuel =>
      let acc := String (radix_digit_char (n mod radix)) acc in
      if (n <? radix)%Z then acc else radix_digits fuel radix (n / radix) acc
  end.

Definition number_toString (n radix : Z) : string :=
  radix_digits (S (Z.to_nat (Z.log2 n))) radix n "".

Definition padStart (len : nat) (fill : ascii) (s : string) : string :=
  (String.string_of_list_ascii (repeat fill (len - String.length s)) ++ s)%string.

Definition bufferToHex (bytes : list Z) : string :=
  String.concat "" (map (fun b => padStart 2 "0" (number_toString b 16)) bytes).

Definition ToUint8 (x : option Z) : Z :=
  match x with None => 0 | Some v => v mod 256 end.

Fixpoint hex_fill (l : list ascii) (i : nat) (bytes : list Z) : list Z :=
  match l with
  | [] => bytes
  | _ :: rest =>
      let bytes := <[i := ToUint8 (parseInt (String.string_of_list_ascii (take 2 l)) 16)]> bytes in
      match rest with
      | [] => bytes
      | _ :: rest => hex_fill rest (S i) bytes
      end
  end.

Definition hexToBuffer (hex : string) : list Z :=
  hex_fill (String.list_ascii_of_string hex) 0 (repeat 0%Z (String.length hex / 2)).

(** [generateNonce()]: [buffer] is the [Uint8Array(16)] as filled by
    [crypto.getRandomValues]. *)
Definition generateNonce (buffer : list Z) : string := bufferToHex buffer.

Definition is_lower_hex (c : ascii) : bool :=
  let n := nat_of_ascii c in ((48 <=? n) && (n <=? 57) || (97 <=? n) && (n <=? 102))%nat.

Definition byte_hex_check (b : Z) : bool :=
  match String.list_ascii_of_string (padStart 2 "0" (number_toString b 16)) with
  | [c1; c2] => bool_decide (parseInt (String c1 (String c2 "")) 16 = Some b) &&
                is_lower_hex c1 && is_lower_hex c2
  | _ => false
  end.

Section KeyedStore.
Context {A : Type} (key : A -> string).

Fixpoint kput (v : A) (store : list A) : list A :=
  match store with
  | [] => [v]
  | x :: r =>
      match String.compare (key v) (key x) with
      | Eq => v :: r
      | Lt => v :: x :: r
      | Gt => x :: kput v r
      end
  end.

Definition kget (k : string) (store : list A) : option A :=
  List.find (fun x => String.eqb (key x) k) store.

Definition kok (store : list A) : Prop :=
  StronglySorted (fun a b => String.compare a b = Lt) (map key store).

End KeyedStore.

Module CheckpointRecord.
Record t := mk { id : string; timestamp : Z; vertexHashes : list string; serverSynced : bool }.
End CheckpointRecord.

Module DAGStorage.

Definition addVertex (vertex : DagVertex) (store : list DagVertex) : list DagVertex :=
  store_put vertex store.

Definition getVertex (vertexHash' : string) (store : list DagVertex) : option DagVertex :=
  kget vertexHash vertexHash' store.

Definition created_time (v : DagVertex) : Z :=
  match createdAt v with Some c => c | None => 0%Z end.

Definition slice0 {A} (l : list A) (e : Z) : list A :=
  if (e <? 0)%Z then take (Z.to_nat (Z.of_nat (length l) + e)) l else take (Z.to_nat e) l.

Definition byCreatedAt_getAll (store : list DagVertex) : list DagVertex :=
  sort_desc_by (fun v => - created_time v)%Z (filter (fun v => is_Some (createdAt v)) store).

Definition getRecentVertices (store : list DagVertex) (limit : Z) : list DagVertex :=
  slice0 (sort_desc_by created_time (byCreatedAt_getAll store)) limit.

Definition getTips (store : list DagVertex) (count : Z) : list DagVertex :=
  let recent := getRecentVertices store 100 in
  let unanchored := filter (fun v => is_unanchored v = true) recent in
  slice0 (sort_desc_by cumulativeWeight unanchored) count.

Definition getVerticesByNode (store : list DagVertex) (nodeId' : string) (limit : Z) : list DagVertex :=
  slice0 (sort_desc_by created_time (filter (fun v => nodeId v = nodeId') store)) limit.

Definition store_delete (h : string) (store : list DagVertex) : list DagVertex :=
  filter (fun x => vertexHash x <> h) store.

Definition pruneOldVertices (now maxAgeMs : Z) (store : list DagVertex) : Z * list DagVertex :=
  let allVertices := store in
  let pruned := pruneOldVertices now allVertices maxAgeMs in
  let toDelete :=
    filter (fun v => negb (existsb (fun p => String.eqb (vertexHash p) (vertexHash v)) pruned) = true)
      allVertices in
  match toDelete with
  | [] => (0%Z, store)
  | _ => (Z.of_nat (length toDelete),
          fold_left (fun s v => store_delete (vertexHash v) s) toDelete store)
  end.

Definition createCheckpoint (now1 now2 : Z) (suffix : string) (vertexHashes : list string)
    (checkpoints : list CheckpointRecord.t) : string * list CheckpointRecord.t :=
  let checkpoint :=
    CheckpointRecord.mk ("checkpoint-" ++ pretty now1 ++ "-" ++ suffix) now2 vertexHashes false in
  (CheckpointRecord.id checkpoint, kput CheckpointRecord.id checkpoint checkpoints).

Definition getUnsyncedCheckpoints (checkpoints : list CheckpointRecord.t) : list CheckpointRecord.t :=
  filter (fun c => CheckpointRecord.serverSynced c = false) checkpoints.

Definition markCheckpointSynced (checkpointId : string) (checkpoints : list CheckpointRecord.t)
    : list CheckpointRecord.t :=
  match kget CheckpointRecord.id checkpointId checkpoints with
  | None => checkpoints
  | Some c =>
      kput CheckpointRecord.id
        (CheckpointRecord.mk (CheckpointRecord.id c) (CheckpointRecord.timestamp c)
           (CheckpointRecord.vertexHashes c) true) checkpoints
  end.

(** [selectTips()]: [DAGUtils.selectTips] (simplified variant, no seed)
    over the 50 most recent stored vertices. *)
Definition selectTips (ext : nat -> Q) (store : list DagVertex) (pos : nat)
    : option (TipSelection.t * nat) :=
  selectTips_simple ext (getRecentVertices store 50) None pos.

(** [Math.max(...xs)] and [Math.min(...xs)] on a non-empty array. *)
Definition js_max (x : Z) (xs : list Z) : Z := fold_left Z.max xs x.
Definition js_min (x : Z) (xs : list Z) : Z := fold_left Z.min xs x.

Record Stats := mkStats {
  totalVertices : nat;
  anchoredVertices : nat;
  maxDepth : Z;
  oldestVertex : option Z;
  newestVertex : option Z
}.

(** [getStats()] over [getAllVertices()]; a [Date] is its time value. *)
Definition getStats (allVertices : list DagVertex) : Stats :=
  let anchored := length (filter (fun v => anchored_true v = true) allVertices) in
  let maxDepth :=
    match map depth allVertices with [] => 0%Z | d :: ds => js_max d ds end in
  let timestamps := filter (fun t => (t > 0)%Z) (map created_time allVertices) in
  mkStats (length allVertices) anchored maxDepth
    (match timestamps with [] => None | t :: ts => Some (js_min t ts) end)
    (match timestamps with [] => None | t :: ts => Some (js_max t ts) end).

End DAGStorage.

(** Sample store for [DAGStorage.selectTips]: two unanchored vertices with
    a creation time and the anchored [va] without one. *)
Definition sb : DagVertex := mkV "b" GENESIS_HASH GENESIS_HASH 0 1 (Some "false") (Some 10%Z).
Definition sc : DagVertex := mkV "c" GENESIS_HASH GENESIS_HASH 0 1 (Some "false") (Some 20%Z).

Definition strip_weight (v : DagVertex) : DagVertex := set_cumulativeWeight v 0.

Definition cp1 : CheckpointRecord.t := CheckpointRecord.mk "checkpoint-1-a" 1 ["a"] false.
Definition cp2 : CheckpointRecord.t := CheckpointRecord.mk "checkpoint-2-b" 2 ["b"] true.
Definition cp3 : CheckpointRecord.t := CheckpointRecord.mk "checkpoint-3-c" 3 ["c"] false.

(** [DAGUtils.isValidDAG(vertices)] (simplified variant): the reference
    check and the depth check, in this order, each returning false early. *)
Definition isValidDAG_simple (vertices : list DagVertex) : bool :=
  match vertices with
  | [] => true
  | _ => references_exist vertices && depth_ordered vertices
  end.

(** The tracker as a caller drives it: [hasSeenNonce] calls interleaved
    with runs of the cleanup timer, each at its own [Date.now()]. *)
Inductive nonce_event :=
| CheckNonce (now : Z) (nonce : string) (timestamp : Z)
| CleanupAt (now : Z).

Definition event_time (e : nonce_event) : Z :=
  match e with CheckNonce now _ _ => now | CleanupAt now => now end.

(** The log of the [hasSeenNonce] calls: nonce, timestamp and answer. *)
Fixpoint run_tracker (tr : NonceTracker) (evs : list nonce_event) : list (string * Z * bool) :=
  match evs with
  | [] => []
  | CheckNonce now n t :: r =>
      let '(b, tr') := hasSeenNonce now tr n t in (n, t, b) :: run_tracker tr' r
  | CleanupAt now :: r => run_tracker (cleanup now tr) r
  end.

(** The (nonce, timestamp) pairs the tracker accepted ([false]), in order. *)
Definition accepted_pairs (log : list (string * Z * bool)) : list (string * Z) :=
  omap (fun x : string * Z * bool => if x.2 then None else Some x.1) log.

Definition seen_or_expired (tr : NonceTracker) (L : Z) (p : string * Z) : Prop :=
  seenNonces tr !! p.1 = Some p.2 \/ (p.2 < L - maxAge tr)%Z.

Definition replay_trace : list nonce_event :=
  [CheckNonce 0 "n" 0; CheckNonce 1000 "n" 0; CleanupAt 400000; CheckNonce 400000 "n" 0].

(** The wavelength the letters-only encoder pushes for a character of the
    upper-cased text. *)
Definition letter_wl (c : ascii) : option Z :=
  if is_upper_AZ c then LETTER_WAVELENGTH !! String c EmptyString else None.

Definition letter_check (c : ascii) : bool :=
  negb (String.eqb (to_upper_char c) "") &&
  (negb (is_upper_AZ c) || bool_decide (is_Some (letter_wl c))) &&
  match letter_wl c with
  | None => true
  | Some w =>
      negb (is_word_break c) && negb (is_js_space c) &&
      bool_decide (wavelengthToLetter !! w = Some (String c EmptyString)) &&
      bool_decide (parseInt (trim (pretty w)) 10 = Some w) &&
      negb (String.eqb (pretty w) "") &&
      forallb (fun ch => match digit_of 10 ch with Some _ => true | None => false end &&
                         negb (is_js_space ch)) (String.list_ascii_of_string (pretty w))
  end.

Definition wz : DagVertex := set_cumulativeWeight wb 0.

(* ================================================================== *)
(** * Theorems *)
(* ================================================================== *)

(* ---------------------------- selectTips -------------------------- *)

(** C1 (counterexample): with one anchored vertex and no unanchored one,
    [selectTips] does not return the genesis pair: it returns the last
    vertex of the list. *)
Lemma selectTips_all_anchored_not_genesis :
  filter (fun v => is_unanchored v = true) [va] = [] /\
  ~ (forall exp ext pos,
       selectTips exp ext [va] None pos = Some (genesis_selection, pos)).
Proof.
  split; [reflexivity |].
  intros H. specialize (H (fun q => q) (fun _ => 0%Q) O).
  vm_compute in H. discriminate H.
Qed.

(** C1 (amended): degenerate cases of both variants of [selectTips].
    With U the unanchored vertices of V: if V is empty both tips are the
    genesis sentinel and the depth is 0; if V is non-empty and U empty
    both tips are the LAST vertex of V and the depth is its depth + 1; if
    U has exactly one element both tips are that vertex and the depth is
    its depth + 1.  No randomness is consumed in these cases. *)
Theorem selectTips_degenerate_cases exp ext (V : list DagVertex) seed pos :
  let U := filter (fun v => is_unanchored v = true) V in
  match V, U with
  | [], _ =>
      selectTips exp ext V seed pos = Some (genesis_selection, pos) /\
      selectTips_simple ext V seed pos = Some (genesis_selection, pos)
  | v0 :: _, [] =>
      let l := List.last V v0 in
      selectTips exp ext V seed pos =
        Some (TipSelection.mk (vertexHash l) (vertexHash l) (depth l + 1), pos) /\
      selectTips_simple ext V seed pos =
        Some (TipSelection.mk (vertexHash l) (vertexHash l) (depth l + 1), pos)
  | _, [u] =>
      selectTips exp ext V seed pos =
        Some (TipSelection.mk (vertexHash u) (vertexHash u) (depth u + 1), pos) /\
      selectTips_simple ext V seed pos =
        Some (TipSelection.mk (vertexHash u) (vertexHash u) (depth u + 1), pos)
  | _, _ => True
  end.
Proof.
  cbv zeta. destruct V as [| v0 V']; [split; reflexivity |].
  unfold selectTips, selectTips_simple.
  destruct (filter _ (v0 :: V')) as [| u [| u2 r]] eqn:HU.
  - split; reflexivity.
  - split; reflexivity.
  - exact I.
Qed.

(** A walk driven by a seeded generator never reads [Math.random]: its
    outcome does not depend on the stream nor on the stream position,
    which it leaves unchanged. *)
Lemma walk_loop_seeded exp ext1 ext2 vm ap fuel steps cur st pos1 pos2 :
  walk_loop exp ext1 vm ap fuel steps cur (SeededRng st) pos1 =
  option_map (fun r => (r.1, pos1))
    (walk_loop exp ext2 vm ap fuel steps cur (SeededRng st) pos2).
Proof.
  revert steps cur st.
  induction fuel as [| fuel IH]; intros steps cur st; [reflexivity |].
  cbn [walk_loop rng_next].
  destruct (filter _ _) as [| a0 r]; [reflexivity |].
  destruct (Qeq_bool _ 0).
  - destruct (js_index _ _); [apply IH | reflexivity].
  - apply IH.
Qed.

Lemma performRandomWalk_seeded exp ext1 ext2 vs vm ap st pos1 pos2 :
  performRandomWalk exp ext1 vs vm ap (SeededRng st) pos1 =
  option_map (fun r => (r.1, pos1))
    (performRandomWalk exp ext2 vs vm ap (SeededRng st) pos2).
Proof.
  unfold performRandomWalk. cbn [rng_next].
  destruct (js_index _ _); [apply walk_loop_seeded | reflexivity].
Qed.

(** X24: With a truthy (non-zero) seed, [selectTips] is a function of the
    vertex list and the seed alone. *)
Lemma selectTips_truthy_seed_deterministic exp ext1 ext2 V s pos1 pos2 :
  truthy s = true ->
  option_map fst (selectTips exp ext1 V (Some s) pos1) =
  option_map fst (selectTips exp ext2 V (Some s) pos2).
Proof.
  intros Hs. unfold selectTips, second_seed, rng_of. rewrite Hs.
  destruct V as [| v0 V']; [reflexivity |].
  destruct (filter _ (v0 :: V')) as [| u [| u2 r]]; [reflexivity | reflexivity |].
  rewrite (performRandomWalk_seeded exp ext1 ext2 _ _ _ s pos1 pos2).
  destruct (performRandomWalk exp ext2 _ _ _ (SeededRng s) pos2)
    as [[[t1 n1] p1] |]; [| reflexivity].
  cbn [option_map fst].
  rewrite (performRandomWalk_seeded exp ext1 ext2 _ _ _ _ pos1 p1).
  destruct (performRandomWalk exp ext2 _ _ _ _ p1) as [[[t2 n2] p2] |];
    reflexivity.
Qed.

Lemma selectTips_truthy_seed_deterministic_witness :
  truthy (1 # 4) = true /\
  option_map fst (selectTips (fun _ => 1%Q) (fun _ => 0%Q) [vb; vc] (Some (1 # 4)%Q) 0) =
  option_map fst (selectTips (fun _ => 1%Q) (fun _ => (1 # 2)%Q) [vb; vc] (Some (1 # 4)%Q) 3).
Proof.
  assert (H : truthy (1 # 4) = true) by reflexivity.
  split; [exact H|]. exact (selectTips_truthy_seed_deterministic _ _ _ _ _ _ _ H).
Defined.

(** C3 (code_bug): with the seed 0, the second walk falls back to
    [Math.random] ([randomSeed ? randomSeed * 1.618 : undefined] treats 0
    as absent), so two consecutive calls [selectTips([vb, vc], 0)] return
    different [tip2Hash] values, whatever [Math.exp] is. *)
Theorem selectTips_seed_zero_two_calls_differ exp :
  match selectTips exp ext_quarters [vb; vc] (Some 0%Q) O with
  | Some (s1, p1) =>
      match selectTips exp ext_quarters [vb; vc] (Some 0%Q) p1 with
      | Some (s2, _) =>
          TipSelection.tip2Hash s1 = "c" /\ TipSelection.tip2Hash s2 = "b"
      | None => False
      end
  | None => False
  end.
Proof. vm_compute. split; reflexivity. Qed.

(** C10 (code_bug): with the seed -10 the seeded generator yields a
    negative number ([%] keeps the dividend's sign), the entry index falls
    past the end of the array and [current.vertexHash] throws: selectTips
    returns no [TipSelection]. *)
Theorem selectTips_negative_seed_throws exp ext pos :
  selectTips exp ext [vb; vc] (Some (-10)%Q) pos = None.
Proof. vm_compute. reflexivity. Qed.

(* ------------------- bounded, total random walks ------------------ *)

Section WalkBounds.
Local Open Scope Q_scope.
Lemma js_mod_range (a : Q) : 0 <= a -> 0 <= js_mod a (inject_Z 233280) < inject_Z 233280.
Proof.
intros Ha. unfold js_mod, Qtrunc.
assert (Hd : 0 <= a / inject_Z 233280).
{ apply Qle_shift_div_l; [reflexivity | lra]. }
apply Qle_bool_iff in Hd. rewrite Hd. apply Qle_bool_iff in Hd.
pose proof (Qfloor_le (a / inject_Z 233280)) as H1.
pose proof (Qlt_floor (a / inject_Z 233280)) as H2.
rewrite inject_Z_plus in H2.
set (f := inject_Z (Qfloor (a / inject_Z 233280))) in *.
change (inject_Z 233280) with (233280 # 1) in *.
change (inject_Z 1) with (1 # 1) in *.
unfold Qdiv in *. change (/ (233280 # 1)) with (1 # 233280) in *. split; lra.
Qed.

Lemma rng_next_good ext g pos :
good_rng ext g ->
0 <= (rng_next ext g pos).1.1 < 1 /\ good_rng ext (rng_next ext g pos).1.2.
Proof.
destruct g as [st |]; cbn; [| intros H; split; [apply H | exact H]].
intros Hst.
assert (Ha : 0 <= st * inject_Z 9301 + inject_Z 49297).
{ change (inject_Z 9301) with (9301 # 1). change (inject_Z 49297) with (49297 # 1). lra. }
destruct (js_mod_range _ Ha) as [H1 H2].
set (m := js_mod _ _) in *.
change (inject_Z 233280) with (233280 # 1) in *.
unfold Qdiv. change (/ (233280 # 1)) with (1 # 233280). split; [split |]; lra.
Qed.

Lemma floor_index (r : Q) (m : Z) :
0 <= r < 1 -> (1 <= m)%Z -> (0 <= Qfloor (r * inject_Z m) < m)%Z.
Proof.
intros [H0 H1] Hm.
assert (Hm' : inject_Z 1 <= inject_Z m) by (rewrite <- Zle_Qle; exact Hm).
change (inject_Z 1) with 1 in Hm'.
split.
- change 0%Z with (Qfloor 0). apply Qfloor_resp_le.
  apply Qmult_le_0_compat; lra.
- rewrite Zlt_Qlt. eapply Qle_lt_trans; [apply Qfloor_le |].
  apply Qlt_le_trans with (1 * inject_Z m); [| lra].
  apply Qmult_lt_r; lra.
Qed.

Lemma js_index_in_range {A} (l : list A) (i : Z) :
(0 <= i < Z.of_nat (length l))%Z -> exists x, js_index l i = Some x.
Proof.
intros [H0 H1]. unfold js_index.
destruct (Z.ltb_spec i 0); [lia |].
destruct (nth_error l (Z.to_nat i)) as [x |] eqn:E; [eauto |].
apply nth_error_None in E. lia.
Qed.

Lemma walk_loop_total exp ext vm ap fuel steps cur g pos :
good_rng ext g -> exists res, walk_loop exp ext vm ap fuel steps cur g pos = Some res.
Proof.
revert steps cur g pos.
induction fuel as [| fuel IH]; intros steps cur g pos Hg; [eauto |].
cbn [walk_loop].
destruct (rng_next ext g pos) as [[r g'] pos'] eqn:E.
pose proof (rng_next_good ext g pos Hg) as Hr. rewrite E in Hr.
destruct Hr as [Hr Hg'].
destruct (filter _ _) as [| a0 rest]; [eauto |].
destruct (Qeq_bool _ 0).
- destruct (js_index_in_range (a0 :: rest)
              (Qfloor (r * inject_Z (Z.of_nat (length (a0 :: rest))))))
    as [x Hx].
  { apply floor_index; [exact Hr | simpl; lia]. }
  rewrite Hx. apply IH. exact Hg'.
- apply IH. exact Hg'.
Qed.

Lemma walk_loop_steps exp ext vm ap fuel steps cur g pos v n p :
walk_loop exp ext vm ap fuel steps cur g pos = Some (v, n, p) ->
(n <= steps + fuel)%nat.
Proof.
revert steps cur g pos.
induction fuel as [| fuel IH]; intros steps cur g pos H.
- cbn in H. injection H as <- <- <-. lia.
- cbn [walk_loop] in H.
  destruct (filter _ _) as [| a0 rest].
  { injection H as <- <- <-. lia. }
  destruct (rng_next ext g pos) as [[r g'] pos'].
  destruct (if Qeq_bool _ 0 then _ else _) as [nxt |]; [| discriminate H].
  apply IH in H. lia.
Qed.

Lemma performRandomWalk_total exp ext vs vm ap g pos :
good_rng ext g -> vs <> [] ->
exists res, performRandomWalk exp ext vs vm ap g pos = Some res.
Proof.
intros Hg Hvs. unfold performRandomWalk.
destruct (rng_next ext g pos) as [[r g'] pos'] eqn:E.
pose proof (rng_next_good ext g pos Hg) as Hr. rewrite E in Hr.
destruct Hr as [Hr Hg'].
assert (Hn : (1 <= Z.of_nat (length vs))%Z).
{ destruct vs; [congruence | simpl; lia]. }
pose proof (floor_index r (Z.min 10 (Z.of_nat (length vs))) Hr ltac:(lia)) as Hf.
destruct (js_index_in_range vs
            (Z.of_nat (length vs) - 1 -
             Qfloor (r * inject_Z (Z.min 10 (Z.of_nat (length vs)))))) as [x Hx].
{ lia. }
rewrite Hx. apply walk_loop_total. exact Hg'.
Qed.

Lemma performRandomWalk_steps exp ext vs vm ap g pos v n p :
performRandomWalk exp ext vs vm ap g pos = Some (v, n, p) -> (n <= maxSteps)%nat.
Proof.
unfold performRandomWalk.
destruct (rng_next ext g pos) as [[r g'] pos'].
destruct (js_index _ _) as [cur |]; [| discriminate].
intros H. apply walk_loop_steps in H. exact H.
Qed.

(** X25: [selectTips] always returns a selection (no lookup falls outside
    an array) when [Math.random()] returns values in [0, 1) and the seed, if
    any, lies in [0, 10^300]. The upper bound keeps [seed * 1.618 * 9301]
    finite as a double: from about 1.2e304 on it overflows to [Infinity],
    the state becomes [NaN] and [vertices[NaN]] is [undefined]. *)
Lemma selectTips_total exp ext V seed pos :
(forall n, 0 <= ext n < 1) ->
(forall s, seed = Some s -> 0 <= s <= inject_Z (10 ^ 300)) ->
exists r, selectTips exp ext V seed pos = Some r.
Proof.
intros Hext Hseed.
assert (G1 : good_rng ext (rng_of seed)).
{ destruct seed as [s |]; simpl; [apply (Hseed s eq_refl) | exact Hext]. }
assert (G2 : good_rng ext (rng_of (second_seed seed))).
{ destruct seed as [s |]; simpl; [| exact Hext].
  destruct (truthy s); simpl; [| exact Hext].
  destruct (Hseed s eq_refl) as [Hs0 _]. lra. }
unfold selectTips.
destruct V as [| v0 V']; [eauto |].
destruct (filter _ (v0 :: V')) as [| u [| u2 rest]]; [eauto | eauto |].
destruct (performRandomWalk_total exp ext (u :: u2 :: rest)
            (build_vertexMap (u :: u2 :: rest)) (build_approvers (u :: u2 :: rest))
            (rng_of seed) pos G1 ltac:(discriminate)) as [[[t1 n1] p1] H1].
rewrite H1.
destruct (performRandomWalk_total exp ext (u :: u2 :: rest)
            (build_vertexMap (u :: u2 :: rest)) (build_approvers (u :: u2 :: rest))
            (rng_of (second_seed seed)) p1 G2 ltac:(discriminate)) as [[[t2 n2] p2] H2].
rewrite H2. eauto.
Qed.
End WalkBounds.

Lemma selectTips_total_witness :
  (forall n : nat, (0 <= (fun _ : nat => 0%Q) n < 1)%Q) /\
  (forall s, Some (1 # 4)%Q = Some s -> (0 <= s <= inject_Z (10 ^ 300))%Q) /\
  exists r, selectTips (fun _ => 1%Q) (fun _ => 0%Q) [vb; vc] (Some (1 # 4)%Q) 0 = Some r.
Proof.
  assert (H1 : forall n : nat, (0 <= (fun _ : nat => 0%Q) n < 1)%Q) by (intros _; cbv beta; lra).
  assert (H2 : forall s, Some (1 # 4)%Q = Some s -> (0 <= s <= inject_Z (10 ^ 300))%Q).
  { intros s Hs; injection Hs as <-. split; [lra|]. unfold Qle; simpl; lia. }
  split; [exact H1|]. split; [exact H2|]. exact (selectTips_total _ _ _ _ _ H1 H2).
Defined.

(* --------------------------- NonceTracker -------------------------- *)

(** C8: [hasSeenNonce(n, t)] answers [true] exactly when [n] is recorded,
    [t < now - maxAge] or [t > now + 60000]; a fresh nonce inside the
    window is accepted once and rejected on resubmission; a rejected fresh
    nonce is not recorded. *)
Theorem hasSeenNonce_spec (now : Z) (tr : NonceTracker) :
  (forall n t,
     (hasSeenNonce now tr n t).1 = true <->
     (is_Some (seenNonces tr !! n) \/ (t < now - maxAge tr)%Z \/ (t > now + 60000)%Z)) /\
  (forall n t,
     seenNonces tr !! n = None ->
     (now - maxAge tr <= t <= now + 60000)%Z ->
     (hasSeenNonce now tr n t).1 = false /\
     (hasSeenNonce now (hasSeenNonce now tr n t).2 n t).1 = true) /\
  (forall n t,
     seenNonces tr !! n = None ->
     (hasSeenNonce now tr n t).1 = true ->
     (hasSeenNonce now tr n t).2 = tr).
Proof.
  unfold hasSeenNonce. split; [| split].
  - intros n t. case_bool_decide as Hs.
    + simpl. tauto.
    + destruct (Z.ltb_spec t (now - maxAge tr)) as [H1 | H1],
        (Z.ltb_spec (now + 60000) t) as [H2 | H2];
        simpl; split; intros Hx; try lia; try tauto; try discriminate.
      destruct Hx as [Hx | [Hx | Hx]]; [tauto | lia | lia].
  - intros n t Hn Ht. rewrite Hn. simpl.
    destruct (Z.ltb_spec t (now - maxAge tr)); [lia |].
    destruct (Z.ltb_spec (now + 60000) t); [lia |]. simpl.
    split; [reflexivity |].
    rewrite lookup_insert_eq. reflexivity.
  - intros n t Hn. rewrite Hn. simpl.
    destruct (_ || _); simpl; [reflexivity | discriminate].
Qed.

(** X10: The periodic cleanup cannot make a resubmission succeed: after an
    accepted [(n, t)], a cleanup run followed by the same submission is
    still rejected, whatever the clock reads. *)
Lemma hasSeenNonce_replay_after_cleanup now1 now2 tr n t :
  (hasSeenNonce now1 tr n t).1 = false ->
  (hasSeenNonce now2 (cleanup now2 (hasSeenNonce now1 tr n t).2) n t).1 = true.
Proof.
  intros Hacc.
  assert (Hst : (hasSeenNonce now1 tr n t).2 =
                mkNonceTracker (<[n := t]> (seenNonces tr)) (maxAge tr)).
  { revert Hacc. unfold hasSeenNonce.
    case_bool_decide; [discriminate |].
    destruct (_ || _); [discriminate | reflexivity]. }
  rewrite Hst. unfold hasSeenNonce, cleanup. simpl.
  destruct (decide (t < now2 - maxAge tr)%Z) as [Hold | Hnew].
  - case_bool_decide; [reflexivity |].
    destruct (Z.ltb_spec t (now2 - maxAge tr)); [reflexivity | lia].
  - rewrite bool_decide_eq_true_2; [reflexivity |].
    rewrite map_lookup_filter, lookup_insert_eq. simpl.
    rewrite option_guard_True; [eauto | exact Hnew].
Qed.

Lemma hasSeenNonce_replay_after_cleanup_witness :
  (hasSeenNonce 0 (newNonceTracker 300000) "n" 0).1 = false /\
  (hasSeenNonce 400000 (cleanup 400000 (hasSeenNonce 0 (newNonceTracker 300000) "n" 0).2) "n" 0).1 = true.
Proof.
  assert (H : (hasSeenNonce 0 (newNonceTracker 300000) "n" 0).1 = false) by (vm_compute; reflexivity).
  split; [exact H|]. exact (hasSeenNonce_replay_after_cleanup _ _ _ _ _ H).
Defined.

(* ------------------------- pruneOldVertices ------------------------ *)



(* -------------------------- weight propagation --------------------- *)

(** C4 (code_bug): [vb2] references [va0] through both of its parent
    references, so the approver index lists [vb2] twice under "a" and
    [recalculateAllWeights] gives "a" the weight 1 + 1 + 1 = 3, where the
    definition (1 + the weight of the single approver [vb2]) gives 2, as
    the sibling [calculateCumulativeWeight] computes. *)
Theorem recalculateAllWeights_double_reference :
  let w := recalculateAllWeights [va0; vb2] in
  w !! "b" = Some 1%Z /\ w !! "a" = Some 3%Z /\
  calculateCumulativeWeight va0 [va0; vb2] = 2%Z.
Proof. vm_compute. repeat split. Qed.

(** C5 (code_bug): on the chain a <- b <- c with all stored weights 1,
    one run of [updateCumulativeWeights] stores a = 2, b = 2, c = 1 (a is
    processed before b's new weight is known), and a second run changes
    a's weight again, to 3. *)
Theorem updateCumulativeWeights_not_idempotent :
  let run1 := updateCumulativeWeights [wa; wb; wc] in
  let run2 := updateCumulativeWeights run1 in
  map cumulativeWeight run1 = [2; 2; 1]%Z /\
  map cumulativeWeight run2 = [3; 2; 1]%Z /\
  run2 <> run1.
Proof. vm_compute. split; [reflexivity | split; [reflexivity | discriminate]]. Qed.

(* --------------------------- isValidDAG --------------------------- *)

(** C6 (counterexample): a self-reference is not detected when another
    vertex shares the hash (the vertex map keeps the last one), nor when
    the vertex's own hash is the genesis sentinel (genesis references are
    not followed). *)
Lemma isValidDAG_accepts_hidden_self_references :
  (tipReference1 vx1 = vertexHash vx1 /\ isValidDAG [vx1; vx2] = Some true) /\
  (tipReference1 vgen = vertexHash vgen /\ isValidDAG [vgen] = Some true).
Proof. split; split; vm_compute; reflexivity. Qed.

(** C7 (counterexample): the anchored vertex "y" has the listed,
    unanchored parent [vp1]; a later vertex with the same hash "p" is
    anchored, the status map keeps that one, and the list is accepted. *)
Lemma isValidDAG_accepts_unanchored_parent :
  anchored_true vy = true /\ tipReference1 vy = vertexHash vp1 /\
  vertexHash vp1 <> GENESIS_HASH /\ anchored_true vp1 = false /\
  isValidDAG [vp1; vy; vp2] = Some true.
Proof. split_and!; [reflexivity | reflexivity | discriminate | reflexivity | vm_compute; reflexivity]. Qed.

Lemma dfs_edge_closed vm (F : gset string) x z :
  (forall a b, a ∈ F -> dfs_edge vm a b -> b ∈ F) -> x ∈ F -> rtc (dfs_edge vm) x z -> z ∈ F.
Proof. intros Hcl Hx Hr. induction Hr as [| a b c Hab _ IH]; eauto. Qed.

Lemma dfs_false_inv vm fuel : forall h vis stk vis' stk',
  dfs vm fuel h vis stk = Some (false, vis', stk') ->
  dfs_inv vm vis stk ->
  stk' = stk /\ vis ⊆ vis' /\ h ∈ vis' ∖ stk /\ dfs_inv vm vis' stk.
Proof.
  induction fuel as [| f IH]; intros h vis stk vis' stk' H Hinv; [discriminate |].
  assert (Hstep : forall t vis0 stk0 vis1 stk1, dfs_inv vm vis0 stk0 ->
    (if (t =? GENESIS_HASH)%string then Some (false, vis0, stk0)
     else dfs vm f t vis0 stk0) = Some (false, vis1, stk1) ->
    stk1 = stk0 /\ vis0 ⊆ vis1 /\ (t <> GENESIS_HASH -> t ∈ vis1 ∖ stk0) /\
    dfs_inv vm vis1 stk0).
  { intros t vis0 stk0 vis1 stk1 Hi Hr.
    destruct (String.eqb_spec t GENESIS_HASH) as [Ht | Ht].
    - injection Hr as <- <-. split_and!; [done | done | done | done].
    - destruct (IH _ _ _ _ _ Hr Hi) as (? & ? & ? & ?). split_and!; auto. }
  cbn [dfs] in H.
  case_bool_decide as Hs; [discriminate |].
  case_bool_decide as Hv.
  { injection H as <- <-. split_and!; [done | done | clear - Hs Hv Hinv; set_solver | done]. }
  destruct Hinv as (Hsub & Hcl & Hac).
  assert (Hinv1 : dfs_inv vm ({[h]} ∪ vis) ({[h]} ∪ stk)).
  { split_and!.
    - clear - Hsub. set_solver.
    - intros x y Hx Hxy.
      assert (Hx' : x ∈ vis ∖ stk) by (clear - Hx; set_solver).
      pose proof (Hcl x y Hx' Hxy) as Hy. clear - Hy Hv. set_solver.
    - intros x Hx. apply Hac. clear - Hx. set_solver. }
  destruct (vm !! h) as [v |] eqn:Hvm.
  - remember (if (tipReference1 v =? GENESIS_HASH)%string
              then Some (false, {[h]} ∪ vis, {[h]} ∪ stk)
              else dfs vm f (tipReference1 v) ({[h]} ∪ vis) ({[h]} ∪ stk)) as r1 eqn:R1.
    destruct r1 as [[[[|] vis2] stk2] |]; try discriminate.
    destruct (Hstep _ _ _ _ _ Hinv1 (eq_sym R1)) as (-> & Hs12 & Ht1 & Hinv2).
    remember (if (tipReference2 v =? GENESIS_HASH)%string
              then Some (false, vis2, {[h]} ∪ stk)
              else dfs vm f (tipReference2 v) vis2 ({[h]} ∪ stk)) as r2 eqn:R2.
    destruct r2 as [[[[|] vis3] stk3] |]; try discriminate.
    injection H as <- <-.
    destruct (Hstep _ _ _ _ _ Hinv2 (eq_sym R2)) as (-> & Hs23 & Ht2 & Hinv3).
    clear Hstep R1 R2 IH Hinv1 Hinv2.
    destruct Hinv3 as (Hsub3 & Hcl3 & Hac3).
    assert (Hsucc : forall y, dfs_edge vm h y -> y ∈ vis3 ∖ ({[h]} ∪ stk)).
    { intros y (w & Hw & Hy & Hyr). rewrite Hvm in Hw. injection Hw as <-.
      destruct Hyr as [<- | <-].
      - pose proof (Ht1 Hy) as Hin. clear - Hin Hs23. set_solver.
      - exact (Ht2 Hy). }
    unfold dfs_inv. split_and!.
    + clear - Hs. set_solver.
    + clear - Hs12 Hs23. set_solver.
    + clear - Hs Hsub3. set_solver.
    + clear - Hsub3. set_solver.
    + intros x y Hx Hxy.
      destruct (decide (x = h)) as [-> | Hxh].
      * pose proof (Hsucc y Hxy) as Hy. clear - Hy. set_solver.
      * assert (Hx' : x ∈ vis3 ∖ ({[h]} ∪ stk)) by (clear - Hx Hxh; set_solver).
        pose proof (Hcl3 x y Hx' Hxy) as Hy. clear - Hy. set_solver.
    + intros x Hx.
      destruct (decide (x = h)) as [-> | Hxh].
      * intros Hc. inversion Hc as [? ? Hxy | ? y ? Hxy Hyh]; subst.
        -- pose proof (Hsucc h Hxy) as Hy. clear - Hy. set_solver.
        -- pose proof (Hsucc y Hxy) as Hy.
           pose proof (dfs_edge_closed vm _ y h Hcl3 Hy (tc_rtc _ _ Hyh)) as Hh.
           clear - Hh. set_solver.
      * apply Hac3. clear - Hx Hxh. set_solver.
  - injection H as <- <-.
    unfold dfs_inv. split_and!; [clear - Hs; set_solver | clear; set_solver | clear - Hs; set_solver
                | clear - Hsub; set_solver | |].
    + intros x y Hx Hxy. destruct (decide (x = h)) as [-> | Hxh].
      * destruct Hxy as (w & Hw & _). congruence.
      * assert (Hx' : x ∈ vis ∖ stk) by (clear - Hx Hxh; set_solver).
        pose proof (Hcl x y Hx' Hxy) as Hy. clear - Hy. set_solver.
    + intros x Hx. destruct (decide (x = h)) as [-> | Hxh].
      * intros Hc. inversion Hc as [? ? Hxy | ? y ? Hxy _];
          destruct Hxy as (w & Hw & _); congruence.
      * apply Hac. clear - Hx Hxh. set_solver.
Qed.

Lemma dfs_false_stack vm fuel : forall h vis stk vis' stk',
  dfs vm fuel h vis stk = Some (false, vis', stk') -> stk' = stk.
Proof.
  induction fuel as [| f IH]; intros h vis stk vis' stk' H; [discriminate |].
  assert (Hstep : forall t vis0 stk0 vis1 stk1,
    (if (t =? GENESIS_HASH)%string then Some (false, vis0, stk0)
     else dfs vm f t vis0 stk0) = Some (false, vis1, stk1) -> stk1 = stk0).
  { intros t vis0 stk0 vis1 stk1 Hr.
    destruct (t =? GENESIS_HASH)%string; [congruence | exact (IH _ _ _ _ _ Hr)]. }
  cbn [dfs] in H.
  case_bool_decide as Hs; [discriminate |].
  case_bool_decide as Hv; [congruence |].
  destruct (vm !! h) as [v |].
  - remember (if (tipReference1 v =? GENESIS_HASH)%string
              then Some (false, {[h]} ∪ vis, {[h]} ∪ stk)
              else dfs vm f (tipReference1 v) ({[h]} ∪ vis) ({[h]} ∪ stk)) as r1 eqn:R1.
    destruct r1 as [[[[|] vis2] stk2] |]; try discriminate.
    rewrite (Hstep _ _ _ _ _ (eq_sym R1)) in H.
    remember (if (tipReference2 v =? GENESIS_HASH)%string
              then Some (false, vis2, {[h]} ∪ stk)
              else dfs vm f (tipReference2 v) vis2 ({[h]} ∪ stk)) as r2 eqn:R2.
    destruct r2 as [[[[|] vis3] stk3] |]; try discriminate.
    rewrite (Hstep _ _ _ _ _ (eq_sym R2)) in H.
    injection H as _ <-. clear - Hs. set_solver.
  - injection H as _ <-. clear - Hs. set_solver.
Qed.

Lemma dfs_total vm fuel : forall h vis stk,
  stk ⊆ dom vm -> size (dom vm) < fuel + size stk -> dfs vm fuel h vis stk <> None.
Proof.
  induction fuel as [| f IH]; intros h vis stk Hsub Hsz.
  { pose proof (subseteq_size _ _ Hsub). lia. }
  assert (Hstep : forall t vis0 stk0, stk0 ⊆ dom vm -> size (dom vm) < f + size stk0 ->
    (if (t =? GENESIS_HASH)%string then Some (false, vis0, stk0)
     else dfs vm f t vis0 stk0) <> None).
  { intros t vis0 stk0 H1 H2.
    destruct (t =? GENESIS_HASH)%string; [congruence | exact (IH _ _ _ H1 H2)]. }
  cbn [dfs].
  case_bool_decide as Hs; [congruence |].
  case_bool_decide as Hv; [congruence |].
  destruct (vm !! h) as [v |] eqn:Hvm; [| congruence].
  assert (Hsub1 : {[h]} ∪ stk ⊆ dom vm).
  { apply elem_of_dom_2 in Hvm. clear - Hvm Hsub. set_solver. }
  assert (Hsz1 : size (dom vm) < f + size ({[h]} ∪ stk)).
  { rewrite size_union by (clear - Hs; set_solver). rewrite size_singleton. lia. }
  remember (if (tipReference1 v =? GENESIS_HASH)%string
            then Some (false, {[h]} ∪ vis, {[h]} ∪ stk)
            else dfs vm f (tipReference1 v) ({[h]} ∪ vis) ({[h]} ∪ stk)) as r1 eqn:R1.
  destruct r1 as [[[[|] vis2] stk2] |]; [congruence | | case (Hstep _ _ _ Hsub1 Hsz1 (eq_sym R1))].
  assert (stk2 = {[h]} ∪ stk) as ->.
  { destruct (tipReference1 v =? GENESIS_HASH)%string; [congruence|].
    exact (dfs_false_stack _ _ _ _ _ _ _ (eq_sym R1)). }
  remember (if (tipReference2 v =? GENESIS_HASH)%string
            then Some (false, vis2, {[h]} ∪ stk)
            else dfs vm f (tipReference2 v) vis2 ({[h]} ∪ stk)) as r2 eqn:R2.
  destruct r2 as [[[[|] vis3] stk3] |]; [congruence | congruence | case (Hstep _ _ _ Hsub1 Hsz1 (eq_sym R2))].
Qed.

Lemma hasCycles_loop_total vm fuel : forall vs vis,
  size (dom vm) < fuel -> hasCycles_loop vm fuel vs vis ∅ <> None.
Proof.
  intros vs. induction vs as [| v rest IH]; intros vis Hf; cbn [hasCycles_loop]; [congruence |].
  case_bool_decide; [auto |].
  destruct (dfs vm fuel (vertexHash v) vis ∅) as [[[[|] vis'] stk'] |] eqn:D; [congruence | |].
  - rewrite (dfs_false_stack _ _ _ _ _ _ _ D). auto.
  - case (dfs_total vm fuel (vertexHash v) vis ∅); [set_solver | rewrite size_empty; lia | exact D].
Qed.

Lemma hasCycles_loop_false vm fuel : forall vs vis,
  hasCycles_loop vm fuel vs vis ∅ = Some false -> dfs_inv vm vis ∅ ->
  exists vis', dfs_inv vm vis' ∅ /\ vis ⊆ vis' /\ forall v, In v vs -> vertexHash v ∈ vis'.
Proof.
  intros vs. induction vs as [| v rest IH]; intros vis H Hinv; cbn [hasCycles_loop] in H.
  { exists vis. split_and!; [done | done | intros ? []]. }
  case_bool_decide as Hin.
  - destruct (IH _ H Hinv) as (vis' & Hinv' & Hsub & Hall). exists vis'.
    split_and!; [done | done |].
    intros w [<- | Hw]; [set_solver | auto].
  - destruct (dfs vm fuel (vertexHash v) vis ∅) as [[[[|] vis1] stk1] |] eqn:D; try discriminate.
    destruct (dfs_false_inv _ _ _ _ _ _ _ D Hinv) as (-> & Hsub1 & Hv1 & Hinv1).
    destruct (IH _ H Hinv1) as (vis' & Hinv' & Hsub & Hall). exists vis'.
    split_and!; [done | set_solver |].
    intros w [<- | Hw]; [set_solver | auto].
Qed.

Section IndexBy.
Context {A : Type} (f : DagVertex -> A).

Lemma index_by_fold_notin vs (m : gmap string A) k :
  k ∉ map vertexHash vs ->
  fold_left (fun m v => <[vertexHash v := f v]> m) vs m !! k = m !! k.
Proof.
  revert m. induction vs as [| v rest IH]; intros m Hk; [done |].
  cbn [fold_left]. rewrite IH by set_solver.
  apply lookup_insert_ne. set_solver.
Qed.

Lemma index_by_fold_in vs (m : gmap string A) x :
  NoDup (map vertexHash vs) -> In x vs ->
  fold_left (fun m v => <[vertexHash v := f v]> m) vs m !! vertexHash x = Some (f x).
Proof.
  revert m. induction vs as [| v rest IH]; intros m Hnd Hx; [destruct Hx |].
  cbn [fold_left]. cbn [map] in Hnd. apply NoDup_cons in Hnd as [Hnot Hnd].
  destruct Hx as [<- | Hx].
  - rewrite index_by_fold_notin by done. apply lookup_insert_eq.
  - auto.
Qed.

Lemma index_by_lookup vs x :
  NoDup (map vertexHash vs) -> In x vs -> index_by f vs !! vertexHash x = Some (f x).
Proof. apply index_by_fold_in. Qed.

Lemma index_by_dom_size vs : size (dom (index_by f vs)) <= length vs.
Proof.
  unfold index_by.
  assert (Hgen : forall (m : gmap string A),
    size (dom (fold_left (fun m v => <[vertexHash v := f v]> m) vs m)) <=
    size (dom m) + length vs).
  { induction vs as [| v rest IH]; intros m; cbn [fold_left length]; [lia |].
    specialize (IH (<[vertexHash v := f v]> m)).
    rewrite dom_insert_L in IH.
    pose proof (size_union_alt {[vertexHash v]} (dom m)) as Hu.
    rewrite size_singleton in Hu.
    pose proof (subseteq_size (dom m ∖ {[vertexHash v]}) (dom m)
                  ltac:(set_solver)).
    lia. }
  specialize (Hgen ∅). rewrite dom_empty_L, size_empty in Hgen. lia.
Qed.
End IndexBy.

Lemma hasCycles_total vs : hasCycles vs <> None.
Proof.
  unfold hasCycles. apply hasCycles_loop_total.
  pose proof (index_by_dom_size (fun v => v) vs). unfold build_vertexMap. lia.
Qed.

Lemma hasCycles_false_acyclic vs v :
  hasCycles vs = Some false -> In v vs ->
  ~ tc (dfs_edge (build_vertexMap vs)) (vertexHash v) (vertexHash v).
Proof.
  intros H Hv.
  destruct (hasCycles_loop_false _ _ _ _ H) as (vis & (_ & _ & Hac) & _ & Hall).
  { unfold dfs_inv. split_and!; [set_solver | set_solver | set_solver]. }
  apply Hac. pose proof (Hall v Hv). set_solver.
Qed.

Lemma parent_edge_dfs_edge vs x y :
  NoDup (map vertexHash vs) -> tc (parent_edge vs) x y ->
  tc (dfs_edge (build_vertexMap vs)) (vertexHash x) (vertexHash y).
Proof.
  intros Hnd Hxy.
  assert (Hstep : forall a b, parent_edge vs a b ->
            dfs_edge (build_vertexMap vs) (vertexHash a) (vertexHash b)).
  { intros a b (Ha & _ & Hb & Hr). exists a. split_and!; [| done | done].
    apply (index_by_lookup (fun v => v)); done. }
  induction Hxy as [a b Hab | a b c Hab _ IH].
  - apply tc_once, Hstep, Hab.
  - eapply tc_l; [apply Hstep, Hab | exact IH].
Qed.

(** C6 (amended): for a list whose vertexHashes are pairwise distinct, a
    vertex that reaches itself through a chain of non-genesis parent
    references between listed vertices makes [isValidDAG] return false. *)
Theorem isValidDAG_rejects_cycles (vs : list DagVertex) (v : DagVertex) :
  NoDup (map vertexHash vs) -> tc (parent_edge vs) v v -> isValidDAG vs = Some false.
Proof.
  intros Hnd Hc.
  assert (Hv : In v vs) by (inversion Hc as [? ? (H & _) | ? ? ? (H & _) _]; exact H).
  unfold isValidDAG. destruct vs as [| w rest]; [destruct Hv |].
  destruct (hasCycles (w :: rest)) as [[|] |] eqn:H.
  - reflexivity.
  - exfalso. apply (hasCycles_false_acyclic _ v H Hv).
    apply parent_edge_dfs_edge; done.
  - exfalso. exact (hasCycles_total _ H).
Qed.

Lemma isValidDAG_rejects_cycles_witness :
  NoDup (map vertexHash [vs1; vt1]) /\ tc (parent_edge [vs1; vt1]) vs1 vs1 /\
  isValidDAG [vs1; vt1] = Some false.
Proof.
  assert (Hnd : NoDup (map vertexHash [vs1; vt1])) by (cbn; repeat constructor; set_solver).
  assert (Hc : tc (parent_edge [vs1; vt1]) vs1 vs1).
  { apply (tc_l _ vs1 vt1).
    - split_and!; [left; reflexivity | right; left; reflexivity | discriminate | left; reflexivity].
    - apply tc_once. split_and!; [right; left; reflexivity | left; reflexivity | discriminate | left; reflexivity]. }
  split; [exact Hnd | split; [exact Hc | exact (isValidDAG_rejects_cycles _ _ Hnd Hc)]].
Defined.

(** C7 (amended): an anchored vertex of the list makes [isValidDAG] return
    false when (a) the hashes are pairwise distinct and one of its
    non-genesis parents is a listed vertex that is not anchored, or (b) its
    anchorTimestamp is earlier than its createdAt. *)
Theorem isValidDAG_anchoring (vs : list DagVertex) (x : DagVertex) :
  In x vs -> anchored_true x = true ->
  ((NoDup (map vertexHash vs) /\
    exists p, In p vs /\ vertexHash p <> GENESIS_HASH /\
              (tipReference1 x = vertexHash p \/ tipReference2 x = vertexHash p) /\
              anchored_true p = false) \/
   (exists a c, anchorTimestamp x = Some a /\ createdAt x = Some c /\ (a < c)%Z)) ->
  isValidDAG vs = Some false.
Proof.
  intros Hx Hanc Hbad.
  assert (Hok : anchoring_ok (index_by anchored_true vs) x = false).
  { unfold anchoring_ok. rewrite Hanc.
    destruct Hbad as [(Hnd & p & Hp & Hgen & Href & Hpa) | (a & c & Ha & Hc & Hlt)].
    - pose proof (index_by_lookup anchored_true vs p Hnd Hp) as Hl. rewrite Hpa in Hl.
      assert (Hpo : (vertexHash p =? GENESIS_HASH)%string = false)
        by (apply String.eqb_neq; exact Hgen).
      destruct Href as [-> | ->]; rewrite Hpo, Hl;
        destruct (match anchorTimestamp x, createdAt x with
                  | Some anchorTime, Some createTime => negb (Z.ltb anchorTime createTime)
                  | _, _ => true end); cbn;
        [rewrite ?andb_false_r; reflexivity .. ].
    - rewrite Ha, Hc. apply Z.ltb_lt in Hlt. rewrite Hlt. reflexivity. }
  assert (Hrules : anchoring_rules vs = false).
  { unfold anchoring_rules. destruct (forallb _ vs) eqn:Hf; [| reflexivity].
    rewrite forallb_forall in Hf. rewrite (Hf x Hx) in Hok. discriminate. }
  unfold isValidDAG. destruct vs as [| w rest]; [destruct Hx |].
  destruct (hasCycles (w :: rest)) as [[|] |] eqn:H.
  - reflexivity.
  - rewrite Hrules, andb_false_r. reflexivity.
  - exfalso. exact (hasCycles_total _ H).
Qed.

Lemma isValidDAG_anchoring_witness :
  In vy [vp1; vy] /\ anchored_true vy = true /\ isValidDAG [vp1; vy] = Some false.
Proof.
  assert (Hin : In vy [vp1; vy]) by (right; left; reflexivity).
  assert (Ha : anchored_true vy = true) by reflexivity.
  split; [exact Hin | split; [exact Ha |]].
  apply (isValidDAG_anchoring [vp1; vy] vy Hin Ha).
  left. split.
  - cbn. repeat constructor; set_solver.
  - exists vp1. split_and!; [left; reflexivity | discriminate | left; reflexivity | reflexivity].
Defined.

(* ------------------------- payload hashing ------------------------ *)

Lemma prop_value_map_snd {A B} (g : A -> B) k (l : list (string * A)) :
  prop_value k (map (fun kv => (kv.1, g kv.2)) l) = option_map g (prop_value k l).
Proof.
  unfold prop_value. induction l as [| [k' a] rest IH]; [reflexivity |].
  cbn. destruct (String.eqb k' k); [reflexivity | exact IH].
Qed.

Lemma select_props_map_snd {A B} (g : A -> B) ks (l : list (string * A)) :
  select_props ks (map (fun kv => (kv.1, g kv.2)) l) =
  map (fun kv => (kv.1, g kv.2)) (select_props ks l).
Proof.
  unfold select_props. induction ks as [| k rest IH]; [reflexivity |].
  cbn. rewrite prop_value_map_snd. destruct (prop_value k l); cbn; rewrite IH; reflexivity.
Qed.

Lemma stringify_prune ks j : stringify (Some ks) j = stringify None (prune ks j).
Proof.
  induction j as [| b | n | s | l IH | kvs IH] using json_ind'; try reflexivity.
  - cbn [stringify prune]. rewrite map_map. do 3 f_equal.
    induction IH as [| x rest Hx _ IHr]; [reflexivity |]. cbn. rewrite Hx, IHr. reflexivity.
  - assert (Hmap : map (fun kv => (kv.1, stringify (Some ks) kv.2)) kvs =
                   map (fun kv => (kv.1, stringify None kv.2))
                       (map (fun kv => (kv.1, prune ks kv.2)) kvs)).
    { induction IH as [| [k v] rest Hx _ IHr]; [reflexivity |].
      cbn in *. rewrite Hx, IHr. reflexivity. }
    cbn [stringify prune]. rewrite Hmap, select_props_map_snd. reflexivity.
Qed.

Lemma calculatePayloadHash_pruned digest p :
  calculatePayloadHash digest p =
  digest (stringify None (JObj [("data", prune payload_keys (data p));
                                ("timestamp", JNum (timestamp p));
                                ("type", JStr (type p))])).
Proof.
  unfold calculatePayloadHash.
  change (sort_strings (map fst (payload_props p))) with payload_keys.
  rewrite stringify_prune. reflexivity.
Qed.

(** C2: [calculatePayloadHash] sees a payload through its type, its
    timestamp and its data pruned to the properties named data, timestamp
    and type at every nesting level; data [{}] and [{foo: 1}] prune alike,
    and [VertexBuilder.build] gives the two payloads the same payloadHash
    and vertexHash while their stored payloadData differ. *)
Theorem calculatePayloadHash_ignores_other_keys :
  (forall digest p1 p2,
     type p1 = type p2 -> timestamp p1 = timestamp p2 ->
     prune payload_keys (data p1) = prune payload_keys (data p2) ->
     calculatePayloadHash digest p1 = calculatePayloadHash digest p2) /\
  prune payload_keys (data p_empty) = prune payload_keys (data p_foo) /\
  data p_empty <> data p_foo /\
  (forall hashData sha256 generateEngagementProof signVertex nodeId tips nonce,
     exists r1 r2,
       VertexBuilder.build hashData sha256 generateEngagementProof signVertex
         (VertexBuilder.mk nodeId p_empty (Some tips)) nonce = Some r1 /\
       VertexBuilder.build hashData sha256 generateEngagementProof signVertex
         (VertexBuilder.mk nodeId p_foo (Some tips)) nonce = Some r2 /\
       InsertDagVertex.payloadHash r1 = InsertDagVertex.payloadHash r2 /\
       InsertDagVertex.vertexHash r1 = InsertDagVertex.vertexHash r2 /\
       InsertDagVertex.payloadData r1 <> InsertDagVertex.payloadData r2).
Proof.
  assert (Hgen : forall digest p1 p2,
     type p1 = type p2 -> timestamp p1 = timestamp p2 ->
     prune payload_keys (data p1) = prune payload_keys (data p2) ->
     calculatePayloadHash digest p1 = calculatePayloadHash digest p2).
  { intros digest p1 p2 Ht Hts Hd.
    rewrite !calculatePayloadHash_pruned, Ht, Hts, Hd. reflexivity. }
  split_and!; [exact Hgen | reflexivity | discriminate |].
  intros hashData sha256 gen sign nodeId tips nonce.
  eexists _, _. split_and!; [reflexivity | reflexivity | | |].
  - cbn [InsertDagVertex.payloadHash]. apply Hgen; reflexivity.
  - cbn [InsertDagVertex.vertexHash VertexBuilder.payload].
    rewrite (Hgen hashData p_empty p_foo) by reflexivity. reflexivity.
  - cbn [InsertDagVertex.payloadData]. vm_compute. discriminate.
Qed.

(* ---------------------- more of the code --------------------------- *)

Lemma wl_check_all c : wl_check c = true.
Proof. destruct c as [[] [] [] [] [] [] [] []]; vm_compute; reflexivity. Qed.

Lemma char_wavelength_facts c w :
  char_wavelength c = Some w ->
  is_word_break c = false /\ is_js_space c = false /\
  WAVELENGTH_TO_CHAR !! w = Some (to_upper_char c) /\ to_upper_char c <> "" /\
  parseInt (trim (pretty w)) 10 = Some w /\ pretty w <> "" /\
  Forall (fun ch => is_Some (digit_of 10 ch) /\ is_js_space ch = false)
         (String.list_ascii_of_string (pretty w)).
Proof.
  intros H. pose proof (wl_check_all c) as Hc. unfold wl_check in Hc. rewrite H in Hc.
  apply andb_prop in Hc as [Hc Hg]. apply andb_prop in Hc as [Hc Hf].
  apply andb_prop in Hc as [Hc He]. apply andb_prop in Hc as [Hc Hd].
  apply andb_prop in Hc as [Hc Hcc]. apply andb_prop in Hc as [Ha Hb].
  repeat split.
  - now apply negb_true_iff.
  - now apply negb_true_iff.
  - now apply bool_decide_eq_true in Hcc.
  - intros E. rewrite E in Hd. discriminate.
  - now apply bool_decide_eq_true in He.
  - intros E. rewrite E in Hf. discriminate.
  - apply List.Forall_forall. intros ch Hin. rewrite List.forallb_forall in Hg. specialize (Hg ch Hin).
    apply andb_prop in Hg as [Hd' Hs]. split.
    + destruct (digit_of 10 ch); [eexists; reflexivity|discriminate].
    + now apply negb_true_iff.
Qed.

Lemma string_app_cons a s t : (String a s ++ t)%string = String a (s ++ t).
Proof. reflexivity. Qed.

Lemma string_app_nil_l t : ("" ++ t)%string = t.
Proof. reflexivity. Qed.

Lemma list_ascii_app s1 s2 :
  String.list_ascii_of_string (s1 ++ s2) =
  (String.list_ascii_of_string s1 ++ String.list_ascii_of_string s2)%list.
Proof. induction s1 as [|a s1 IH]; [reflexivity|]. rewrite string_app_cons. simpl. rewrite IH. reflexivity. Qed.

Lemma string_app_nil_r s : (s ++ "")%string = s.
Proof. induction s as [|a s IH]; [reflexivity|]. rewrite string_app_cons, IH. reflexivity. Qed.

Lemma concat_cons_prefix sep x l : exists t, String.concat sep (x :: l) = (x ++ t)%string.
Proof. destruct l; simpl. - exists "". now rewrite string_app_nil_r. - eexists; reflexivity. Qed.

Lemma drop_spaces_nil l : drop_spaces l = [] -> Forall (fun c => is_js_space c = true) l.
Proof.
  induction l as [|c l IH]; simpl; intros H; [constructor|].
  destruct (is_js_space c) eqn:E; [constructor; auto|discriminate].
Qed.

Lemma drop_spaces_cons l c r : drop_spaces l = c :: r -> is_js_space c = false.
Proof.
  induction l as [|c' l IH]; simpl; intros H; [discriminate|].
  destruct (is_js_space c') eqn:E; [auto|congruence].
Qed.

Lemma string_of_list_nil l : String.string_of_list_ascii l = "" -> l = [].
Proof. destruct l; simpl; [auto|discriminate]. Qed.

Lemma trim_empty_spaces s :
  trim s = "" -> Forall (fun c => is_js_space c = true) (String.list_ascii_of_string s).
Proof.
  unfold trim. intros H. apply string_of_list_nil in H.
  apply (f_equal (@rev ascii)) in H. rewrite rev_involutive in H. simpl in H.
  apply drop_spaces_nil in H.
  destruct (drop_spaces (String.list_ascii_of_string s)) as [|c r] eqn:E.
  - now apply drop_spaces_nil.
  - apply drop_spaces_cons in E. apply Forall_rev in H.
    rewrite rev_involutive in H. inversion H; congruence.
Qed.

Lemma blank_false s c :
  In c (String.list_ascii_of_string s) -> is_js_space c = false -> blank s = false.
Proof.
  intros Hin Hs. unfold blank. apply orb_false_iff. split.
  - destruct s; [contradiction|reflexivity].
  - destruct (String.eqb (trim s) "") eqn:E; [|reflexivity].
    apply String.eqb_eq, trim_empty_spaces in E.
    eapply List.Forall_forall in E; [|exact Hin]. congruence.
Qed.

Lemma concat_cons_eq sep x m :
  String.concat sep (x :: m) =
  match m with [] => x | _ => (x ++ sep ++ String.concat sep m)%string end.
Proof. destruct m; reflexivity. Qed.

Lemma in_concat_head sep x m c :
  In c (String.list_ascii_of_string x) ->
  In c (String.list_ascii_of_string (String.concat sep (x :: m))).
Proof.
  intros H. destruct (concat_cons_prefix sep x m) as [t ->].
  rewrite list_ascii_app. apply in_or_app. now left.
Qed.

Lemma concat_forall (P : ascii -> Prop) sep l :
  Forall P (String.list_ascii_of_string sep) ->
  Forall (fun x => Forall P (String.list_ascii_of_string x)) l ->
  Forall P (String.list_ascii_of_string (String.concat sep l)).
Proof.
  intros Hs Hl. induction Hl as [|x m Hx Hm IH]; [constructor|].
  rewrite concat_cons_eq. destruct m as [|y m]; [exact Hx|].
  rewrite !list_ascii_app. apply Forall_app; split; [exact Hx|].
  apply Forall_app; split; [exact Hs|exact IH].
Qed.

Lemma omap_cons_eq {A B} (f : A -> option B) x l :
  omap f (x :: l) = match f x with Some y => y :: omap f l | None => omap f l end.
Proof. reflexivity. Qed.

Lemma list_ascii_nil s : String.list_ascii_of_string s = [] -> s = "".
Proof. destruct s; [reflexivity|discriminate]. Qed.

Lemma split_on_app sep x rest :
  ~ In sep (String.list_ascii_of_string x) ->
  split_on sep (x ++ String sep rest) = x :: split_on sep rest.
Proof.
  induction x as [|c x IH]; intros H.
  - rewrite string_app_nil_l. cbn [split_on].
    destruct (Ascii.eqb sep sep) eqn:E; [reflexivity|].
    exfalso. apply Ascii.eqb_neq in E. congruence.
  - rewrite string_app_cons. cbn [split_on].
    destruct (Ascii.eqb c sep) eqn:E.
    + apply Ascii.eqb_eq in E. subst. exfalso. apply H. apply in_eq.
    + rewrite IH; [reflexivity|]. intros Hin. apply H. apply in_cons, Hin.
Qed.

Lemma split_on_nosep sep x :
  ~ In sep (String.list_ascii_of_string x) -> split_on sep x = [x].
Proof.
  induction x as [|c x IH]; intros H; [reflexivity|]. cbn [split_on].
  destruct (Ascii.eqb c sep) eqn:E.
  - apply Ascii.eqb_eq in E. subst. exfalso. apply H. apply in_eq.
  - rewrite IH; [reflexivity|]. intros Hin. apply H. apply in_cons, Hin.
Qed.

Lemma split_on_concat sep l :
  l <> [] -> Forall (fun x => ~ In sep (String.list_ascii_of_string x)) l ->
  split_on sep (String.concat (String sep "") l) = l.
Proof.
  intros Hne Hl. induction Hl as [|x m Hx Hm IH]; [congruence|].
  rewrite concat_cons_eq. destruct m as [|y m].
  - now apply split_on_nosep.
  - rewrite string_app_cons, string_app_nil_l, split_on_app by exact Hx.
    rewrite IH by discriminate. reflexivity.
Qed.

(** Both codecs encode a word character by character through a table
    [wl] and decode each number through a table [table]; [dec c] is what
    the decoder gives back for [c]. *)
Section CodecRoundTrip.
Variable wl : ascii -> option Z.
Variable step : list string * list Z -> ascii -> list string * list Z.
Variable table : gmap Z string.
Variable unknown : string.
Variable dec : ascii -> string.
Hypothesis wl_facts : forall c w, wl c = Some w ->
  is_word_break c = false /\ is_js_space c = false /\ table !! w = Some (dec c) /\
  dec c <> "" /\ parseInt (trim (pretty w)) 10 = Some w /\ pretty w <> "" /\ digits_only (pretty w).
Hypothesis step_char : forall words cur c w, wl c = Some w ->
  step (words, cur) c = (words, (cur ++ [w])%list).
Hypothesis step_break : forall words x cur c, is_word_break c = true ->
  step (words, x :: cur) c = ((words ++ [join_numbers (x :: cur)])%list, []).

Lemma encode_fold_chars words cur l :
  (forall c, In c l -> wl c <> None) ->
  fold_left step l (words, cur) = (words, (cur ++ omap wl l)%list).
Proof.
  revert cur. induction l as [|c l IH]; intros cur H; cbn [fold_left].
  - now rewrite app_nil_r.
  - destruct (wl c) as [w|] eqn:E; [|exact (False_ind _ (H c (in_eq c l) E))].
    rewrite (step_char _ _ _ _ E), IH by (intros; apply H, in_cons; assumption).
    rewrite omap_cons_eq, E, <- app_assoc. reflexivity.
Qed.

Lemma omap_nonempty l :
  l <> [] -> (forall c, In c l -> wl c <> None) -> omap wl l <> [].
Proof.
  destruct l as [|c l]; [congruence|]. intros _ H. rewrite omap_cons_eq.
  destruct (wl c) eqn:E; [discriminate|].
  exact (False_ind _ (H c (in_eq c l) E)).
Qed.

Lemma enc_nonempty w : fits wl w -> omap wl (String.list_ascii_of_string w) <> [].
Proof.
  intros [Hw Hc]. apply omap_nonempty; [|exact Hc]. intros E. apply Hw. now apply list_ascii_nil.
Qed.

Lemma encode_fold_words words ws :
  ws <> [] -> Forall (fits wl) ws ->
  flush_word (fold_left step (String.list_ascii_of_string (String.concat " " ws)) (words, [])) =
  (words ++ map (enc_word wl) ws)%list.
Proof.
  intros Hne Hws. revert words. induction Hws as [|w m Hw Hm IH]; [congruence|]. intros words.
  pose proof (enc_nonempty w Hw) as Hnz. destruct Hw as [_ Hc].
  rewrite concat_cons_eq. destruct m as [|y m].
  - rewrite encode_fold_chars by exact Hc. cbn [map app].
    unfold enc_word. destruct (omap wl (String.list_ascii_of_string w)) eqn:E; [congruence|].
    reflexivity.
  - rewrite !list_ascii_app, fold_left_app, encode_fold_chars by exact Hc.
    cbn [String.list_ascii_of_string fold_left app map].
    unfold enc_word at 1. destruct (omap wl (String.list_ascii_of_string w)) eqn:E; [congruence|].
    rewrite step_break by reflexivity.
    rewrite IH by discriminate. rewrite <- app_assoc. reflexivity.
Qed.

Lemma omap_wl_forall (Q : Z -> Prop) l :
  (forall c w, wl c = Some w -> Q w) -> Forall Q (omap wl l).
Proof.
  intros HQ. induction l as [|c l IH]; [constructor|]. rewrite omap_cons_eq.
  destruct (wl c) eqn:E; [|exact IH].
  apply List.Forall_cons; [exact (HQ c z E)|exact IH].
Qed.

Lemma enc_word_digits w :
  Forall (fun n => pretty n <> "" /\ digits_only (pretty n)) (omap wl (String.list_ascii_of_string w)).
Proof.
  apply omap_wl_forall. intros c n E.
  destruct (wl_facts c n E) as (_ & _ & _ & _ & _ & Hne & Hd). now split.
Qed.

Lemma decode_word_enc w :
  fits wl w ->
  decode_word table unknown (enc_word wl w) = String.concat "" (map dec (String.list_ascii_of_string w)).
Proof.
  intros Hw. pose proof (enc_nonempty w Hw) as Hnz. destruct Hw as [_ Hc].
  unfold decode_word, enc_word, join_numbers, WAVELENGTH_SEPARATOR.
  rewrite split_on_concat.
  2:{ intros E. apply map_eq_nil in E. exact (Hnz E). }
  2:{ apply Forall_map. eapply Forall_impl; [apply enc_word_digits|].
      intros n [_ Hd] Hin. eapply List.Forall_forall in Hd; [|exact Hin]. destruct Hd as [_ Hs].
      discriminate Hs. }
  f_equal. clear Hnz.
  induction (String.list_ascii_of_string w) as [|c l IH]; [reflexivity|].
  rewrite omap_cons_eq. destruct (wl c) as [n|] eqn:E.
  2:{ exfalso. exact (Hc c (in_eq c l) E). }
  destruct (wl_facts c n E) as (_ & _ & Ht & Hne & Hp & _).
  cbn [map]. rewrite omap_cons_eq, Hp, Ht.
  destruct (String.eqb (dec c) "") eqn:Eq.
  { apply String.eqb_eq in Eq. contradiction. }
  rewrite IH; [reflexivity|]. intros c' Hin. apply Hc, in_cons, Hin.
Qed.

Lemma first_char_nonspace w :
  fits wl w -> exists c, In c (String.list_ascii_of_string w) /\ is_js_space c = false.
Proof.
  destruct w as [|c r]; intros [Hw Hc]; [congruence|]. exists c. split; [apply in_eq|].
  destruct (wl c) as [n|] eqn:E; [|exfalso; exact (Hc c (in_eq _ _) E)].
  apply (wl_facts c n E).
Qed.

Lemma enc_word_nonspace w :
  fits wl w -> exists c, In c (String.list_ascii_of_string (enc_word wl w)) /\ is_js_space c = false.
Proof.
  intros Hw. pose proof (enc_nonempty w Hw) as Hnz. unfold enc_word, join_numbers.
  pose proof (enc_word_digits w) as Hd.
  destruct (omap wl (String.list_ascii_of_string w)) as [|n ns] eqn:E; [congruence|].
  inversion Hd as [|? ? [Hne Hn] _]; subst. unfold digits_only in Hn.
  destruct (String.list_ascii_of_string (pretty n)) as [|c0 r] eqn:Ep.
  { exfalso. apply list_ascii_nil in Ep. contradiction. }
  exists c0. split.
  - cbn [map]. apply in_concat_head. rewrite Ep. apply in_eq.
  - inversion Hn; tauto.
Qed.

Lemma enc_word_no_tab w :
  ~ In TAB (String.list_ascii_of_string (enc_word wl w)).
Proof.
  intros Hin. unfold enc_word, join_numbers in Hin.
  assert (H : Forall (fun ch => ch <> TAB)
                (String.list_ascii_of_string
                   (String.concat WAVELENGTH_SEPARATOR
                      (map pretty (omap wl (String.list_ascii_of_string w)))))).
  { apply concat_forall.
    - apply List.Forall_cons; [discriminate|constructor].
    - apply Forall_map. eapply Forall_impl; [apply enc_word_digits|].
      intros n [_ Hd]. eapply Forall_impl; [exact Hd|].
      intros ch [_ Hs] ->. discriminate Hs. }
  eapply List.Forall_forall in H; [|exact Hin]. congruence.
Qed.

Lemma decode_text_words ws :
  Forall (fits wl) ws ->
  decode_text table unknown (String.concat WORD_SEPARATOR (map (enc_word wl) ws)) =
  String.concat " " (map (fun w => String.concat "" (map dec (String.list_ascii_of_string w))) ws).
Proof.
  intros Hws. destruct ws as [|w m]; [reflexivity|].
  unfold decode_text.
  inversion Hws as [|? ? Hw _]; subst.
  destruct (enc_word_nonspace w Hw) as (c & Hin & Hs).
  rewrite (blank_false _ c); [|cbn [map]; apply in_concat_head, Hin|exact Hs].
  unfold WORD_SEPARATOR. rewrite split_on_concat.
  2:{ discriminate. }
  2:{ apply Forall_map, Forall_forall. intros; apply enc_word_no_tab. }
  f_equal. clear c Hin Hs Hw.
  induction Hws as [|x r Hx Hr IH]; [reflexivity|].
  cbn [map]. rewrite omap_cons_eq.
  destruct (enc_word_nonspace x Hx) as (c & Hin & Hs).
  pose proof (blank_false _ c Hin Hs) as Hb. unfold blank in Hb.
  apply orb_false_iff in Hb as [_ Hb]. rewrite Hb, decode_word_enc, IH by assumption.
  reflexivity.
Qed.
End CodecRoundTrip.

(** The extended codec instantiates the section with [char_wavelength]. *)
Lemma encode_step_char words cur c w :
  char_wavelength c = Some w ->
  encode_step (words, cur) c = (words, (cur ++ [w])%list).
Proof.
  intros E. destruct (char_wavelength_facts c w E) as (Hb & _).
  unfold encode_step. rewrite Hb, E. reflexivity.
Qed.

Lemma encode_step_break words x cur c :
  is_word_break c = true ->
  encode_step (words, x :: cur) c = ((words ++ [join_numbers (x :: cur)])%list, []).
Proof. intros Hb. unfold encode_step. rewrite Hb. reflexivity. Qed.

Lemma char_wavelength_fits_facts c w :
  char_wavelength c = Some w ->
  is_word_break c = false /\ is_js_space c = false /\ WAVELENGTH_TO_CHAR !! w = Some (to_upper_char c) /\
  to_upper_char c <> "" /\ parseInt (trim (pretty w)) 10 = Some w /\ pretty w <> "" /\ digits_only (pretty w).
Proof. exact (char_wavelength_facts c w). Qed.

Lemma concat_empty_upper w :
  String.concat "" (map to_upper_char (String.list_ascii_of_string w)) = toUpperCase w.
Proof.
  induction w as [|c w IH]; [reflexivity|].
  cbn [String.list_ascii_of_string map]. rewrite concat_cons_eq.
  destruct (map to_upper_char (String.list_ascii_of_string w)) as [|y m] eqn:E.
  - destruct w; [|discriminate]. cbn [toUpperCase]. now rewrite string_app_nil_r.
  - cbv beta iota. rewrite IH. reflexivity.
Qed.

Lemma textToWavelengthFormat_words ws :
  Forall (fits char_wavelength) ws ->
  textToWavelengthFormat (String.concat " " ws) =
  String.concat WORD_SEPARATOR (map (enc_word char_wavelength) ws).
Proof.
  intros Hws. destruct ws as [|w m]; [reflexivity|].
  unfold textToWavelengthFormat.
  inversion Hws as [|? ? Hw _]; subst.
  destruct (first_char_nonspace char_wavelength WAVELENGTH_TO_CHAR to_upper_char
              char_wavelength_fits_facts w Hw) as (c & Hin & Hs).
  rewrite (blank_false _ c); [|apply in_concat_head, Hin|exact Hs].
  rewrite (encode_fold_words char_wavelength encode_step encode_step_char encode_step_break)
    by (discriminate || exact Hws).
  reflexivity.
Qed.

(** X1: decoding the encoding of words joined by single spaces gives back
    the upper-cased words joined by single spaces, when every word is
    non-empty and each of its characters has a wavelength. *)
Theorem wavelength_round_trip ws :
  Forall (fun w => w <> "" /\ forall c, In c (String.list_ascii_of_string w) -> char_wavelength c <> None) ws ->
  wavelengthFormatToText (textToWavelengthFormat (String.concat " " ws)) =
  String.concat " " (map toUpperCase ws).
Proof.
  intros Hws. change (Forall (fits char_wavelength) ws) in Hws.
  rewrite textToWavelengthFormat_words by exact Hws.
  unfold wavelengthFormatToText.
  rewrite (decode_text_words char_wavelength WAVELENGTH_TO_CHAR PLACEHOLDER to_upper_char
             char_wavelength_fits_facts ws Hws).
  f_equal. apply map_ext. apply concat_empty_upper.
Qed.

Lemma wavelength_round_trip_witness :
  Forall (fun w => w <> "" /\ forall c, In c (String.list_ascii_of_string w) -> char_wavelength c <> None)
         ["Hello,"; "world!"] /\
  wavelengthFormatToText (textToWavelengthFormat (String.concat " " ["Hello,"; "world!"])) =
  String.concat " " (map toUpperCase ["Hello,"; "world!"]).
Proof.
  assert (H : Forall (fun w => w <> "" /\ forall c, In c (String.list_ascii_of_string w) -> char_wavelength c <> None)
                     ["Hello,"; "world!"]).
  { repeat constructor; try discriminate;
    intros c Hin; repeat (destruct Hin as [<-|Hin]; [vm_compute; discriminate|]); destruct Hin. }
  split; [exact H|]. apply (wavelength_round_trip _ H).
Defined.

Lemma encode_step_shape : step_shape encode_step.
Proof.
  intros words cur c. unfold encode_step. destruct (is_word_break c).
  - destruct cur as [|n ns]; [now left|]. right; right. split; [discriminate|reflexivity].
  - destruct (char_wavelength c) as [n|] eqn:E; [|now left].
    right; left. exists n. split; [|reflexivity].
    destruct (char_wavelength_facts c n E) as (_ & _ & _ & _ & _ & Hne & Hd). now split.
Qed.

Lemma close_word_ok words cur :
  Forall encoded_word_ok words -> Forall numeral_ok cur -> cur <> [] ->
  Forall encoded_word_ok (words ++ [join_numbers cur])%list.
Proof.
  intros Hw Hc Hne. destruct cur as [|n ns]; [congruence|].
  apply Forall_app; split; [exact Hw|]. inversion Hc as [|? ? Hn Hns]; subst.
  apply List.Forall_cons; [|constructor]. exists n, ns. exact (conj Hn (conj Hns eq_refl)).
Qed.

Lemma encode_fold_inv step l words cur :
  step_shape step ->
  Forall encoded_word_ok words -> Forall numeral_ok cur ->
  Forall encoded_word_ok (flush_word (fold_left step l (words, cur))).
Proof.
  intros Hstep. revert words cur. induction l as [|c l IH]; intros words cur Hw Hc; cbn [fold_left].
  - unfold flush_word. destruct cur as [|n ns]; [exact Hw|].
    apply close_word_ok; [exact Hw|exact Hc|discriminate].
  - destruct (Hstep words cur c) as [E|[(n & Hn & E)|[Hne E]]]; rewrite E; apply IH.
    + exact Hw.
    + exact Hc.
    + exact Hw.
    + apply Forall_app; split; [exact Hc|]. apply List.Forall_cons; [exact Hn|constructor].
    + exact (close_word_ok words cur Hw Hc Hne).
    + constructor.
Qed.

Lemma numeral_chars n :
  numeral_ok n ->
  Forall (fun c => (match digit_of 10 c with Some _ => true | None => false end || is_js_space c) = true)
         (String.list_ascii_of_string (pretty n)).
Proof.
  intros [_ Hd]. eapply Forall_impl; [exact Hd|]. intros c [[d Hc] _]. now rewrite Hc.
Qed.

Lemma encoded_word_facts x :
  encoded_word_ok x ->
  (exists c, In c (String.list_ascii_of_string x) /\ is_js_space c = false) /\
  Forall (fun c => (match digit_of 10 c with Some _ => true | None => false end || is_js_space c) = true)
         (String.list_ascii_of_string x).
Proof.
  intros (n & ns & Hn & Hns & ->). unfold join_numbers. split.
  - destruct Hn as [Hne Hd]. unfold digits_only in Hd.
    destruct (String.list_ascii_of_string (pretty n)) as [|c r] eqn:Ep.
    + exfalso. apply list_ascii_nil in Ep. contradiction.
    + exists c. split.
      * cbn [map]. apply in_concat_head. rewrite Ep. apply in_eq.
      * inversion Hd; tauto.
  - apply concat_forall.
    + apply List.Forall_cons; [reflexivity|constructor].
    + apply Forall_map. apply List.Forall_cons; [now apply numeral_chars|].
      eapply Forall_impl; [exact Hns|]. apply numeral_chars.
Qed.

Lemma isWavelengthFormat_words ws :
  Forall encoded_word_ok ws ->
  isWavelengthFormat (String.concat WORD_SEPARATOR ws) =
  negb (String.eqb (String.concat WORD_SEPARATOR ws) "").
Proof.
  intros H. destruct ws as [|x xs]; [reflexivity|].
  inversion H as [|? ? Hx Hxs]; subst.
  destruct (encoded_word_facts x Hx) as [(c & Hin & Hs) _].
  assert (Hin' : In c (String.list_ascii_of_string (String.concat WORD_SEPARATOR (x :: xs)))).
  { now apply in_concat_head. }
  unfold isWavelengthFormat. rewrite (blank_false _ c Hin' Hs).
  assert (Hne : String.eqb (String.concat WORD_SEPARATOR (x :: xs)) "" = false).
  { destruct (String.concat WORD_SEPARATOR (x :: xs)); [contradiction|reflexivity]. }
  rewrite Hne. apply List.forallb_forall, List.Forall_forall.
  apply concat_forall.
  - apply List.Forall_cons; [reflexivity|constructor].
  - eapply Forall_impl; [exact H|]. intros y Hy. apply (encoded_word_facts y Hy).
Qed.

(** X2: [isWavelengthFormat] accepts the output of [textToWavelengthFormat]
    exactly when that output is non-empty. *)
Theorem isWavelengthFormat_textToWavelengthFormat t :
  isWavelengthFormat (textToWavelengthFormat t) =
  negb (String.eqb (textToWavelengthFormat t) "").
Proof.
  unfold textToWavelengthFormat. destruct (blank t); [reflexivity|].
  apply isWavelengthFormat_words, (encode_fold_inv encode_step _ [] [] encode_step_shape);
    constructor.
Qed.

Lemma byte_hex_check_all : forallb byte_hex_check (map Z.of_nat (seq 0 256)) = true.
Proof. vm_compute. reflexivity. Qed.

Lemma byte_hex_facts b :
  (0 <= b < 256)%Z ->
  exists c1 c2, padStart 2 "0" (number_toString b 16) = String c1 (String c2 "") /\
    parseInt (String c1 (String c2 "")) 16 = Some b /\
    is_lower_hex c1 = true /\ is_lower_hex c2 = true.
Proof.
  intros Hb. pose proof byte_hex_check_all as H. rewrite List.forallb_forall in H.
  specialize (H b). unfold byte_hex_check in H.
  assert (Hin : In b (map Z.of_nat (seq 0 256))).
  { apply in_map_iff. exists (Z.to_nat b). split; [lia|]. apply in_seq. lia. }
  specialize (H Hin).
  destruct (padStart 2 "0" (number_toString b 16)) as [|c1 [|c2 [|c3 r]]]; try discriminate.
  apply andb_prop in H as [H H2]. apply andb_prop in H as [H H1].
  apply bool_decide_eq_true in H. exists c1, c2. auto.
Qed.

Lemma bufferToHex_cons b bs :
  bufferToHex (b :: bs) = (padStart 2 "0" (number_toString b 16) ++ bufferToHex bs)%string.
Proof.
  unfold bufferToHex. cbn [map]. rewrite concat_cons_eq.
  destruct bs; [cbn [map String.concat]; now rewrite string_app_nil_r|reflexivity].
Qed.

Lemma string_length_list s : String.length s = length (String.list_ascii_of_string s).
Proof. induction s; simpl; congruence. Qed.

Lemma hex_fill_bufferToHex bs pre :
  Forall (fun b => 0 <= b < 256)%Z bs ->
  hex_fill (String.list_ascii_of_string (bufferToHex bs)) (length pre)
           (pre ++ repeat 0%Z (length bs)) = (pre ++ bs)%list.
Proof.
  intros Hbs. revert pre. induction Hbs as [|b bs Hb Hbs IH]; intros pre.
  - reflexivity.
  - destruct (byte_hex_facts b Hb) as (c1 & c2 & Hpad & Hp & _ & _).
    rewrite bufferToHex_cons, Hpad, list_ascii_app.
    cbn [String.list_ascii_of_string app hex_fill take String.string_of_list_ascii repeat length].
    rewrite take_0. cbn [String.string_of_list_ascii]. rewrite Hp. unfold ToUint8. rewrite Z.mod_small by lia.
    rewrite insert_app_r_alt by lia. rewrite Nat.sub_diag. cbn [insert list_insert].
    replace (S (length pre)) with (length (pre ++ [b])%list) by (rewrite length_app; simpl; lia).
    replace ((pre ++ b :: repeat 0%Z (length bs))%list) with ((pre ++ [b]) ++ repeat 0%Z (length bs))%list
      by (rewrite <- app_assoc; reflexivity).
    rewrite IH, <- app_assoc. reflexivity.
Qed.

Theorem bufferToHex_shape bs :
  Forall (fun b => 0 <= b < 256)%Z bs ->
  String.length (bufferToHex bs) = 2 * length bs /\
  forallb is_lower_hex (String.list_ascii_of_string (bufferToHex bs)) = true.
Proof.
  intros Hbs. induction Hbs as [|b bs Hb Hbs [IHl IHh]]; [split; reflexivity|].
  destruct (byte_hex_facts b Hb) as (c1 & c2 & Hpad & _ & H1 & H2).
  rewrite bufferToHex_cons, Hpad. split.
  - rewrite string_length_list in IHl |- *. rewrite list_ascii_app, length_app, IHl.
    simpl. lia.
  - rewrite list_ascii_app, forallb_app, IHh. simpl. now rewrite H1, H2.
Qed.

(** X5: [hexToBuffer] gives back the bytes that [bufferToHex] encoded. *)
Theorem hexToBuffer_bufferToHex bs :
  Forall (fun b => 0 <= b < 256)%Z bs -> hexToBuffer (bufferToHex bs) = bs.
Proof.
  intros Hbs. unfold hexToBuffer.
  destruct (bufferToHex_shape bs Hbs) as [Hl _]. rewrite Hl.
  replace (2 * length bs / 2) with (length bs) by (rewrite Nat.mul_comm, Nat.div_mul; lia).
  exact (hex_fill_bufferToHex bs [] Hbs).
Qed.

(** X8: for a 16-byte buffer, [generateNonce] returns 32 characters, all
    lower-case hexadecimal digits. *)
Theorem generateNonce_shape buffer :
  length buffer = 16 -> Forall (fun b => 0 <= b < 256)%Z buffer ->
  String.length (generateNonce buffer) = 32 /\
  forallb is_lower_hex (String.list_ascii_of_string (generateNonce buffer)) = true.
Proof.
  intros Hl Hb. unfold generateNonce.
  destruct (bufferToHex_shape buffer Hb) as [H1 H2].
  split; [rewrite H1, Hl; reflexivity|exact H2].
Qed.

Lemma generateNonce_shape_witness :
  length (map Z.of_nat (seq 240 16)) = 16 /\ Forall (fun b => 0 <= b < 256)%Z (map Z.of_nat (seq 240 16)) /\
  String.length (generateNonce (map Z.of_nat (seq 240 16))) = 32 /\
  forallb is_lower_hex (String.list_ascii_of_string (generateNonce (map Z.of_nat (seq 240 16)))) = true.
Proof.
  assert (Hl : length (map Z.of_nat (seq 240 16)) = 16) by reflexivity.
  assert (Hb : Forall (fun b => 0 <= b < 256)%Z (map Z.of_nat (seq 240 16))) by (cbn; repeat constructor; lia).
  split; [exact Hl|split; [exact Hb|exact (generateNonce_shape _ Hl Hb)]].
Defined.

Lemma hex_fill_length l i bytes : length (hex_fill l i bytes) = length bytes.
Proof.
  revert l i bytes. fix IH 1. intros l i bytes. destruct l as [|c rest]; [reflexivity|].
  cbn [hex_fill]. destruct rest as [|c' rest].
  - apply length_insert.
  - rewrite IH. apply length_insert.
Qed.

Lemma hex_fill_range l i bytes :
  Forall (fun b => 0 <= b < 256)%Z bytes ->
  Forall (fun b => 0 <= b < 256)%Z (hex_fill l i bytes).
Proof.
  revert l i bytes. fix IH 1. intros l i bytes Hb. destruct l as [|c rest]; [exact Hb|].
  assert (Hins : forall v, Forall (fun b => 0 <= b < 256)%Z (<[i := ToUint8 v]> bytes)).
  { intros v. apply Forall_insert; [exact Hb|]. destruct v; simpl; [apply Z.mod_pos_bound|]; lia. }
  cbn [hex_fill]. destruct rest as [|c' rest]; [apply Hins|]. apply IH, Hins.
Qed.

(** X6: whatever the string, [hexToBuffer] returns half its length (rounded
    down) in bytes, each in 0..255; it never fails. *)
Theorem hexToBuffer_length_range h :
  length (hexToBuffer h) = String.length h / 2 /\
  Forall (fun b => 0 <= b < 256)%Z (hexToBuffer h).
Proof.
  unfold hexToBuffer. split.
  - now rewrite hex_fill_length, repeat_length.
  - apply hex_fill_range, List.Forall_forall. intros b Hb. apply repeat_spec in Hb. lia.
Qed.

Lemma hex_fill_snoc n l c i bytes :
  length l = 2 * n ->
  hex_fill (l ++ [c]) i bytes =
  <[i + n := ToUint8 (parseInt (String c "") 16)]> (hex_fill l i bytes).
Proof.
  revert l i bytes. induction n as [|n IH]; intros l i bytes Hl.
  - destruct l; [|discriminate]. now rewrite Nat.add_0_r.
  - destruct l as [|c1 [|c2 l]]; try (simpl in Hl; lia).
    cbn [app hex_fill firstn].
    replace (i + S n) with (S i + n) by lia.
    rewrite <- (IH l (S i)) by (simpl in Hl; lia).
    destruct l as [|c3 l]; reflexivity.
Qed.

(** X7: a trailing odd character is ignored by [hexToBuffer]. *)
Theorem hexToBuffer_odd_tail h c :
  Nat.Even (String.length h) -> hexToBuffer (h ++ String c "") = hexToBuffer h.
Proof.
  intros [n Hn]. unfold hexToBuffer.
  rewrite !string_length_list, !list_ascii_app, length_app.
  rewrite string_length_list in Hn. cbn [String.list_ascii_of_string length].
  rewrite hex_fill_snoc with (n := n) by lia.
  replace ((length (String.list_ascii_of_string h) + 1) / 2) with n.
  2:{ rewrite Hn. apply Nat.div_unique with (r := 1); lia. }
  replace (length (String.list_ascii_of_string h) / 2) with n.
  2:{ rewrite Hn. apply Nat.div_unique with (r := 0); lia. }
  apply list_insert_ge. rewrite hex_fill_length, repeat_length. lia.
Qed.

Lemma hexToBuffer_odd_tail_witness :
  Nat.Even (String.length "ab") /\ hexToBuffer ("ab" ++ String "c" "") = hexToBuffer "ab".
Proof.
  assert (H : Nat.Even (String.length "ab")) by (exists 1; reflexivity).
  split; [exact H|]. apply (hexToBuffer_odd_tail "ab" "c" H).
Defined.

Lemma hexToBuffer_bufferToHex_witness :
  Forall (fun b => 0 <= b < 256)%Z [0; 171; 255]%Z /\ hexToBuffer (bufferToHex [0; 171; 255]%Z) = [0; 171; 255]%Z.
Proof.
  assert (H : Forall (fun b => 0 <= b < 256)%Z [0; 171; 255]%Z) by (repeat constructor; lia).
  split; [exact H|]. apply (hexToBuffer_bufferToHex _ H).
Defined.


(* keyed store *)
Lemma ascii_compare_refl a : Ascii.compare a a = Eq.
Proof. unfold Ascii.compare. apply N.compare_refl. Qed.

Lemma ascii_compare_trans a b c :
  Ascii.compare a b = Lt -> Ascii.compare b c = Lt -> Ascii.compare a c = Lt.
Proof. unfold Ascii.compare. rewrite !N.compare_lt_iff. lia. Qed.

Lemma string_compare_trans a b c :
  String.compare a b = Lt -> String.compare b c = Lt -> String.compare a c = Lt.
Proof.
  revert b c. induction a as [|x a IH]; intros [|y b] [|z c]; cbn [String.compare]; try congruence.
  destruct (Ascii.compare x y) eqn:Exy; try discriminate;
  destruct (Ascii.compare y z) eqn:Eyz; try discriminate; intros H1 H2.
  - apply Ascii.compare_eq_iff in Exy, Eyz. subst. rewrite ascii_compare_refl. eauto.
  - apply Ascii.compare_eq_iff in Exy. subst. now rewrite Eyz.
  - apply Ascii.compare_eq_iff in Eyz. subst. now rewrite Exy.
  - now rewrite (ascii_compare_trans _ _ _ Exy Eyz).
Qed.

Lemma string_compare_refl a : String.compare a a = Eq.
Proof. induction a; cbn [String.compare]; [reflexivity|]. now rewrite ascii_compare_refl. Qed.

Lemma string_compare_lt_neq a b : String.compare a b = Lt -> a <> b.
Proof. intros H ->. rewrite string_compare_refl in H. discriminate. Qed.

Lemma string_compare_gt_lt a b : String.compare a b = Gt -> String.compare b a = Lt.
Proof. intros H. rewrite String.compare_antisym, H. reflexivity. Qed.

Lemma filter_iff_in {B} (P1 P2 : B -> Prop)
    `{!forall x, Decision (P1 x), !forall x, Decision (P2 x)} (l : list B) :
  (forall x, In x l -> (P1 x <-> P2 x)) -> filter P1 l = filter P2 l.
Proof.
  intros Hl. induction l as [|a l IH]; [reflexivity|].
  assert (Ha : P1 a <-> P2 a) by (apply Hl, in_eq).
  assert (Hr : forall x, In x l -> (P1 x <-> P2 x)) by (intros x Hx; apply Hl, in_cons, Hx).
  destruct (decide (P1 a)) as [H1|H1].
  - rewrite !filter_cons_True by tauto. f_equal. now apply IH.
  - rewrite !filter_cons_False by tauto. now apply IH.
Qed.

Section KeyedStoreFacts.
Context {A : Type} (key : A -> string).

Lemma kget_kput v k s :
  kget key k (kput key v s) = if String.eqb k (key v) then Some v else kget key k s.
Proof.
  unfold kget. induction s as [|x r IH]; cbn [kput List.find].
  - rewrite String.eqb_sym. now destruct (String.eqb (key v) k).
  - destruct (String.compare (key v) (key x)) eqn:E; cbn [List.find].
    + apply String.compare_eq_iff in E. rewrite <- E, (String.eqb_sym k).
      destruct (String.eqb (key v) k); reflexivity.
    + rewrite String.eqb_sym. destruct (String.eqb (key v) k); reflexivity.
    + rewrite IH. destruct (String.eqb (key x) k) eqn:Ex.
      * apply String.eqb_eq in Ex. subst k.
        destruct (String.eqb (key x) (key v)) eqn:Ev; [|reflexivity].
        apply String.eqb_eq in Ev. rewrite Ev, string_compare_refl in E. discriminate.
      * reflexivity.
Qed.

Lemma kput_keys v s y :
  In y (map key (kput key v s)) -> y = key v \/ In y (map key s).
Proof.
  induction s as [|x r IH]; cbn [kput].
  - intros [<-|[]]. now left.
  - destruct (String.compare (key v) (key x)) eqn:E; cbn [map]; intros [Hy|Hy].
    + now left.
    + right; now right.
    + now left.
    + right; exact Hy.
    + right; left; exact Hy.
    + destruct (IH Hy) as [->|H]; [now left|right; now right].
Qed.

Lemma kok_kput v s : kok key s -> kok key (kput key v s).
Proof.
  unfold kok. induction s as [|x r IH]; intros Hs; cbn [kput].
  - repeat constructor.
  - inversion Hs as [|? ? Hr Hx]; subst.
    destruct (String.compare (key v) (key x)) eqn:E; cbn [map] in *.
    + apply String.compare_eq_iff in E. rewrite E. constructor; assumption.
    + constructor; [constructor; assumption|]. constructor; [exact E|].
      eapply Forall_impl; [exact Hx|]. intros y Hy. eapply string_compare_trans; eassumption.
    + constructor; [now apply IH|]. apply List.Forall_forall. intros y Hy.
      destruct (kput_keys v r y Hy) as [->|H].
      * now apply string_compare_gt_lt.
      * eapply List.Forall_forall in Hx; [|exact H]. exact Hx.
Qed.

Lemma kok_cons_inv x r : kok key (x :: r) -> kok key r /\ Forall (fun y => String.compare (key x) (key y) = Lt) r.
Proof.
  unfold kok. cbn [map]. intros H. inversion H as [|? ? Hr Hx]; subst. split; [exact Hr|].
  now apply Forall_map in Hx.
Qed.

Lemma kput_at v s i x :
  kok key s -> s !! i = Some x -> key x = key v -> kput key v s = <[i := v]> s.
Proof.
  revert i. induction s as [|y r IH]; intros i Hs Hi Hk; [discriminate|].
  apply kok_cons_inv in Hs as [Hr Hy]. cbn [kput]. destruct i as [|j].
  - injection Hi as <-. rewrite <- Hk, string_compare_refl. reflexivity.
  - cbn in Hi. assert (Hlt : String.compare (key y) (key x) = Lt).
    { eapply List.Forall_forall in Hy; [exact Hy|]. eapply list_elem_of_lookup_2 in Hi.
      now apply list_elem_of_In. }
    rewrite <- Hk, String.compare_antisym, Hlt. cbn. now rewrite (IH j Hr Hi Hk).
Qed.

Lemma kok_unique s x y : kok key s -> In x s -> In y s -> key x = key y -> x = y.
Proof.
  induction s as [|z r IH]; intros Hs Hx Hy Hk; [destruct Hx|].
  apply kok_cons_inv in Hs as [Hr Hz].
  destruct Hx as [<-|Hx]; destruct Hy as [<-|Hy]; auto.
  - eapply List.Forall_forall in Hz; [|exact Hy]. rewrite Hk, string_compare_refl in Hz. discriminate.
  - eapply List.Forall_forall in Hz; [|exact Hx]. rewrite Hk, string_compare_refl in Hz. discriminate.
Qed.

Lemma kok_nodup s : kok key s -> NoDup (map key s).
Proof.
  unfold kok. induction s as [|x r IH]; intros Hs; cbn [map] in *; [constructor|].
  inversion Hs as [|? ? Hr Hx]; subst. constructor; [|now apply IH].
  intros Hin%list_elem_of_In. eapply List.Forall_forall in Hx; [|exact Hin]. rewrite string_compare_refl in Hx. discriminate.
Qed.

Lemma kput_in v s z :
  kok key s -> In z (kput key v s) <-> z = v \/ (In z s /\ key z <> key v).
Proof.
  intros Hs. induction s as [|x r IH]; cbn [kput].
  - split; [intros [<-|[]]; now left|intros [->|[[] _]]; now left].
  - apply kok_cons_inv in Hs as [Hr Hx]. specialize (IH Hr).
    destruct (String.compare (key v) (key x)) eqn:E.
    + apply String.compare_eq_iff in E. split.
      * intros [<-|Hz]; [now left|right]. split; [now right|].
        eapply List.Forall_forall in Hx; [|exact Hz]. intros Hk.
        rewrite Hk, <- E, string_compare_refl in Hx. discriminate.
      * intros [<-|[[<-|Hz] Hk]]; [now left|congruence|now right].
    + split.
      * intros [<-|Hz]; [now left|right]. split; [exact Hz|]. intros Hk.
        destruct Hz as [<-|Hz].
        -- rewrite Hk, string_compare_refl in E. discriminate.
        -- eapply List.Forall_forall in Hx; [|exact Hz].
           pose proof (string_compare_trans _ _ _ E Hx) as H. rewrite Hk, string_compare_refl in H. discriminate.
      * intros [<-|[Hz _]]; [now left|now right].
    + split.
      * intros [<-|Hz]; [right; split; [now left|]|].
        -- intros Hk. rewrite Hk, string_compare_refl in E. discriminate.
        -- apply IH in Hz as [->|[Hz Hk]]; [now left|right; split; [now right|exact Hk]].
      * intros [->|[[<-|Hz] Hk]]; [right; apply IH; now left|now left|right; apply IH; now right].
Qed.

Lemma filter_kput_replace (p : A -> bool) v s :
  kok key s -> In (key v) (map key s) -> p v = false ->
  filter (fun x => p x = true) (kput key v s) =
  filter (fun x => p x && negb (String.eqb (key x) (key v)) = true) s.
Proof.
  intros Hs Hin Hp. induction s as [|x r IH]; [destruct Hin|].
  apply kok_cons_inv in Hs as [Hr Hx]. cbn [kput].
  assert (Hrest : forall y, In y r -> key y <> key x).
  { intros y Hy Hk. eapply List.Forall_forall in Hx; [|exact Hy]. rewrite Hk, string_compare_refl in Hx. discriminate. }
  destruct (String.compare (key v) (key x)) eqn:E.
  - apply String.compare_eq_iff in E.
    rewrite filter_cons_False by (rewrite Hp; discriminate).
    rewrite filter_cons_False by (rewrite E, String.eqb_refl, andb_false_r; discriminate).
    apply filter_iff_in. intros y Hy. rewrite E.
    destruct (String.eqb (key y) (key x)) eqn:Eq; [|now rewrite andb_true_r].
    apply String.eqb_eq in Eq. exfalso. exact (Hrest y Hy Eq).
  - exfalso. cbn [map] in Hin. destruct Hin as [Hk|Hin].
    + rewrite Hk, string_compare_refl in E. discriminate.
    + apply in_map_iff in Hin as (y & Hk & Hy). eapply List.Forall_forall in Hx; [|exact Hy].
      pose proof (string_compare_trans _ _ _ E Hx) as H. rewrite Hk, string_compare_refl in H. discriminate.
  - assert (Hne : key x <> key v).
    { intros Hk. rewrite Hk, string_compare_refl in E. discriminate. }
    cbn [map] in Hin. destruct Hin as [Hk|Hin]; [congruence|].
    destruct (p x) eqn:Epx.
    + rewrite !filter_cons_True; [| |rewrite Epx; reflexivity].
      2:{ rewrite Epx. apply String.eqb_neq in Hne. rewrite Hne. reflexivity. }
      rewrite IH by assumption. reflexivity.
    + rewrite !filter_cons_False; [| |rewrite Epx; discriminate].
      2:{ rewrite Epx. discriminate. }
      now apply IH.
Qed.
End KeyedStoreFacts.

Lemma store_put_kput v s : store_put v s = kput vertexHash v s.
Proof. induction s as [|x r IH]; cbn [store_put kput]; [reflexivity|]. now rewrite IH. Qed.

Section SortDesc.
Variable key : DagVertex -> Z.

Lemma insert_desc_by_perm v l : Permutation (v :: l) (insert_desc_by key v l).
Proof.
  induction l as [|x r IH]; cbn [insert_desc_by]; [reflexivity|].
  destruct (key x <? key v)%Z; [reflexivity|].
  etransitivity; [apply perm_swap|]. now apply perm_skip.
Qed.

Lemma insert_desc_by_sorted v l :
  StronglySorted (fun a b => (key b <= key a)%Z) l ->
  StronglySorted (fun a b => (key b <= key a)%Z) (insert_desc_by key v l).
Proof.
  induction l as [|x r IH]; intros Hs; cbn [insert_desc_by]; [repeat constructor|].
  inversion Hs as [|? ? Hr Hx]; subst.
  destruct (key x <? key v)%Z eqn:E.
  - apply Z.ltb_lt in E. constructor; [exact Hs|]. constructor; [lia|].
    eapply Forall_impl; [exact Hx|]. intros y Hy. cbv beta in *. lia.
  - apply Z.ltb_ge in E. constructor; [now apply IH|].
    apply List.Forall_forall. intros y Hy.
    apply (Permutation_in _ (Permutation_sym (insert_desc_by_perm v r))) in Hy.
    destruct Hy as [<-|Hy]; [exact E|]. eapply List.Forall_forall in Hx; [exact Hx|exact Hy].
Qed.

Lemma sort_desc_by_spec l :
  Permutation l (sort_desc_by key l) /\
  StronglySorted (fun a b => (key b <= key a)%Z) (sort_desc_by key l).
Proof.
  unfold sort_desc_by.
  assert (H : forall acc, StronglySorted (fun a b => (key b <= key a)%Z) acc ->
            Permutation (l ++ acc) (fold_left (fun acc v => insert_desc_by key v acc) l acc) /\
            StronglySorted (fun a b => (key b <= key a)%Z) (fold_left (fun acc v => insert_desc_by key v acc) l acc)).
  { induction l as [|x r IH]; intros acc Hacc; cbn [fold_left app]; [split; [reflexivity|exact Hacc]|].
    destruct (IH (insert_desc_by key x acc) (insert_desc_by_sorted x acc Hacc)) as [Hp Hs].
    split; [|exact Hs]. rewrite <- Hp.
    etransitivity; [apply Permutation_middle|]. apply Permutation_app_head, insert_desc_by_perm. }
  destruct (H [] (SSorted_nil _)) as [Hp Hs]. rewrite app_nil_r in Hp. now split.
Qed.
End SortDesc.

Lemma slice0_take {A} (l : list A) e : exists n, DAGStorage.slice0 l e = take n l.
Proof. unfold DAGStorage.slice0. destruct (e <? 0)%Z; eexists; reflexivity. Qed.

Lemma slice0_length {A} (l : list A) e :
  (0 <= e)%Z -> (Z.of_nat (length (DAGStorage.slice0 l e)) <= e)%Z.
Proof.
  intros He. unfold DAGStorage.slice0. destruct (e <? 0)%Z eqn:E; [lia|].
  rewrite length_take. lia.
Qed.

Lemma slice0_sub {A} (l : list A) e x : In x (DAGStorage.slice0 l e) -> In x l.
Proof. destruct (slice0_take l e) as [n ->]. intros H. rewrite <- (take_drop n l). apply in_or_app. now left. Qed.

Lemma StronglySorted_app_rel {B} (R : B -> B -> Prop) l1 l2 x y :
  StronglySorted R (l1 ++ l2) -> In x l1 -> In y l2 -> R x y.
Proof.
  induction l1 as [|z r IH]; intros Hs Hx Hy; [destruct Hx|].
  inversion Hs as [|? ? Hr Hz]; subst. destruct Hx as [<-|Hx].
  - eapply List.Forall_forall in Hz; [exact Hz|]. apply in_or_app; now right.
  - now apply IH.
Qed.

Lemma StronglySorted_app_l {B} (R : B -> B -> Prop) l1 l2 :
  StronglySorted R (l1 ++ l2) -> StronglySorted R l1.
Proof.
  induction l1 as [|z r IH]; intros Hs; [constructor|].
  inversion Hs as [|? ? Hr Hz]; subst. constructor; [now apply IH|].
  apply Forall_app in Hz. tauto.
Qed.

Lemma StronglySorted_slice0 {B} (R : B -> B -> Prop) l e :
  StronglySorted R l -> StronglySorted R (DAGStorage.slice0 l e).
Proof.
  destruct (slice0_take l e) as [n ->]. intros Hs.
  rewrite <- (take_drop n l) in Hs. now apply StronglySorted_app_l in Hs.
Qed.

Lemma slice0_sorted_top key l e x y :
  In x (DAGStorage.slice0 (sort_desc_by key l) e) -> In y l -> (key x < key y)%Z ->
  In y (DAGStorage.slice0 (sort_desc_by key l) e).
Proof.
  intros Hx Hy Hlt. destruct (sort_desc_by_spec key l) as [Hp Hs].
  destruct (slice0_take (sort_desc_by key l) e) as [n Hn]. rewrite Hn in *.
  apply (Permutation_in _ Hp) in Hy. rewrite <- (take_drop n (sort_desc_by key l)) in Hy, Hs.
  apply in_app_or in Hy as [Hy|Hy]; [exact Hy|].
  pose proof (StronglySorted_app_rel _ _ _ _ _ Hs Hx Hy). cbv beta in *. lia.
Qed.

Lemma filter_In_iff {B} (P : B -> Prop) `{!forall x, Decision (P x)} l x :
  In x (filter P l) <-> P x /\ In x l.
Proof. rewrite <- !list_elem_of_In. apply list_elem_of_filter. Qed.

Lemma sort_desc_by_In key l x : In x (sort_desc_by key l) <-> In x l.
Proof.
  destruct (sort_desc_by_spec key l) as [Hp _].
  split; apply Permutation_in; [symmetry|]; exact Hp.
Qed.

(** X12: [getRecentVertices store limit] returns at most [limit] stored
    vertices that have a [createdAt], newest first, and any stored vertex
    newer than a returned one is returned too. *)
Theorem getRecentVertices_most_recent store limit :
  let r := DAGStorage.getRecentVertices store limit in
  ((0 <= limit)%Z -> (Z.of_nat (length r) <= limit)%Z) /\
  StronglySorted (fun a b => (DAGStorage.created_time b <= DAGStorage.created_time a)%Z) r /\
  (forall x, In x r -> In x store /\ createdAt x <> None) /\
  (forall x y, In x r -> In y store -> createdAt y <> None ->
     (DAGStorage.created_time x < DAGStorage.created_time y)%Z -> In y r).
Proof.
  unfold DAGStorage.getRecentVertices. cbv zeta.
  assert (Hin : forall y, In y (DAGStorage.byCreatedAt_getAll store) <-> In y store /\ createdAt y <> None).
  { intros y. unfold DAGStorage.byCreatedAt_getAll. rewrite sort_desc_by_In, filter_In_iff.
    split; intros [H1 H2]; split; auto.
    - intros E. rewrite E in H1. destruct H1; discriminate.
    - destruct (createdAt y); [eexists; reflexivity|congruence]. }
  split; [apply slice0_length|]. split.
  { apply StronglySorted_slice0, sort_desc_by_spec. }
  split.
  - intros x Hx. apply slice0_sub, sort_desc_by_In, Hin in Hx. exact Hx.
  - intros x y Hx Hy Hc Hlt. eapply slice0_sorted_top; [exact Hx| |exact Hlt].
    apply Hin. now split.
Qed.

(** X13: [getTips store count] returns at most [count] unanchored vertices
    among the 100 most recent, heaviest first, and any heavier unanchored
    one among those 100 is returned too. *)
Theorem getTips_heaviest_unanchored store count :
  let recent := DAGStorage.getRecentVertices store 100 in
  let r := DAGStorage.getTips store count in
  ((0 <= count)%Z -> (Z.of_nat (length r) <= count)%Z) /\
  StronglySorted (fun a b => (cumulativeWeight b <= cumulativeWeight a)%Z) r /\
  (forall x, In x r -> In x recent /\ is_unanchored x = true) /\
  (forall x y, In x r -> In y recent -> is_unanchored y = true ->
     (cumulativeWeight x < cumulativeWeight y)%Z -> In y r).
Proof.
  unfold DAGStorage.getTips. cbv zeta.
  split; [apply slice0_length|]. split.
  { apply StronglySorted_slice0, sort_desc_by_spec. }
  split.
  - intros x Hx. apply slice0_sub, sort_desc_by_In, filter_In_iff in Hx. tauto.
  - intros x y Hx Hy Hu Hlt. eapply slice0_sorted_top; [exact Hx| |exact Hlt].
    apply filter_In_iff. now split.
Qed.

(** X14: [getVerticesByNode store node limit] returns at most [limit]
    stored vertices of [node], newest first, and any newer vertex of
    [node] is returned too. *)
Theorem getVerticesByNode_most_recent store nodeId' limit :
  let r := DAGStorage.getVerticesByNode store nodeId' limit in
  ((0 <= limit)%Z -> (Z.of_nat (length r) <= limit)%Z) /\
  StronglySorted (fun a b => (DAGStorage.created_time b <= DAGStorage.created_time a)%Z) r /\
  (forall x, In x r -> In x store /\ nodeId x = nodeId') /\
  (forall x y, In x r -> In y store -> nodeId y = nodeId' ->
     (DAGStorage.created_time x < DAGStorage.created_time y)%Z -> In y r).
Proof.
  unfold DAGStorage.getVerticesByNode. cbv zeta.
  split; [apply slice0_length|]. split.
  { apply StronglySorted_slice0, sort_desc_by_spec. }
  split.
  - intros x Hx. apply slice0_sub, sort_desc_by_In, filter_In_iff in Hx. tauto.
  - intros x y Hx Hy Hn Hlt. eapply slice0_sorted_top; [exact Hx| |exact Hlt].
    apply filter_In_iff. now split.
Qed.

(** X11: after [addVertex v], [getVertex] returns [v] under its hash and
    what it returned before under any other hash. *)
Theorem getVertex_addVertex v h store :
  DAGStorage.getVertex h (DAGStorage.addVertex v store) =
  if String.eqb h (vertexHash v) then Some v else DAGStorage.getVertex h store.
Proof. unfold DAGStorage.getVertex, DAGStorage.addVertex. rewrite store_put_kput. apply kget_kput. Qed.

Lemma filter_all {B} (P : B -> Prop) `{!forall x, Decision (P x)} l :
  (forall x, In x l -> P x) -> filter P l = l.
Proof.
  induction l as [|a l IH]; intros HP; [reflexivity|].
  rewrite filter_cons_True by (apply HP, in_eq). f_equal. apply IH. intros x Hx. apply HP, in_cons, Hx.
Qed.

Lemma filter_bool_length {B} (f : B -> bool) l :
  length (filter (fun x => f x = true) l) + length (filter (fun x => f x = false) l) = length l.
Proof.
  induction l as [|a l IH]; [reflexivity|].
  destruct (f a) eqn:E.
  - rewrite filter_cons_True, filter_cons_False by congruence. simpl. lia.
  - rewrite filter_cons_False, filter_cons_True by congruence. simpl. lia.
Qed.

Lemma fold_store_delete D S :
  fold_left (fun s v => DAGStorage.store_delete (vertexHash v) s) D S =
  filter (fun x => vertexHash x ∉ map vertexHash D) S.
Proof.
  revert S. induction D as [|d D IH]; intros S; cbn [fold_left map].
  - symmetry. apply filter_all. intros x _. apply not_elem_of_nil.
  - rewrite IH. unfold DAGStorage.store_delete. rewrite list_filter_filter.
    apply list_filter_iff. intros x. rewrite not_elem_of_cons. tauto.
Qed.

(** X15: on a store keyed by hash, [DAGStorage.pruneOldVertices] leaves the
    store as [DAGUtils.pruneOldVertices] computes it and returns the number
    of vertices it removed. *)
Theorem DAGStorage_pruneOldVertices_spec now maxAgeMs store :
  kok vertexHash store ->
  DAGStorage.pruneOldVertices now maxAgeMs store =
  ((Z.of_nat (length store) - Z.of_nat (length (pruneOldVertices now store maxAgeMs)))%Z,
   pruneOldVertices now store maxAgeMs).
Proof.
  intros Hok. set (kept := pruneOldVertices now store maxAgeMs).
  assert (Hkept : forall x, In x kept <-> In x store /\ prune_keep now maxAgeMs x = true).
  { intros x. unfold kept, pruneOldVertices. rewrite filter_In_iff. tauto. }
  assert (Htd : filter (fun v => negb (existsb (fun p => String.eqb (vertexHash p) (vertexHash v)) kept) = true) store =
                filter (fun v => prune_keep now maxAgeMs v = false) store).
  { apply filter_iff_in. intros v Hv.
    destruct (prune_keep now maxAgeMs v) eqn:Ek.
    - assert (Hex : existsb (fun p => String.eqb (vertexHash p) (vertexHash v)) kept = true).
      { apply existsb_exists. exists v. split; [apply Hkept; now split|apply String.eqb_refl]. }
      rewrite Hex. split; discriminate.
    - destruct (existsb (fun p => String.eqb (vertexHash p) (vertexHash v)) kept) eqn:Ex; [|tauto].
      apply existsb_exists in Ex as (p & Hp & Heq). apply String.eqb_eq in Heq.
      apply Hkept in Hp as [Hp Hpk].
      rewrite (kok_unique vertexHash store p v Hok Hp Hv Heq) in Hpk. congruence. }
  unfold DAGStorage.pruneOldVertices. cbv zeta. fold kept. rewrite Htd.
  assert (Hrest : fold_left (fun s v => DAGStorage.store_delete (vertexHash v) s)
                    (filter (fun v => prune_keep now maxAgeMs v = false) store) store = kept).
  { rewrite fold_store_delete. unfold kept, pruneOldVertices. apply filter_iff_in. intros x Hx.
    rewrite list_elem_of_In, in_map_iff. split.
    - intros Hn. destruct (prune_keep now maxAgeMs x) eqn:E; [reflexivity|].
      exfalso. apply Hn. exists x. split; [reflexivity|]. apply filter_In_iff. now split.
    - intros Hk (d & Hd & Hdin). apply filter_In_iff in Hdin as [Hdk Hdin].
      rewrite (kok_unique vertexHash store d x Hok Hdin Hx Hd) in Hdk. congruence. }
  pose proof (filter_bool_length (prune_keep now maxAgeMs) store) as Hlen.
  fold (pruneOldVertices now store maxAgeMs) in Hlen. fold kept in Hlen.
  destruct (filter (fun v => prune_keep now maxAgeMs v = false) store) as [|d D] eqn:E.
  - assert (Hall : kept = store).
    { unfold kept, pruneOldVertices. apply filter_all. intros x Hx.
      destruct (prune_keep now maxAgeMs x) eqn:Ex; [reflexivity|].
      assert (Hin : In x (filter (fun v => prune_keep now maxAgeMs v = false) store)) by (apply filter_In_iff; now split).
      rewrite E in Hin. destruct Hin. }
    rewrite Hall. f_equal. lia.
  - rewrite Hrest. f_equal. simpl in Hlen |- *. lia.
Qed.

Lemma DAGStorage_pruneOldVertices_spec_witness :
  kok vertexHash [wa; wb; wc] /\
  DAGStorage.pruneOldVertices 0 default_retention [wa; wb; wc] =
  ((Z.of_nat (length [wa; wb; wc]) - Z.of_nat (length (pruneOldVertices 0 [wa; wb; wc] default_retention)))%Z,
   pruneOldVertices 0 [wa; wb; wc] default_retention).
Proof.
  assert (H : kok vertexHash [wa; wb; wc]).
  { unfold kok. cbn. repeat constructor. }
  split; [exact H|]. apply (DAGStorage_pruneOldVertices_spec 0 default_retention _ H).
Defined.

Lemma map_strip_insert l i x w :
  l !! i = Some x -> map strip_weight (<[i := set_cumulativeWeight x w]> l) = map strip_weight l.
Proof.
  revert i. induction l as [|y r IH]; intros [|i] Hi; try discriminate.
  - injection Hi as ->. reflexivity.
  - cbn [insert list_insert map]. simpl in Hi. f_equal. now apply IH.
Qed.

Lemma update_weights_loop_inv n i l :
  kok vertexHash l ->
  let r := update_weights_loop n i l l in
  r.1 = r.2 /\ kok vertexHash r.2 /\ map strip_weight r.2 = map strip_weight l.
Proof.
  revert i l. induction n as [|n IH]; intros i l Hok; cbn [update_weights_loop].
  - repeat split; assumption || reflexivity.
  - destruct (l !! i) as [x|] eqn:Hi; [|repeat split; assumption || reflexivity].
    destruct (Z.eqb _ _); [apply IH, Hok|].
    pose proof (kput_at vertexHash (set_cumulativeWeight x (calculateCumulativeWeight x l)) l i x Hok Hi eq_refl) as Hat.
    rewrite store_put_kput, Hat.
    assert (Hok' : kok vertexHash (<[i := set_cumulativeWeight x (calculateCumulativeWeight x l)]> l)).
    { rewrite <- Hat. now apply kok_kput. }
    destruct (IH (S i) _ Hok') as (H1 & H2 & H3). cbv zeta in *.
    repeat split; try assumption. rewrite H3. now apply map_strip_insert.
Qed.

(** X16: [updateCumulativeWeights] changes nothing but cumulative weights:
    the same vertices, in the same order, with the same other fields. *)
Theorem updateCumulativeWeights_only_weights s :
  kok vertexHash s ->
  map strip_weight (updateCumulativeWeights s) = map strip_weight s.
Proof.
  intros Hok. unfold updateCumulativeWeights.
  apply (update_weights_loop_inv (length s) 0 s Hok).
Qed.

Lemma updateCumulativeWeights_only_weights_witness :
  kok vertexHash [wa; wb; wc] /\
  map strip_weight (updateCumulativeWeights [wa; wb; wc]) = map strip_weight [wa; wb; wc].
Proof.
  assert (H : kok vertexHash [wa; wb; wc]) by (unfold kok; cbn; repeat constructor).
  split; [exact H|]. apply (updateCumulativeWeights_only_weights _ H).
Defined.

Lemma filter_kput_other {A} (key : A -> string) v s :
  filter (fun x => negb (String.eqb (key x) (key v)) = true) (kput key v s) =
  filter (fun x => negb (String.eqb (key x) (key v)) = true) s.
Proof.
  assert (Hv : ~ negb (String.eqb (key v) (key v)) = true) by (rewrite String.eqb_refl; discriminate).
  induction s as [|x r IH]; cbn [kput].
  - rewrite filter_cons_False by exact Hv. reflexivity.
  - destruct (String.compare (key v) (key x)) eqn:E.
    + apply String.compare_eq_iff in E.
      rewrite filter_cons_False by exact Hv.
      rewrite (filter_cons_False _ x) by (rewrite E, String.eqb_refl; discriminate). reflexivity.
    + rewrite filter_cons_False by exact Hv. reflexivity.
    + destruct (negb (String.eqb (key x) (key v))) eqn:Ex.
      * rewrite !filter_cons_True by exact Ex. now rewrite IH.
      * rewrite !filter_cons_False by (rewrite Ex; discriminate). exact IH.
Qed.

Lemma filter_commute {B} (P Q : B -> Prop) `{!forall x, Decision (P x)} `{!forall x, Decision (Q x)} (l : list B) :
  filter P (filter Q l) = filter Q (filter P l).
Proof. rewrite !list_filter_filter. apply list_filter_iff. tauto. Qed.

Lemma mark_unsynced cid cps :
  kok CheckpointRecord.id cps ->
  DAGStorage.getUnsyncedCheckpoints (DAGStorage.markCheckpointSynced cid cps) =
  filter (fun c => negb (String.eqb (CheckpointRecord.id c) cid) = true)
    (DAGStorage.getUnsyncedCheckpoints cps).
Proof.
  intros Hok. unfold DAGStorage.markCheckpointSynced, DAGStorage.getUnsyncedCheckpoints.
  destruct (kget CheckpointRecord.id cid cps) as [c|] eqn:Eg; unfold kget in Eg.
  - apply find_some in Eg as [Hc Heq]. apply String.eqb_eq in Heq. subst cid.
    set (c' := CheckpointRecord.mk (CheckpointRecord.id c) (CheckpointRecord.timestamp c)
                 (CheckpointRecord.vertexHashes c) true).
    transitivity (filter (fun x => negb (CheckpointRecord.serverSynced x) = true) (kput CheckpointRecord.id c' cps)).
    { apply list_filter_iff. intros x. rewrite negb_true_iff. tauto. }
    rewrite (filter_kput_replace CheckpointRecord.id (fun x => negb (CheckpointRecord.serverSynced x)) c' cps Hok)
      by (reflexivity || (apply in_map_iff; exists c; split; [reflexivity|exact Hc])).
    rewrite list_filter_filter. apply list_filter_iff. intros x.
    rewrite andb_true_iff, !negb_true_iff. tauto.
  - symmetry. apply filter_all. intros x Hx. apply filter_In_iff in Hx as [_ Hx].
    rewrite (find_none _ _ Eg x Hx). reflexivity.
Qed.

(** X18: marking a checkpoint as synced removes exactly the checkpoints with
    that id from the unsynced list and leaves every other one in place; an
    unknown id changes nothing. *)
Theorem markCheckpointSynced_unsynced cid cps :
  kok CheckpointRecord.id cps ->
  DAGStorage.getUnsyncedCheckpoints (DAGStorage.markCheckpointSynced cid cps) =
  filter (fun c => negb (String.eqb (CheckpointRecord.id c) cid) = true)
    (DAGStorage.getUnsyncedCheckpoints cps).
Proof. apply mark_unsynced. Qed.

Lemma markCheckpointSynced_unsynced_witness :
  kok CheckpointRecord.id [cp1; cp2; cp3] /\
  DAGStorage.getUnsyncedCheckpoints (DAGStorage.markCheckpointSynced "checkpoint-3-c" [cp1; cp2; cp3]) =
  filter (fun c => negb (String.eqb (CheckpointRecord.id c) "checkpoint-3-c") = true)
    (DAGStorage.getUnsyncedCheckpoints [cp1; cp2; cp3]).
Proof.
  assert (H : kok CheckpointRecord.id [cp1; cp2; cp3]) by (unfold kok; cbn; repeat constructor).
  split; [exact H|]. apply (markCheckpointSynced_unsynced _ _ H).
Defined.

(** X19: a new checkpoint is unsynced, and marking it synced with the id
    [createCheckpoint] returned leaves the unsynced list as it was before,
    less the checkpoints with that id. *)
Theorem createCheckpoint_markCheckpointSynced now1 now2 suffix hs cps :
  kok CheckpointRecord.id cps ->
  let '(cid, cps') := DAGStorage.createCheckpoint now1 now2 suffix hs cps in
  In (CheckpointRecord.mk cid now2 hs false) (DAGStorage.getUnsyncedCheckpoints cps') /\
  DAGStorage.getUnsyncedCheckpoints (DAGStorage.markCheckpointSynced cid cps') =
  filter (fun c => negb (String.eqb (CheckpointRecord.id c) cid) = true)
    (DAGStorage.getUnsyncedCheckpoints cps).
Proof.
  intros Hok. unfold DAGStorage.createCheckpoint.
  set (cp := CheckpointRecord.mk ("checkpoint-" ++ pretty now1 ++ "-" ++ suffix) now2 hs false).
  change ("checkpoint-" ++ pretty now1 ++ "-" ++ suffix) with (CheckpointRecord.id cp).
  split.
  - apply filter_In_iff. split; [reflexivity|].
    apply (kput_in CheckpointRecord.id cp cps cp Hok). now left.
  - rewrite (mark_unsynced _ _ (kok_kput CheckpointRecord.id cp cps Hok)).
    unfold DAGStorage.getUnsyncedCheckpoints.
    rewrite filter_commute, filter_kput_other. apply filter_commute.
Qed.

Lemma createCheckpoint_markCheckpointSynced_witness :
  kok CheckpointRecord.id [cp1; cp2; cp3] /\
  let '(cid, cps') := DAGStorage.createCheckpoint 5 5 "z" ["d"] [cp1; cp2; cp3] in
  In (CheckpointRecord.mk cid 5 ["d"] false) (DAGStorage.getUnsyncedCheckpoints cps') /\
  DAGStorage.getUnsyncedCheckpoints (DAGStorage.markCheckpointSynced cid cps') =
  filter (fun c => negb (String.eqb (CheckpointRecord.id c) cid) = true)
    (DAGStorage.getUnsyncedCheckpoints [cp1; cp2; cp3]).
Proof.
  assert (H : kok CheckpointRecord.id [cp1; cp2; cp3]) by (unfold kok; cbn; repeat constructor).
  split; [exact H|]. apply (createCheckpoint_markCheckpointSynced 5 5 "z" ["d"] _ H).
Defined.

Lemma depth_ordered_edge vs x y :
  NoDup (map vertexHash vs) -> depth_ordered vs = true -> parent_edge vs x y ->
  (depth y < depth x)%Z.
Proof.
  intros Hnd Hd (Hx & Hy & Hg & Hr). unfold depth_ordered in Hd.
  apply (proj1 (List.forallb_forall _ _)) with (x := x) in Hd; [|exact Hx].
  apply andb_prop in Hd as [H1 H2].
  pose proof (index_by_lookup depth vs y Hnd Hy) as Hl.
  apply String.eqb_neq in Hg.
  destruct Hr as [Hr|Hr]; [rewrite Hr in H1; clear H2; rename H1 into H | rewrite Hr in H2; clear H1; rename H2 into H];
    rewrite Hg, Hl in H; cbn [orb default] in H; apply Z.ltb_lt in H; exact H.
Qed.

(** X21: when the hashes are distinct, a list accepted by the simplified
    [isValidDAG] has depths strictly decreasing along every chain of
    parent references, so it has no cycle. *)
Theorem isValidDAG_simple_depth_decreases vs x y :
  NoDup (map vertexHash vs) -> isValidDAG_simple vs = true -> tc (parent_edge vs) x y ->
  (depth y < depth x)%Z.
Proof.
  intros Hnd Hv Hc.
  assert (Hd : depth_ordered vs = true).
  { destruct vs as [|w r].
    - inversion Hc as [? ? (H & _) | ? ? ? (H & _) _]; destruct H.
    - apply andb_prop in Hv as [_ Hv]. exact Hv. }
  induction Hc as [a b Hab | a b c Hab _ IH].
  - exact (depth_ordered_edge vs a b Hnd Hd Hab).
  - pose proof (depth_ordered_edge vs a b Hnd Hd Hab). lia.
Qed.

Lemma isValidDAG_simple_depth_decreases_witness :
  NoDup (map vertexHash [wa; wb; wc]) /\ isValidDAG_simple [wa; wb; wc] = true /\
  tc (parent_edge [wa; wb; wc]) wc wa /\ (depth wa < depth wc)%Z.
Proof.
  assert (Hnd : NoDup (map vertexHash [wa; wb; wc])) by (cbn; repeat constructor; set_solver).
  assert (Hv : isValidDAG_simple [wa; wb; wc] = true) by (vm_compute; reflexivity).
  assert (Hc : tc (parent_edge [wa; wb; wc]) wc wa).
  { apply (tc_l _ wc wb).
    - split_and!; [right; right; left; reflexivity | right; left; reflexivity | discriminate | left; reflexivity].
    - apply tc_once. split_and!; [right; left; reflexivity | left; reflexivity | discriminate | left; reflexivity]. }
  split_and!; [exact Hnd | exact Hv | exact Hc | exact (isValidDAG_simple_depth_decreases _ _ _ Hnd Hv Hc)].
Defined.

Lemma js_index_In {A} (l : list A) i x : js_index l i = Some x -> In x l.
Proof.
  unfold js_index. destruct (Z.ltb i 0); [discriminate|]. apply nth_error_In.
Qed.

Lemma last_In {A} (l : list A) d : l <> [] -> In (List.last l d) l.
Proof.
  induction l as [|a l IH]; intros Hne; [congruence|].
  destruct l as [|b l']; [now left|]. right. apply IH. discriminate.
Qed.

Lemma selectTips_simple_in_input ext V seed pos sel pos' :
  selectTips_simple ext V seed pos = Some (sel, pos') ->
  (V = [] /\ sel = genesis_selection) \/
  exists t1 t2, In t1 V /\ In t2 V /\
    TipSelection.tip1Hash sel = vertexHash t1 /\ TipSelection.tip2Hash sel = vertexHash t2 /\
    TipSelection.depth sel = (Z.max (depth t1) (depth t2) + 1)%Z /\
    (filter (fun v => is_unanchored v = true) V <> [] ->
     is_unanchored t1 = true /\ is_unanchored t2 = true).
Proof.
  unfold selectTips_simple. destruct V as [|v0 V'].
  - intros Hsel. injection Hsel as <- _. now left.
  - intros Hsel; right; revert Hsel. set (U := filter (fun v => is_unanchored v = true) (v0 :: V')).
    assert (HU : forall x, In x (sort_desc_by cumulativeWeight U) -> In x (v0 :: V') /\ is_unanchored x = true).
    { intros x Hx. apply sort_desc_by_In, filter_In_iff in Hx. tauto. }
    destruct (sort_desc_by cumulativeWeight U) as [|u [|u2 r]] eqn:Hs.
    + intros Hsel. injection Hsel as <- _.
      exists (List.last (v0 :: V') v0), (List.last (v0 :: V') v0).
      assert (Hl : In (List.last (v0 :: V') v0) (v0 :: V')) by (apply last_In; discriminate).
      split_and!; try reflexivity; try exact Hl.
      * cbn [TipSelection.depth]. now rewrite Z.max_id.
      * intros HUne. exfalso. apply HUne.
        destruct U as [|z U']; [reflexivity|].
        assert (Hz : In z (sort_desc_by cumulativeWeight (z :: U'))) by (apply sort_desc_by_In; now left).
        rewrite Hs in Hz. destruct Hz.
    + intros Hsel. injection Hsel as <- _. destruct (HU u (in_eq u [])) as [Hu Hun].
      exists u, u. split_and!; try reflexivity; try exact Hu.
      * cbn [TipSelection.depth]. now rewrite Z.max_id.
      * intros _. now split.
    + destruct (match seed with Some s => _ | None => _ end) as [sd p'].
      cbv zeta.
      destruct (js_index (u :: u2 :: r) (Qround.Qfloor (QArith_base.Qmult _ _))) as [t1|] eqn:E1; [|discriminate].
      destruct (js_index (u :: u2 :: r) (if Z.eqb _ _ then _ else _)) as [t2|] eqn:E2; [|discriminate].
      intros Hsel. injection Hsel as <- _.
      apply js_index_In in E1, E2. apply HU in E1 as [H1 H1u], E2 as [H2 H2u].
      exists t1, t2. split_and!; try reflexivity; try assumption. intros _. now split.
Qed.

(** X22: the simplified [selectTips] returns the genesis pair only for an
    empty list; otherwise both tips are hashes of given vertices (unanchored
    ones if there are any), and the depth is one more than the larger of
    their depths. *)
Theorem selectTips_simple_tips_from_input ext V seed pos sel pos' :
  selectTips_simple ext V seed pos = Some (sel, pos') ->
  (V = [] /\ sel = genesis_selection) \/
  exists t1 t2, In t1 V /\ In t2 V /\
    TipSelection.tip1Hash sel = vertexHash t1 /\ TipSelection.tip2Hash sel = vertexHash t2 /\
    TipSelection.depth sel = (Z.max (depth t1) (depth t2) + 1)%Z /\
    (filter (fun v => is_unanchored v = true) V <> [] ->
     is_unanchored t1 = true /\ is_unanchored t2 = true).
Proof. apply selectTips_simple_in_input. Qed.

Lemma selectTips_simple_tips_from_input_witness :
  selectTips_simple (fun _ => 0%Q) [vb; vc] (Some (1 # 4)%Q) 0 =
    Some (TipSelection.mk "b" "c" 1, 0) /\
  (([vb; vc] = [] /\ TipSelection.mk "b" "c" 1 = genesis_selection) \/
   exists t1 t2, In t1 [vb; vc] /\ In t2 [vb; vc] /\
     TipSelection.tip1Hash (TipSelection.mk "b" "c" 1) = vertexHash t1 /\
     TipSelection.tip2Hash (TipSelection.mk "b" "c" 1) = vertexHash t2 /\
     TipSelection.depth (TipSelection.mk "b" "c" 1) = (Z.max (depth t1) (depth t2) + 1)%Z /\
     (filter (fun v => is_unanchored v = true) [vb; vc] <> [] ->
      is_unanchored t1 = true /\ is_unanchored t2 = true)).
Proof.
  assert (E : selectTips_simple (fun _ => 0%Q) [vb; vc] (Some (1 # 4)%Q) 0 =
                Some (TipSelection.mk "b" "c" 1, 0)) by (vm_compute; reflexivity).
  split; [exact E|]. exact (selectTips_simple_tips_from_input _ _ _ _ _ _ E).
Defined.

Section WalkMembership.
Variable exp : Q -> Q.
Variable ext : nat -> Q.
Variable P : DagVertex -> Prop.

Lemma push_approver_P h v m : values_P P m -> P v -> values_P P (push_approver h v m).
Proof.
  intros Hm Hv h' l x Hl Hx. unfold push_approver in Hl.
  apply lookup_insert_Some in Hl as [[<- <-]|[_ Hl]]; [|exact (Hm _ _ _ Hl Hx)].
  apply in_app_or in Hx as [Hx|[<-|[]]]; [|exact Hv].
  destruct (m !! h) as [l0|] eqn:E; [exact (Hm _ _ _ E Hx)|destruct Hx].
Qed.

Lemma build_approvers_P vs : (forall v, In v vs -> P v) -> values_P P (build_approvers vs).
Proof.
  unfold build_approvers. intros Hvs.
  assert (Hgen : forall l m, values_P P m -> (forall v, In v l -> P v) ->
    values_P P (fold_left (fun m v => push_approver (tipReference2 v) v
                          (push_approver (tipReference1 v) v m)) l m)).
  { induction l as [|a l IH]; intros m Hm Hl; [exact Hm|]. cbn [fold_left]. apply IH.
    - apply push_approver_P; [apply push_approver_P|]; try apply Hl; try apply in_eq; exact Hm.
    - intros v Hv. apply Hl, in_cons, Hv. }
  apply Hgen; [|exact Hvs]. intros h l x Hl. rewrite lookup_empty in Hl. discriminate.
Qed.

Lemma pick_In r l x : pick exp r l = Some x -> In x l.
Proof.
  revert r. induction l as [|a l IH]; intros r; cbn [pick]; [discriminate|].
  destruct (Qle_bool _ 0); [intros Hx; injection Hx as <-; apply in_eq|].
  intros Hx. apply in_cons, (IH _ Hx).
Qed.

Lemma walk_loop_P vm ap fuel steps cur g pos t n p :
  values_P P ap -> P cur -> walk_loop exp ext vm ap fuel steps cur g pos = Some (t, n, p) -> P t.
Proof.
  intros Hap. revert steps cur g pos.
  induction fuel as [|fuel IH]; intros steps cur g pos Hc; cbn [walk_loop].
  - intros Hw. injection Hw as <- _ _. exact Hc.
  - set (va := filter _ _).
    assert (Hva : forall x, In x va -> P x).
    { intros x Hx. apply filter_In_iff in Hx as [_ Hx].
      destruct (ap !! vertexHash cur) as [l|] eqn:E; [exact (Hap _ _ _ E Hx)|destruct Hx]. }
    destruct va as [|a0 r] eqn:Eva; [intros Hw; injection Hw as <- _ _; exact Hc|].
    destruct (rng_next ext g pos) as [[rr g'] pos'].
    destruct (if Qeq_bool _ 0 then _ else _) as [nxt|] eqn:En; [|discriminate].
    apply IH. destruct (Qeq_bool _ 0).
    + apply Hva. apply (js_index_In _ _ _ En).
    + revert En. generalize (pick_In (rr * total_weight exp (a0 :: r)) (a0 :: r)).
      destruct (pick exp (rr * total_weight exp (a0 :: r)) (a0 :: r)) as [x|];
        intros Hpk En; injection En as <-; [apply Hva, Hpk; reflexivity | apply Hva, in_eq].
Qed.

Lemma performRandomWalk_P vs vm ap g pos t n p :
  (forall v, In v vs -> P v) -> values_P P ap ->
  performRandomWalk exp ext vs vm ap g pos = Some (t, n, p) -> P t.
Proof.
  intros Hvs Hap. unfold performRandomWalk.
  destruct (rng_next ext g pos) as [[rr g'] pos'].
  destruct (js_index vs _) as [cur|] eqn:E; [|discriminate].
  apply walk_loop_P; [exact Hap|]. apply Hvs, (js_index_In _ _ _ E).
Qed.
End WalkMembership.

(** X23: the same for the random-walk [selectTips]: both tips are hashes of
    given vertices (unanchored ones if there are any), with depth one more
    than the larger of their depths, or the genesis pair for an empty list. *)
Theorem selectTips_tips_from_input exp ext V seed pos sel pos' :
  selectTips exp ext V seed pos = Some (sel, pos') ->
  (V = [] /\ sel = genesis_selection) \/
  exists t1 t2, In t1 V /\ In t2 V /\
    TipSelection.tip1Hash sel = vertexHash t1 /\ TipSelection.tip2Hash sel = vertexHash t2 /\
    TipSelection.depth sel = (Z.max (depth t1) (depth t2) + 1)%Z /\
    (filter (fun v => is_unanchored v = true) V <> [] ->
     is_unanchored t1 = true /\ is_unanchored t2 = true).
Proof.
  unfold selectTips. destruct V as [|v0 V'].
  - intros Hsel. injection Hsel as <- _. now left.
  - intros Hsel; right; revert Hsel.
    set (U := filter (fun v => is_unanchored v = true) (v0 :: V')).
    assert (HU : forall x, In x U -> In x (v0 :: V') /\ is_unanchored x = true).
    { intros x Hx. apply filter_In_iff in Hx. tauto. }
    destruct U as [|u [|u2 r]] eqn:Hs.
    + intros Hsel. injection Hsel as <- _.
      exists (List.last (v0 :: V') v0), (List.last (v0 :: V') v0).
      assert (Hl : In (List.last (v0 :: V') v0) (v0 :: V')) by (apply last_In; discriminate).
      split_and!; try reflexivity; try exact Hl.
      * cbn [TipSelection.depth]. now rewrite Z.max_id.
      * intros HUne. exfalso. apply HUne. reflexivity.
    + intros Hsel. injection Hsel as <- _. destruct (HU u (in_eq u [])) as [Hu Hun].
      exists u, u. split_and!; try reflexivity; try exact Hu.
      * cbn [TipSelection.depth]. now rewrite Z.max_id.
      * intros _. now split.
    + set (W := u :: u2 :: r) in *.
      assert (Hap : values_P (fun x => In x W) (build_approvers W)) by (apply build_approvers_P; tauto).
      destruct (performRandomWalk exp ext W _ _ (rng_of seed) pos) as [[[t1 n1] p1]|] eqn:E1; [|discriminate].
      destruct (performRandomWalk exp ext W _ _ (rng_of (second_seed seed)) p1) as [[[t2 n2] p2]|] eqn:E2; [|discriminate].
      intros Hsel. injection Hsel as <- _.
      apply (performRandomWalk_P exp ext (fun x => In x W)) in E1, E2; try tauto.
      apply HU in E1 as [H1 H1u], E2 as [H2 H2u].
      exists t1, t2. split_and!; try reflexivity; try assumption. intros _. now split.
Qed.

Lemma selectTips_tips_from_input_witness :
  selectTips (fun _ => 1%Q) (fun _ => 0%Q) [vb; vc] (Some (1 # 4)%Q) 0 =
    Some (TipSelection.mk "c" "c" 1, 0) /\
  (([vb; vc] = [] /\ TipSelection.mk "c" "c" 1 = genesis_selection) \/
   exists t1 t2, In t1 [vb; vc] /\ In t2 [vb; vc] /\
     TipSelection.tip1Hash (TipSelection.mk "c" "c" 1) = vertexHash t1 /\
     TipSelection.tip2Hash (TipSelection.mk "c" "c" 1) = vertexHash t2 /\
     TipSelection.depth (TipSelection.mk "c" "c" 1) = (Z.max (depth t1) (depth t2) + 1)%Z /\
     (filter (fun v => is_unanchored v = true) [vb; vc] <> [] ->
      is_unanchored t1 = true /\ is_unanchored t2 = true)).
Proof.
  assert (E : selectTips (fun _ => 1%Q) (fun _ => 0%Q) [vb; vc] (Some (1 # 4)%Q) 0 =
                Some (TipSelection.mk "c" "c" 1, 0)) by (vm_compute; reflexivity).
  split; [exact E|]. exact (selectTips_tips_from_input _ _ _ _ _ _ _ E).
Defined.

Lemma accepted_pairs_false_cons n t l :
  accepted_pairs ((n, t, false) :: l) = (n, t) :: accepted_pairs l.
Proof. reflexivity. Qed.

Lemma run_tracker_fresh evs : forall tr A L,
  Sorted Z.le (L :: map event_time evs) -> NoDup A ->
  (forall p, In p A -> seen_or_expired tr L p) ->
  NoDup (A ++ accepted_pairs (run_tracker tr evs)).
Proof.
  induction evs as [|e r IH]; intros tr A L Hs Hnd Hinv.
  - cbn. now rewrite app_nil_r.
  - cbn [map] in Hs. apply Sorted_inv in Hs as [Hs Hhd]. inversion Hhd as [|? ? HLe]; subst.
    assert (Hmono : forall p, In p A -> seen_or_expired tr L p -> seen_or_expired tr (event_time e) p).
    { intros p _ [Hp|Hp]; [now left|right; lia]. }
    destruct e as [now n t|now]; cbn [run_tracker event_time] in *.
    + unfold hasSeenNonce at 1.
      case_bool_decide as Hseen.
      * apply (IH tr A now Hs Hnd). intros p Hp. apply Hmono, Hinv; exact Hp.
      * destruct (Z.ltb_spec t (now - maxAge tr)) as [Hold|Hold];
          [apply (IH tr A now Hs Hnd); intros p Hp; apply Hmono, Hinv; exact Hp|].
        destruct (Z.ltb_spec (now + 60000) t) as [Hfut|Hfut];
          [apply (IH tr A now Hs Hnd); intros p Hp; apply Hmono, Hinv; exact Hp|].
        cbn [orb]. rewrite accepted_pairs_false_cons, cons_middle, app_assoc.
        apply IH with (L := now); [exact Hs| |].
        -- apply NoDup_app. split_and!; [exact Hnd| |apply NoDup_singleton].
           intros p Hp%list_elem_of_In Hq. apply list_elem_of_singleton in Hq. subst p.
           destruct (Hinv _ Hp) as [Hx|Hx]; cbn [fst snd] in Hx; [apply Hseen; rewrite Hx; eauto|lia].
        -- intros p Hp. apply in_app_or in Hp as [Hp|[<-|[]]].
           ++ destruct (Hinv _ Hp) as [Hx|Hx]; [left|right; cbn [maxAge]; lia].
              cbn [seenNonces]. rewrite lookup_insert_ne; [exact Hx|].
              intros ->. apply Hseen. rewrite Hx. eauto.
           ++ left. cbn [seenNonces fst snd]. apply lookup_insert_eq.
    + apply IH with (L := now); [exact Hs|exact Hnd|].
      intros p Hp. destruct (Hinv _ Hp) as [Hx|Hx]; [|right; cbn [cleanup maxAge]; lia].
      destruct (decide (p.2 < now - maxAge tr)%Z) as [Hlt|Hge]; [right; exact Hlt|].
      left. cbn [cleanup seenNonces]. rewrite map_lookup_filter, Hx. cbn.
      rewrite option_guard_True; [reflexivity|exact Hge].
Qed.

(** X9: along any run of [hasSeenNonce] calls and cleanups with a clock that
    never goes back, the tracker accepts each (nonce, timestamp) pair at
    most once. *)
Theorem nonce_accepted_once tr evs :
  Sorted Z.le (map event_time evs) ->
  NoDup (accepted_pairs (run_tracker tr evs)).
Proof.
  intros Hs. destruct evs as [|e r]; [apply NoDup_nil_2|].
  apply (run_tracker_fresh (e :: r) tr [] (event_time e)); [|apply NoDup_nil_2|intros p []].
  cbn [map] in *. constructor; [exact Hs|]. constructor. lia.
Qed.

Lemma nonce_accepted_once_witness :
  Sorted Z.le (map event_time replay_trace) /\
  NoDup (accepted_pairs (run_tracker (newNonceTracker 300000) replay_trace)).
Proof.
  assert (Hs : Sorted Z.le (map event_time replay_trace)).
  { cbn. repeat constructor; cbn; lia. }
  split; [exact Hs|exact (nonce_accepted_once _ _ Hs)].
Defined.

Lemma js_max_spec x xs :
  (forall y, In y (x :: xs) -> (y <= DAGStorage.js_max x xs)%Z) /\ In (DAGStorage.js_max x xs) (x :: xs).
Proof.
  unfold DAGStorage.js_max. revert x. induction xs as [|a xs IH]; intros x; cbn [fold_left].
  - split; [intros y [<-|[]]; lia|now left].
  - destruct (IH (Z.max x a)) as [H1 H2]. split.
    + intros y Hy. destruct Hy as [Hy|[Hy|Hy]].
      1,2: subst y; transitivity (Z.max x a); [lia|apply H1, in_eq].
      apply H1, in_cons, Hy.
    + destruct H2 as [H2|H2]; [|right; right; exact H2].
      rewrite <- H2. destruct (Z.max_spec x a) as [[_ ->]|[_ ->]]; [right; now left|now left].
Qed.

Lemma js_min_spec x xs :
  (forall y, In y (x :: xs) -> (DAGStorage.js_min x xs <= y)%Z) /\ In (DAGStorage.js_min x xs) (x :: xs).
Proof.
  unfold DAGStorage.js_min. revert x. induction xs as [|a xs IH]; intros x; cbn [fold_left].
  - split; [intros y [<-|[]]; lia|now left].
  - destruct (IH (Z.min x a)) as [H1 H2]. split.
    + intros y Hy. destruct Hy as [Hy|[Hy|Hy]].
      1,2: subst y; transitivity (Z.min x a); [apply H1, in_eq|lia].
      apply H1, in_cons, Hy.
    + destruct H2 as [H2|H2]; [|right; right; exact H2].
      rewrite <- H2. destruct (Z.min_spec x a) as [[_ ->]|[_ ->]]; [now left|right; now left].
Qed.

Lemma filter_length_le {B} (P : B -> Prop) `{!forall x, Decision (P x)} (l : list B) :
  length (filter P l) <= length l.
Proof.
  induction l as [|a l IH]; [reflexivity|].
  destruct (decide (P a)); [rewrite filter_cons_True by assumption|rewrite filter_cons_False by assumption];
    cbn [length]; lia.
Qed.

(** X20: [getStats] counts all vertices, at most that many anchored ones;
    [maxDepth] is 0 for an empty store and otherwise the largest depth of
    a stored vertex; [oldestVertex] and [newestVertex] are both absent or
    both present, are creation times of stored vertices, and bound every
    positive creation time. *)
Theorem getStats_bounds store :
  let s := DAGStorage.getStats store in
  DAGStorage.totalVertices s = length store /\
  DAGStorage.anchoredVertices s <= length store /\
  (store = [] -> DAGStorage.maxDepth s = 0%Z) /\
  (store <> [] -> exists v, In v store /\ depth v = DAGStorage.maxDepth s) /\
  (forall v, In v store -> (depth v <= DAGStorage.maxDepth s)%Z) /\
  (DAGStorage.oldestVertex s = None <-> DAGStorage.newestVertex s = None) /\
  (forall v, In v store -> (0 < DAGStorage.created_time v)%Z ->
     exists o n, DAGStorage.oldestVertex s = Some o /\ DAGStorage.newestVertex s = Some n /\
       (o <= DAGStorage.created_time v <= n)%Z) /\
  (forall o, DAGStorage.oldestVertex s = Some o ->
     exists v, In v store /\ DAGStorage.created_time v = o /\ (0 < o)%Z) /\
  (forall n, DAGStorage.newestVertex s = Some n ->
     exists v, In v store /\ DAGStorage.created_time v = n /\ (0 < n)%Z).
Proof.
  cbv zeta. unfold DAGStorage.getStats. cbn [DAGStorage.totalVertices DAGStorage.anchoredVertices
    DAGStorage.maxDepth DAGStorage.oldestVertex DAGStorage.newestVertex].
  assert (Hts : forall t, In t (filter (fun t => (t > 0)%Z) (map DAGStorage.created_time store)) <->
                  exists v, In v store /\ DAGStorage.created_time v = t /\ (0 < t)%Z).
  { intros t. rewrite filter_In_iff, in_map_iff. split.
    - intros [Ht (v & <- & Hv)]. exists v. split_and!; [exact Hv|reflexivity|lia].
    - intros (v & Hv & <- & Ht). split; [lia|]. exists v. now split. }
  split_and!.
  - reflexivity.
  - apply filter_length_le.
  - intros ->. reflexivity.
  - intros Hne. destruct store as [|v0 r]; [congruence|]. cbn [map].
    destruct (js_max_spec (depth v0) (map depth r)) as [_ Hin].
    change (depth v0 :: map depth r) with (map depth (v0 :: r)) in Hin.
    apply in_map_iff in Hin as (v & Hv & Hin). exists v. now split.
  - intros v Hv. destruct store as [|v0 r]; [destruct Hv|]. cbn [map].
    apply (proj1 (js_max_spec (depth v0) (map depth r))).
    change (depth v0 :: map depth r) with (map depth (v0 :: r)). apply in_map, Hv.
  - destruct (filter _ _); split; discriminate || reflexivity.
  - intros v Hv Ht. assert (Hin : In (DAGStorage.created_time v) (filter (fun t => (t > 0)%Z) (map DAGStorage.created_time store))).
    { apply Hts. exists v. now split_and!. }
    destruct (filter _ _) as [|t ts]; [destruct Hin|].
    exists (DAGStorage.js_min t ts), (DAGStorage.js_max t ts). split_and!; try reflexivity.
    + apply (proj1 (js_min_spec t ts)), Hin.
    + apply (proj1 (js_max_spec t ts)), Hin.
  - intros o Ho. destruct (filter _ _) as [|t ts] eqn:E; [discriminate|]. injection Ho as <-.
    apply Hts. apply (proj2 (js_min_spec t ts)).
  - intros o Ho. destruct (filter _ _) as [|t ts] eqn:E; [discriminate|]. injection Ho as <-.
    apply Hts. apply (proj2 (js_max_spec t ts)).
Qed.

(* ---------------- letters-only codec (second variant) ---------------- *)

Lemma letter_check_all c : letter_check c = true.
Proof. destruct c as [[] [] [] [] [] [] [] []]; vm_compute; reflexivity. Qed.

Lemma to_upper_char_nonempty c : to_upper_char c <> "".
Proof.
  pose proof (letter_check_all c) as H. unfold letter_check in H.
  apply andb_prop in H as [H _]. apply andb_prop in H as [H _].
  intros E. rewrite E in H. discriminate.
Qed.

Lemma letter_wl_upper c : is_upper_AZ c = true -> letter_wl c <> None.
Proof.
  pose proof (letter_check_all c) as H. unfold letter_check in H.
  apply andb_prop in H as [H _]. apply andb_prop in H as [_ H].
  intros Hu. rewrite Hu in H. cbn in H. apply bool_decide_eq_true in H.
  destruct H as [w Hw]. rewrite Hw. discriminate.
Qed.

Lemma letter_wl_facts c w :
  letter_wl c = Some w ->
  is_word_break c = false /\ is_js_space c = false /\ wavelengthToLetter !! w = Some (String c EmptyString) /\
  String c EmptyString <> "" /\ parseInt (trim (pretty w)) 10 = Some w /\ pretty w <> "" /\ digits_only (pretty w).
Proof.
  intros E. pose proof (letter_check_all c) as Hc. unfold letter_check in Hc. rewrite E in Hc.
  apply andb_prop in Hc as [_ Hc].
  apply andb_prop in Hc as [Hc Hg]. apply andb_prop in Hc as [Hc Hf].
  apply andb_prop in Hc as [Hc He]. apply andb_prop in Hc as [Hc Hcc].
  apply andb_prop in Hc as [Ha Hb].
  split_and!.
  - now apply negb_true_iff.
  - now apply negb_true_iff.
  - now apply bool_decide_eq_true in Hcc.
  - discriminate.
  - now apply bool_decide_eq_true in He.
  - intros X. rewrite X in Hf. discriminate.
  - apply List.Forall_forall. intros ch Hin. rewrite List.forallb_forall in Hg. specialize (Hg ch Hin).
    apply andb_prop in Hg as [Hd' Hs]. split.
    + destruct (digit_of 10 ch); [eexists; reflexivity|discriminate].
    + now apply negb_true_iff.
Qed.

Lemma encode_step_simple_shape : step_shape encode_step_simple.
Proof.
  intros words cur c. unfold encode_step_simple. destruct (is_word_break c).
  - destruct cur as [|n ns]; [now left|]. right; right. split; [discriminate|reflexivity].
  - destruct (is_upper_AZ c) eqn:Hu; [|now left].
    destruct (LETTER_WAVELENGTH !! String c EmptyString) as [n|] eqn:E; [|now left].
    right; left. exists n. split; [|reflexivity].
    assert (El : letter_wl c = Some n) by (unfold letter_wl; rewrite Hu; exact E).
    destruct (letter_wl_facts c n El) as (_ & _ & _ & _ & _ & Hne & Hd). now split.
Qed.

Lemma encode_step_simple_char words cur c w :
  letter_wl c = Some w ->
  encode_step_simple (words, cur) c = (words, (cur ++ [w])%list).
Proof.
  intros E. destruct (letter_wl_facts c w E) as (Hb & _).
  unfold letter_wl in E. unfold encode_step_simple. rewrite Hb.
  destruct (is_upper_AZ c); [rewrite E; reflexivity|discriminate].
Qed.

Lemma encode_step_simple_break words x cur c :
  is_word_break c = true ->
  encode_step_simple (words, x :: cur) c = ((words ++ [join_numbers (x :: cur)])%list, []).
Proof. intros Hb. unfold encode_step_simple. rewrite Hb. reflexivity. Qed.

Lemma string_app_assoc s t u : (s ++ t ++ u)%string = ((s ++ t) ++ u)%string.
Proof. induction s as [|a s IH]; [reflexivity|]. rewrite !string_app_cons, IH. reflexivity. Qed.

Lemma toUpperCase_app s t : toUpperCase (s ++ t) = (toUpperCase s ++ toUpperCase t)%string.
Proof.
  induction s as [|a s IH]; [reflexivity|].
  rewrite string_app_cons. cbn [toUpperCase]. rewrite IH. apply string_app_assoc.
Qed.

Lemma toUpperCase_concat_space ws :
  toUpperCase (String.concat " " ws) = String.concat " " (map toUpperCase ws).
Proof.
  induction ws as [|w m IH]; [reflexivity|]. cbn [map]. rewrite !concat_cons_eq.
  destruct m as [|y m]; [reflexivity|]. cbn [map].
  rewrite !toUpperCase_app, IH. reflexivity.
Qed.

Lemma toUpperCase_nonempty w : w <> "" -> toUpperCase w <> "".
Proof.
  destruct w as [|c r]; [congruence|]. intros _. cbn [toUpperCase].
  pose proof (to_upper_char_nonempty c) as H.
  destruct (to_upper_char c); [congruence|]. discriminate.
Qed.

Lemma concat_chars w : String.concat "" (map (fun c => String c EmptyString) (String.list_ascii_of_string w)) = w.
Proof.
  induction w as [|c w IH]; [reflexivity|].
  cbn [String.list_ascii_of_string map]. rewrite concat_cons_eq.
  destruct (map _ (String.list_ascii_of_string w)) as [|y m] eqn:E.
  - destruct w; [reflexivity|discriminate].
  - cbv beta iota. rewrite IH. reflexivity.
Qed.

(** X3: the letters-only codec gives back the upper-cased words joined by
    single spaces, when every word is non-empty and upper-cases to letters
    A-Z only. *)
Theorem letters_round_trip ws :
  Forall (fun w => w <> "" /\
            forall c, In c (String.list_ascii_of_string (toUpperCase w)) -> is_upper_AZ c = true) ws ->
  wavelengthFormatToText_simple (textToWavelengthFormat_simple (String.concat " " ws)) =
  String.concat " " (map toUpperCase ws).
Proof.
  intros Hws. destruct ws as [|w0 m]; [reflexivity|].
  assert (Hfit : Forall (fits letter_wl) (map toUpperCase (w0 :: m))).
  { apply Forall_map. eapply Forall_impl; [exact Hws|]. intros w [Hw Hu]. split.
    - now apply toUpperCase_nonempty.
    - intros c Hc. apply letter_wl_upper, Hu, Hc. }
  unfold textToWavelengthFormat_simple. cbv zeta.
  rewrite toUpperCase_concat_space.
  rewrite (encode_fold_words letter_wl encode_step_simple encode_step_simple_char encode_step_simple_break)
    by (discriminate || exact Hfit).
  cbn [app]. unfold wavelengthFormatToText_simple.
  rewrite (decode_text_words letter_wl wavelengthToLetter "?" (fun c => String c EmptyString)
             letter_wl_facts _ Hfit).
  f_equal. transitivity (map id (map toUpperCase (w0 :: m))); [apply map_ext; intros; apply concat_chars|apply map_id].
Qed.

Lemma letters_round_trip_witness :
  Forall (fun w => w <> "" /\
            forall c, In c (String.list_ascii_of_string (toUpperCase w)) -> is_upper_AZ c = true)
         ["Hello"; "wOrld"] /\
  wavelengthFormatToText_simple (textToWavelengthFormat_simple (String.concat " " ["Hello"; "wOrld"])) =
  String.concat " " (map toUpperCase ["Hello"; "wOrld"]).
Proof.
  assert (H : Forall (fun w => w <> "" /\
            forall c, In c (String.list_ascii_of_string (toUpperCase w)) -> is_upper_AZ c = true)
         ["Hello"; "wOrld"]).
  { repeat constructor; try discriminate;
    intros c Hin; vm_compute in Hin; repeat (destruct Hin as [<-|Hin]; [reflexivity|]); destruct Hin. }
  split; [exact H|]. apply (letters_round_trip _ H).
Defined.

(** X4: [isWavelengthFormat] accepts the output of the letters-only encoder
    exactly when that output is non-empty. *)
Theorem isWavelengthFormat_textToWavelengthFormat_simple t :
  isWavelengthFormat (textToWavelengthFormat_simple t) =
  negb (String.eqb (textToWavelengthFormat_simple t) "").
Proof.
  unfold textToWavelengthFormat_simple. cbv zeta.
  apply isWavelengthFormat_words, (encode_fold_inv encode_step_simple _ [] [] encode_step_simple_shape);
    constructor.
Qed.

Lemma fold_add_ge xs a :
  Forall (fun x => 0 <= x)%Z xs -> (a <= fold_left Z.add xs a)%Z.
Proof.
  revert a. induction xs as [|x r IH]; intros a Hxs; cbn [fold_left]; [lia|].
  inversion Hxs as [|? ? Hx Hr]; subst. specialize (IH (a + x)%Z Hr). lia.
Qed.

Lemma calculateCumulativeWeight_pos x l :
  Forall (fun v => 0 <= cumulativeWeight v)%Z l -> (1 <= calculateCumulativeWeight x l)%Z.
Proof.
  intros Hl. unfold calculateCumulativeWeight.
  destruct (filter _ l) as [|y r] eqn:E; [lia|].
  assert (Hs : (0 <= sum_Z (map cumulativeWeight (y :: r)))%Z).
  { unfold sum_Z. apply fold_add_ge. rewrite <- E. apply Forall_map.
    apply Forall_forall. intros v Hv. apply list_elem_of_In, filter_In_iff in Hv.
    rewrite Forall_forall in Hl. apply Hl; apply list_elem_of_In, Hv. }
  lia.
Qed.

Lemma update_weights_loop_pos n i l s :
  Forall (fun v => 0 <= cumulativeWeight v)%Z l ->
  (forall j v, l !! j = Some v -> (j < i)%nat -> (1 <= cumulativeWeight v)%Z) ->
  (length l <= i + n)%nat ->
  Forall (fun v => 1 <= cumulativeWeight v)%Z (update_weights_loop n i l s).1.
Proof.
  revert i l s. induction n as [|n IH]; intros i l s Hnn Hlt Hlen; cbn [update_weights_loop].
  - apply Forall_lookup. intros j v Hj. cbn in Hj. apply (Hlt j v Hj).
    apply lookup_lt_Some in Hj. lia.
  - destruct (l !! i) as [x|] eqn:Hi.
    + pose proof (calculateCumulativeWeight_pos x l Hnn) as Hc.
      destruct (Z.eqb _ _) eqn:Eq.
      * apply Z.eqb_eq in Eq. apply IH; [exact Hnn| |lia].
        intros j v Hj Hji. destruct (decide (j = i)) as [->|Hne].
        -- rewrite Hi in Hj. injection Hj as <-. lia.
        -- apply (Hlt j v Hj). lia.
      * apply IH.
        -- apply Forall_lookup. intros j v Hj.
           destruct (decide (j = i)) as [->|Hne].
           ++ rewrite list_lookup_insert_eq in Hj by (eapply lookup_lt_Some; eauto).
              injection Hj as <-. cbn. lia.
           ++ rewrite list_lookup_insert_ne in Hj by congruence.
              rewrite Forall_lookup in Hnn. apply (Hnn j v Hj).
        -- intros j v Hj Hji. destruct (decide (j = i)) as [->|Hne].
           ++ rewrite list_lookup_insert_eq in Hj by (eapply lookup_lt_Some; eauto).
              injection Hj as <-. cbn. lia.
           ++ rewrite list_lookup_insert_ne in Hj by congruence.
              apply (Hlt j v Hj). lia.
        -- rewrite length_insert. lia.
    + apply Forall_lookup. intros j v Hj. cbn in Hj. apply (Hlt j v Hj).
      apply lookup_ge_None in Hi. apply lookup_lt_Some in Hj. lia.
Qed.

(** X17: after [updateCumulativeWeights], every stored vertex has a
    cumulative weight of at least 1, when all weights were non-negative. *)
Theorem updateCumulativeWeights_weights_pos s :
  kok vertexHash s ->
  Forall (fun v => 0 <= cumulativeWeight v)%Z s ->
  Forall (fun v => 1 <= cumulativeWeight v)%Z (updateCumulativeWeights s).
Proof.
  intros Hok Hnn. unfold updateCumulativeWeights.
  destruct (update_weights_loop_inv (length s) 0 s Hok) as (Heq & _ & _).
  cbv zeta in Heq. rewrite <- Heq.
  apply update_weights_loop_pos; [exact Hnn| |lia].
  intros j v _ Hj. lia.
Qed.

Lemma updateCumulativeWeights_weights_pos_witness :
  kok vertexHash [wa; wz; wc] /\
  Forall (fun v => 0 <= cumulativeWeight v)%Z [wa; wz; wc] /\
  Forall (fun v => 1 <= cumulativeWeight v)%Z (updateCumulativeWeights [wa; wz; wc]).
Proof.
  assert (H1 : kok vertexHash [wa; wz; wc]) by (unfold kok; cbn; repeat constructor).
  assert (H2 : Forall (fun v => 0 <= cumulativeWeight v)%Z [wa; wz; wc]) by (repeat constructor; cbn; lia).
  split; [exact H1|]. split; [exact H2|]. apply (updateCumulativeWeights_weights_pos _ H1 H2).
Defined.

(** X26: [DAGStorage.selectTips] returns the genesis pair only when no
    stored vertex has a creation time; otherwise both tips are hashes of
    stored vertices that have one. *)
Theorem DAGStorage_selectTips_from_store ext store pos sel pos' :
  DAGStorage.selectTips ext store pos = Some (sel, pos') ->
  ((forall v, In v store -> createdAt v = None) /\ sel = genesis_selection) \/
  exists t1 t2, In t1 store /\ In t2 store /\ createdAt t1 <> None /\ createdAt t2 <> None /\
    TipSelection.tip1Hash sel = vertexHash t1 /\ TipSelection.tip2Hash sel = vertexHash t2.
Proof.
  unfold DAGStorage.selectTips. intros Hsel.
  assert (Hin : forall x, In x (DAGStorage.getRecentVertices store 50) -> In x store /\ createdAt x <> None).
  { intros x Hx. unfold DAGStorage.getRecentVertices in Hx.
    apply slice0_sub, sort_desc_by_In in Hx. unfold DAGStorage.byCreatedAt_getAll in Hx.
    apply sort_desc_by_In, filter_In_iff in Hx as [Hc Hx]. split; [exact Hx|].
    destruct Hc as [c Hc]. congruence. }
  destruct (selectTips_simple_in_input _ _ _ _ _ _ Hsel) as [[Hnil Hg]|(t1 & t2 & H1 & H2 & Ht1 & Ht2 & _)].
  - left. split; [|exact Hg]. intros v Hv. destruct (createdAt v) as [c|] eqn:Hc; [exfalso|reflexivity].
    assert (Hv' : In v (DAGStorage.byCreatedAt_getAll store)).
    { unfold DAGStorage.byCreatedAt_getAll. apply sort_desc_by_In, filter_In_iff.
      split; [rewrite Hc; eauto|exact Hv]. }
    apply (sort_desc_by_In DAGStorage.created_time) in Hv'.
    revert Hnil. unfold DAGStorage.getRecentVertices, DAGStorage.slice0.
    replace ((50 <? 0)%Z) with false by reflexivity. change (Z.to_nat 50) with (S 49).
    destruct (sort_desc_by DAGStorage.created_time _) as [|y l]; [destruct Hv'|]. discriminate.
  - right. apply Hin in H1 as [H1 H1c], H2 as [H2 H2c]. exists t1, t2. split_and!; assumption.
Qed.

Lemma DAGStorage_selectTips_from_store_witness :
  DAGStorage.selectTips (fun _ => 0%Q) [sb; va; sc] 0 = Some (TipSelection.mk "c" "b" 1, 1%nat) /\
  (((forall v, In v [sb; va; sc] -> createdAt v = None) /\
    TipSelection.mk "c" "b" 1 = genesis_selection) \/
   exists t1 t2, In t1 [sb; va; sc] /\ In t2 [sb; va; sc] /\
     createdAt t1 <> None /\ createdAt t2 <> None /\
     TipSelection.tip1Hash (TipSelection.mk "c" "b" 1) = vertexHash t1 /\
     TipSelection.tip2Hash (TipSelection.mk "c" "b" 1) = vertexHash t2).
Proof.
  assert (E : DAGStorage.selectTips (fun _ => 0%Q) [sb; va; sc] 0 = Some (TipSelection.mk "c" "b" 1, 1%nat))
    by (vm_compute; reflexivity).
  split; [exact E|]. exact (DAGStorage_selectTips_from_store _ _ _ _ _ E).
Defined.
